(** * HarborGuard: scan-job lifecycle and progress delivery

    A shallow embedding of

    - [scanningReducer] and the completion monitor of
      [src/providers/ScanningProvider.tsx],
    - the [SSEManager] connection manager (second document of the same file),
    - the batch trigger [POST] and [startScanExecution] of
      [src/app/api/scheduled-scans/[id]/execute/route.ts],

    - the component code around them: the derived views, the polling
      effect, [refreshJobs], [addScanJob] and [removeScanJob] of
      [ScanningProvider], over the [connect] and [disconnect] of [useSSE],

    followed by the properties of the specification that concern them and by
    further properties read off the code.

    Conventions.  A JavaScript [Map<string, V>] is a [gmap string V]; only
    lookups are observed by the properties below, not the iteration order.
    JavaScript numbers that hold counters, delays and epoch milliseconds are
    integers of [Z].  The result of [new Date(s).getTime()] is an
    [option Z], [None] standing for [NaN]. *)

From Stdlib Require Import ZArith Ascii String.
From stdpp Require Import gmap strings list fin_maps pretty.

Local Open Scope string_scope.
Local Open Scope list_scope.
Local Open Scope Z_scope.

(** ** The JavaScript [Date] interface used by the provider *)

(** [getTime s] is [new Date(s).getTime()], [toISOString t] is
    [new Date(t).toISOString()]. *)
Class JsDate := {
  getTime : string → option Z;
  toISOString : Z → string
}.

(** [a - b < bound] on JavaScript numbers where [b] may be [NaN]: every
    comparison with [NaN] is false. *)
Definition elapsedBelow (currentTime : Z) (jobTime : option Z) (bound : Z) : bool :=
  match jobTime with
  | Some t => bool_decide (currentTime - t < bound)
  | None => false
  end.

(** *** A concrete [Date] for the format written by [toISOString]:
    [YYYY-MM-DDTHH:mm:ss.sssZ]. *)
Module IsoDate.

Definition digit (c : ascii) : option Z :=
  let n := Z.of_nat (nat_of_ascii c) in
  if bool_decide (48 ≤ n ≤ 57) then Some (n - 48) else None.

Fixpoint digits (acc : Z) (s : string) : option Z :=
  match s with
  | EmptyString => Some acc
  | String c rest =>
      match digit c with
      | Some d => digits (10 * acc + d) rest
      | None => None
      end
  end.

Definition field (s : string) (off len : nat) : option Z :=
  let sub := substring off len s in
  if bool_decide (String.length sub = len) then digits 0 sub else None.

Definition sep (s : string) (off : nat) (c : string) : bool :=
  bool_decide (substring off 1 s = c).

Definition isLeap (y : Z) : bool :=
  bool_decide (y mod 4 = 0 ∧ (y mod 100 ≠ 0 ∨ y mod 400 = 0)).

Definition daysInMonth (y m : Z) : Z :=
  if bool_decide (m = 2) then (if isLeap y then 29 else 28)
  else if bool_decide (m = 4 ∨ m = 6 ∨ m = 9 ∨ m = 11) then 30
  else 31.

(** Days between 1970-01-01 and the civil date [y-m-d]. *)
Definition daysFromCivil (y m d : Z) : Z :=
  let y' := if bool_decide (m ≤ 2) then y - 1 else y in
  let era := y' / 400 in
  let yoe := y' - era * 400 in
  let mp := if bool_decide (m > 2) then m - 3 else m + 9 in
  let doy := (153 * mp + 2) / 5 + d - 1 in
  let doe := yoe * 365 + yoe / 4 - yoe / 100 + doy in
  era * 146097 + doe - 719468.

Definition parse (s : string) : option Z :=
  if bool_decide (String.length s = 24%nat)
     && sep s 4 "-" && sep s 7 "-" && sep s 10 "T" && sep s 13 ":"
     && sep s 16 ":" && sep s 19 "." && sep s 23 "Z"
  then
    y ← field s 0 4; mo ← field s 5 2; d ← field s 8 2;
    h ← field s 11 2; mi ← field s 14 2; sec ← field s 17 2;
    ms ← field s 20 3;
    if bool_decide (1 ≤ mo ≤ 12 ∧ 1 ≤ d ≤ daysInMonth y mo
                    ∧ h ≤ 23 ∧ mi ≤ 59 ∧ sec ≤ 59)
    then Some ((((daysFromCivil y mo d * 24 + h) * 60 + mi) * 60 + sec) * 1000 + ms)
    else None
  else None.

(** Rendering, for non-negative epochs of four-digit years. *)
Definition digitChar (n : Z) : string :=
  String (ascii_of_nat (Z.to_nat (48 + n mod 10))) EmptyString.

Fixpoint pad (width : nat) (n : Z) : string :=
  match width with
  | O => ""
  | S w => pad w (n / 10) +:+ digitChar n
  end.

(** Civil date of a day number (inverse of [daysFromCivil]). *)
Definition civilFromDays (z : Z) : Z * Z * Z :=
  let z := z + 719468 in
  let era := z / 146097 in
  let doe := z - era * 146097 in
  let yoe := (doe - doe / 1460 + doe / 36524 - doe / 146096) / 365 in
  let y := yoe + era * 400 in
  let doy := doe - (365 * yoe + yoe / 4 - yoe / 100) in
  let mp := (5 * doy + 2) / 153 in
  let d := doy - (153 * mp + 2) / 5 + 1 in
  let m := if bool_decide (mp < 10) then mp + 3 else mp - 9 in
  (if bool_decide (m ≤ 2) then y + 1 else y, m, d).

Definition render (t : Z) : string :=
  let days := t / 86400000 in
  let rem := t mod 86400000 in
  let '(y, m, d) := civilFromDays days in
  pad 4 y +:+ "-" +:+ pad 2 m +:+ "-" +:+ pad 2 d +:+ "T"
    +:+ pad 2 (rem / 3600000) +:+ ":" +:+ pad 2 (rem / 60000 mod 60) +:+ ":"
    +:+ pad 2 (rem / 1000 mod 60) +:+ "." +:+ pad 3 (rem mod 1000) +:+ "Z".

Definition date : JsDate := {| getTime := parse; toISOString := render |}.

End IsoDate.

(** ** Job state store ([ScanningProvider.tsx]) *)
Module Store.

Inductive JobStatus := RUNNING | SUCCESS | FAILED | CANCELLED | QUEUED.

#[global] Instance JobStatus_eq_dec : EqDecision JobStatus.
Proof. solve_decision. Defined.

Record ScanJob := {
requestId : string;
scanId : string;
imageId : string;
imageName : option string;
status : JobStatus;
progress : Z;
step : option string;
error : option string;
startTime : string;
lastUpdate : string;
queuePosition : option Z;
estimatedWaitTime : option Z
}.

(** Modelled from the spec: the type [ScanProgressEvent] of
  [@/lib/scanner/types] is not among the sources; its fields are those of
  the push message [{type:"progress", requestId, scanId, status, progress,
  step?, error?, timestamp}], the status being assignable to
  [ScanJob.status]. *)
Record ScanProgressEvent := {
ev_requestId : string;
ev_scanId : string;
ev_status : JobStatus;
ev_progress : Z;
ev_step : option string;
ev_error : option string;
ev_timestamp : string
}.

(** [Omit<ScanJob, 'startTime' | 'lastUpdate'>] *)
Record NewScanJob := {
new_requestId : string;
new_scanId : string;
new_imageId : string;
new_imageName : option string;
new_status : JobStatus;
new_progress : Z;
new_step : option string;
new_error : option string;
new_queuePosition : option Z;
new_estimatedWaitTime : option Z
}.

Record ScanningState := {
jobs : gmap string ScanJob;
queuedScans : list ScanJob;
lastFetchTime : Z;
isPolling : bool
}.

Inductive ScanningAction :=
| UPDATE_SCAN_PROGRESS (payload : ScanProgressEvent)
| ADD_SCAN_JOB (payload : NewScanJob)
| REMOVE_SCAN_JOB (payload : string)
| SET_JOBS (payload : list ScanJob)
| SET_QUEUED_SCANS (payload : list ScanJob)
| CLEAR_COMPLETED_JOBS
| AUTO_CLEANUP
| SET_POLLING (payload : bool).

(** [a || b] on strings: the empty string is falsy. *)
Definition orElse (a b : string) : string :=
if bool_decide (a = "") then b else a.

Definition withJobs (state : ScanningState) (m : gmap string ScanJob) : ScanningState :=
{| jobs := m; queuedScans := queuedScans state;
   lastFetchTime := lastFetchTime state; isPolling := isPolling state |}.

(** The job written by the [UPDATE_SCAN_PROGRESS] case. *)
Definition updatedJob (existingJob : option ScanJob) (event : ScanProgressEvent) : ScanJob :=
{| requestId := ev_requestId event;
   scanId := ev_scanId event;
   imageId := orElse (from_option imageId "" existingJob) "";
   imageName := existingJob ≫= imageName;
   status := ev_status event;
   progress := ev_progress event;
   step := ev_step event;
   error := ev_error event;
   startTime := orElse (from_option startTime "" existingJob) (ev_timestamp event);
   lastUpdate := ev_timestamp event;
   queuePosition := None;
   estimatedWaitTime := None |}.

(** The body of the [forEach] callback of the [AUTO_CLEANUP] case. *)
Definition cleanupStep {date : JsDate} (currentTime : Z)
  (requestId : string) (job : ScanJob) (cleanedJobs : gmap string ScanJob)
  : gmap string ScanJob :=
if bool_decide (status job = RUNNING) then <[requestId := job]> cleanedJobs
else if bool_decide (status job = SUCCESS) then
  let jobTime := getTime (lastUpdate job) in
  if elapsedBelow currentTime jobTime 5000
  then <[requestId := job]> cleanedJobs else cleanedJobs
else if bool_decide (status job = FAILED) || bool_decide (status job = CANCELLED) then
  let jobTime := getTime (lastUpdate job) in
  if elapsedBelow currentTime jobTime 30000
  then <[requestId := job]> cleanedJobs else cleanedJobs
else cleanedJobs.

(** [scanningReducer now state action]; [now] is the reading of the clock
  ([Date.now()], [new Date()]) during the call. *)
Definition scanningReducer {date : JsDate} (now : Z)
  (state : ScanningState) (action : ScanningAction) : ScanningState :=
match action with
| UPDATE_SCAN_PROGRESS event =>
    let existingJob := jobs state !! ev_requestId event in
    let newJobs := <[ev_requestId event := updatedJob existingJob event]> (jobs state) in
    withJobs state newJobs
| ADD_SCAN_JOB payload =>
    let newJob :=
      {| requestId := new_requestId payload; scanId := new_scanId payload;
         imageId := new_imageId payload; imageName := new_imageName payload;
         status := new_status payload; progress := new_progress payload;
         step := new_step payload; error := new_error payload;
         startTime := toISOString now; lastUpdate := toISOString now;
         queuePosition := new_queuePosition payload;
         estimatedWaitTime := new_estimatedWaitTime payload |} in
    withJobs state (<[requestId newJob := newJob]> (jobs state))
| REMOVE_SCAN_JOB rid =>
    withJobs state (delete rid (jobs state))
| SET_JOBS payload =>
    let jobsMap := foldl (λ m job, <[requestId job := job]> m) ∅ payload in
    {| jobs := jobsMap; queuedScans := queuedScans state;
       lastFetchTime := now; isPolling := isPolling state |}
| SET_QUEUED_SCANS payload =>
    {| jobs := jobs state; queuedScans := payload;
       lastFetchTime := lastFetchTime state; isPolling := isPolling state |}
| CLEAR_COMPLETED_JOBS =>
    let activeJobs :=
      map_fold (λ requestId job activeJobs,
                  if bool_decide (status job = RUNNING)
                  then <[requestId := job]> activeJobs else activeJobs)
               ∅ (jobs state) in
    withJobs state activeJobs
| AUTO_CLEANUP =>
    let currentTime := now in
    let cleanedJobs := map_fold (cleanupStep currentTime) ∅ (jobs state) in
    withJobs state cleanedJobs
| SET_POLLING payload =>
    {| jobs := jobs state; queuedScans := queuedScans state;
       lastFetchTime := lastFetchTime state; isPolling := payload |}
end.

(** The event's timestamp is earlier than the stored job's [lastUpdate]. *)
Definition staleFor {date : JsDate} (event : ScanProgressEvent) (job : ScanJob) : Prop :=
∃ te tj, getTime (ev_timestamp event) = Some te
         ∧ getTime (lastUpdate job) = Some tj ∧ te < tj.

(** The retention rule of [AUTO_CLEANUP] for one job at time [t]. *)
Definition retained {date : JsDate} (t : Z) (job : ScanJob) : Prop :=
status job = RUNNING
∨ (status job = SUCCESS
   ∧ ∃ u, getTime (lastUpdate job) = Some u ∧ t - u < 5000)
∨ ((status job = FAILED ∨ status job = CANCELLED)
   ∧ ∃ u, getTime (lastUpdate job) = Some u ∧ t - u < 30000).

(** The same rule as a test. *)
Definition retainedb {date : JsDate} (t : Z) (job : ScanJob) : bool :=
  match status job with
  | RUNNING => true
  | SUCCESS => elapsedBelow t (getTime (lastUpdate job)) 5000
  | FAILED | CANCELLED => elapsedBelow t (getTime (lastUpdate job)) 30000
  | QUEUED => false
  end.

End Store.

(** ** A monad for code that mutates a store and may throw

    A JavaScript exception leaves the mutations made before it in place, so
    the state is threaded through both outcomes. *)

Inductive Res (A : Type) :=
| Ok (a : A)
| Throw (message : string).
Arguments Ok {A} a.
Arguments Throw {A} message.

Definition M (S A : Type) : Type := S → Res A * S.

Definition ret {S A} (a : A) : M S A := λ s, (Ok a, s).

Definition bind {S A B} (c : M S A) (k : A → M S B) : M S B :=
  λ s, match c s with
       | (Ok a, s') => k a s'
       | (Throw e, s') => (Throw e, s')
       end.

Definition throw {S A} (message : string) : M S A := λ s, (Throw message, s).

(** [try { body } catch (error) { handler }] *)
Definition tryCatch {S A} (body : M S A) (handler : string → M S A) : M S A :=
  λ s, match body s with
       | (Ok a, s') => (Ok a, s')
       | (Throw e, s') => handler e s'
       end.

Definition gets {S A} (f : S → A) : M S A := λ s, (Ok (f s), s).
Definition modify {S} (f : S → S) : M S unit := λ s, (Ok tt, f s).

Declare Scope js_scope.
Delimit Scope js_scope with js.
Notation "'let*' x := c 'in' k" := (bind c (λ x, k))
  (at level 10, x pattern, c at level 100, k at level 200) : js_scope.
Notation "c ;;; k" := (bind c (λ _, k))
  (at level 100, k at level 200, right associativity) : js_scope.

(** ** Regular expressions of the host *)

(** [compile p] is [new RegExp(p)]: [None] when the constructor throws a
    [SyntaxError], otherwise the predicate [regex.test]. *)
Class JsRegExp := { compile : string → option (string → bool) }.

(** An instance for patterns without metacharacters, which match the strings
    that contain them. *)
Module LiteralRegExp.

Definition plain (c : ascii) : bool :=
  let n := nat_of_ascii c in
  bool_decide ((48 ≤ n ≤ 58)%nat ∨ (65 ≤ n ≤ 90)%nat ∨ (97 ≤ n ≤ 122)%nat
               ∨ n = 45%nat ∨ n = 47%nat ∨ n = 95%nat).

Fixpoint allPlain (p : string) : bool :=
  match p with
  | EmptyString => true
  | String c rest => plain c && allPlain rest
  end.

Fixpoint contains (p s : string) : bool :=
  String.prefix p s
  || match s with
     | EmptyString => false
     | String _ rest => contains p rest
     end.

Definition regexp : JsRegExp :=
  {| compile := λ p, if allPlain p then Some (contains p) else None |}.

End LiteralRegExp.

(** ** Batch execution pipeline ([scheduled-scans/[id]/execute/route.ts]) *)
Module Batch.

(** *** Records of the relational store *)

Record Image := {
  id : string;
  name : string;
  tag : string;
  registry : string
}.

Inductive ImageSelectionMode := SPECIFIC | PATTERN | ALL | REPOSITORY.

Record ScheduledScan := {
  ss_id : string;
  enabled : bool;
  imageSelectionMode : ImageSelectionMode;
  imagePattern : option string;
  selectedImages : list Image;
  lastRunAt : option Z
}.

Inductive HistoryStatus := PENDING | RUNNING | COMPLETED | PARTIAL | FAILED.

#[global] Instance HistoryStatus_eq_dec : EqDecision HistoryStatus.
Proof. solve_decision. Defined.

Record History := {
  h_id : string;
  scheduledScanId : string;
  executionId : string;
  totalImages : Z;
  scannedImages : Z;
  failedImages : Z;
  status : HistoryStatus;
  errorMessage : option string;
  completedAt : option Z;
  triggerSource : string;
  triggeredBy : string
}.

Record Scan := {
  scan_id : string;
  scan_requestId : string;
  scan_imageId : string;
  scan_startedAt : Z;
  scan_status : string;
  scan_tag : string
}.

Record ScanResult := {
  res_id : string;
  res_historyId : string;
  res_scanId : string;
  res_imageId : string;
  res_imageName : string;
  res_imageTag : string;
  res_status : string;
  res_startedAt : Z;
  res_completedAt : option Z;
  vulnerabilityCritical : Z;
  vulnerabilityHigh : Z;
  vulnerabilityMedium : Z;
  vulnerabilityLow : Z
}.

Record Db := {
  scheduledScans : gmap string ScheduledScan;
  images : list Image;
  histories : gmap string History;
  scans : gmap string Scan;
  results : gmap string ScanResult
}.

(** *** The world seen by the route

    [faults] is the fate of the coming store calls, in the order they are
    issued: [Some message] makes the call reject with that message, [None]
    (or an exhausted list) lets it through.  [delays] is the time the
    coming waits take beyond their minimum, in milliseconds: the round trip
    of an awaited store call, the lateness of a timer (an exhausted list
    stands for waits that take no time).  [randoms] feeds [Math.random],
    [console] collects the lines written by [console.error].

    [background] collects the calls of [startScanExecution] that were made
    without being awaited, each with the outcome of the first store call of
    the task: the call runs the task up to its first [await], so that
    update is issued before the caller goes on, and its answer is delivered
    to the task only later.  What the task does from that answer on is
    [resumedTask] below. *)
Record World := {
  db : Db;
  faults : list (option string);
  delays : list N;
  clock : Z;
  nextId : nat;
  randoms : list Z;
  background : list (string * list Image * Res unit);
  console : list string
}.

Definition setDb (d : Db) (w : World) : World :=
  {| db := d; faults := faults w; delays := delays w; clock := clock w;
     nextId := nextId w; randoms := randoms w; background := background w;
     console := console w |}.
Definition setFaults (f : list (option string)) (w : World) : World :=
  {| db := db w; faults := f; delays := delays w; clock := clock w;
     nextId := nextId w; randoms := randoms w; background := background w;
     console := console w |}.
Definition setDelays (l : list N) (w : World) : World :=
  {| db := db w; faults := faults w; delays := l; clock := clock w;
     nextId := nextId w; randoms := randoms w; background := background w;
     console := console w |}.
Definition setClock (t : Z) (w : World) : World :=
  {| db := db w; faults := faults w; delays := delays w; clock := t;
     nextId := nextId w; randoms := randoms w; background := background w;
     console := console w |}.
Definition setNextId (n : nat) (w : World) : World :=
  {| db := db w; faults := faults w; delays := delays w; clock := clock w;
     nextId := n; randoms := randoms w; background := background w;
     console := console w |}.
Definition setRandoms (r : list Z) (w : World) : World :=
  {| db := db w; faults := faults w; delays := delays w; clock := clock w;
     nextId := nextId w; randoms := r; background := background w;
     console := console w |}.
Definition setBackground (b : list (string * list Image * Res unit)) (w : World) : World :=
  {| db := db w; faults := faults w; delays := delays w; clock := clock w;
     nextId := nextId w; randoms := randoms w; background := b;
     console := console w |}.
Definition setConsole (c : list string) (w : World) : World :=
  {| db := db w; faults := faults w; delays := delays w; clock := clock w;
     nextId := nextId w; randoms := randoms w; background := background w;
     console := c |}.

Definition setHistories (h : gmap string History) (d : Db) : Db :=
  {| scheduledScans := scheduledScans d; images := images d; histories := h;
     scans := scans d; results := results d |}.
Definition setScheduledScans (s : gmap string ScheduledScan) (d : Db) : Db :=
  {| scheduledScans := s; images := images d; histories := histories d;
     scans := scans d; results := results d |}.
Definition setScans (s : gmap string Scan) (d : Db) : Db :=
  {| scheduledScans := scheduledScans d; images := images d;
     histories := histories d; scans := s; results := results d |}.
Definition setResults (r : gmap string ScanResult) (d : Db) : Db :=
  {| scheduledScans := scheduledScans d; images := images d;
     histories := histories d; scans := scans d; results := r |}.

(** *** Host primitives *)

(** A store call as the store serves it: the next fault, if any, rejects
    the call before it touches the store. *)
Definition request {A} (op : Db → Res A * Db) : M World A :=
  λ w,
    let rest := tail (faults w) in
    match head (faults w) with
    | Some (Some message) => (Throw message, setFaults rest w)
    | _ => let '(r, d) := op (db w) in (r, setDb d (setFaults rest w))
    end.

(** A wait comes to its end: the time it took beyond its minimum has
    passed. *)
Definition elapse (w : World) : World :=
  setDelays (tail (delays w))
    (setClock (clock w + Z.of_N (default 0%N (head (delays w)))) w).

(** One [await prisma.<model>.<operation>(...)]: the call is served, and
    the caller resumes when the answer is back. *)
Definition prisma {A} (op : Db → Res A * Db) : M World A :=
  λ w, let '(r, w') := request op w in (r, elapse w').

Definition newDate : M World Z := gets clock.

(** [await new Promise(resolve => setTimeout(resolve, ms))]: the caller
    resumes no sooner than [ms] later. *)
Definition sleep (ms : Z) : M World unit :=
  λ w, (Ok tt, elapse (setClock (clock w + ms) w)).

Definition fresh (prefix : string) : M World string :=
  λ w, (Ok (prefix +:+ pretty (nextId w)), setNextId (S (nextId w)) w).

Definition randomUUID : M World string := fresh "uuid-".

(** [Math.floor(Math.random() * k)] *)
Definition floorRandom (k : Z) : M World Z :=
  λ w, (Ok (default 0 (head (randoms w)) `mod` k), setRandoms (tail (randoms w)) w).

Definition consoleError (line : string) : M World unit :=
  modify (λ w, setConsole (console w ++ [line]) w).

(** *** Store operations *)

Definition scheduledScan_findUnique (key : string) : M World (option ScheduledScan) :=
  prisma (λ d, (Ok (scheduledScans d !! key), d)).

Definition image_findMany : M World (list Image) :=
  prisma (λ d, (Ok (images d), d)).

Definition recordNotFound : string := "Record to update not found.".

Definition scheduledScan_update (key : string) (f : ScheduledScan → ScheduledScan)
    : M World unit :=
  prisma (λ d, match scheduledScans d !! key with
               | Some s => (Ok tt, setScheduledScans (<[key := f s]> (scheduledScans d)) d)
               | None => (Throw recordNotFound, d)
               end).

Definition scheduledScanHistory_create (key : string) (h : History) : M World History :=
  prisma (λ d, (Ok h, setHistories (<[key := h]> (histories d)) d)).

(** [scheduledScanHistory.update({ where: { id: key }, data })] as the store
    runs it. *)
Definition historyUpdate (key : string) (f : History → History) (d : Db)
    : Res unit * Db :=
  match histories d !! key with
  | Some h => (Ok tt, setHistories (<[key := f h]> (histories d)) d)
  | None => (Throw recordNotFound, d)
  end.

Definition scheduledScanHistory_update (key : string) (f : History → History)
    : M World unit :=
  prisma (historyUpdate key f).

Definition scan_create (key : string) (s : Scan) : M World Scan :=
  prisma (λ d, (Ok s, setScans (<[key := s]> (scans d)) d)).

Definition scheduledScanResult_create (key : string) (r : ScanResult) : M World ScanResult :=
  prisma (λ d, (Ok r, setResults (<[key := r]> (results d)) d)).

Definition scheduledScanResult_update (key : string) (f : ScanResult → ScanResult)
    : M World unit :=
  prisma (λ d, match results d !! key with
               | Some r => (Ok tt, setResults (<[key := f r]> (results d)) d)
               | None => (Throw recordNotFound, d)
               end).

(** *** Field updates written by the route *)

Definition historyWith (st : HistoryStatus) (scanned failed : Z)
    (message : option string) (done : option Z) (h : History) : History :=
  {| h_id := h_id h; scheduledScanId := scheduledScanId h;
     executionId := executionId h; totalImages := totalImages h;
     scannedImages := scanned; failedImages := failed; status := st;
     errorMessage := message; completedAt := done;
     triggerSource := triggerSource h; triggeredBy := triggeredBy h |}.

(** [data: { status: 'RUNNING' }] *)
Definition markRunning (h : History) : History :=
  historyWith RUNNING (scannedImages h) (failedImages h) (errorMessage h) (completedAt h) h.

(** [data: { scannedImages: scannedCount, failedImages: failedCount }] *)
Definition markProgress (scannedCount failedCount : Z) (h : History) : History :=
  historyWith (status h) scannedCount failedCount (errorMessage h) (completedAt h) h.

(** [data: { failedImages: failedCount }] *)
Definition markFailedCount (failedCount : Z) (h : History) : History :=
  historyWith (status h) (scannedImages h) failedCount (errorMessage h) (completedAt h) h.

(** The status expression of the last update of [startScanExecution]. *)
Definition finalStatus (failedCount total : Z) : HistoryStatus :=
  if bool_decide (failedCount = total) then FAILED
  else if bool_decide (failedCount > 0) then PARTIAL
  else COMPLETED.

(** [data: { status: ..., completedAt: new Date(), scannedImages, failedImages }] *)
Definition markCompleted (total scannedCount failedCount now : Z) (h : History) : History :=
  historyWith (finalStatus failedCount total) scannedCount failedCount
              (errorMessage h) (Some now) h.

(** [data: { status: 'FAILED', errorMessage: error.message, completedAt: new Date() }] *)
Definition markFaulted (message : string) (now : Z) (h : History) : History :=
  historyWith FAILED (scannedImages h) (failedImages h) (Some message) (Some now) h.

Definition markSuccess (now c hi m l : Z) (r : ScanResult) : ScanResult :=
  {| res_id := res_id r; res_historyId := res_historyId r; res_scanId := res_scanId r;
     res_imageId := res_imageId r; res_imageName := res_imageName r;
     res_imageTag := res_imageTag r; res_status := "SUCCESS";
     res_startedAt := res_startedAt r; res_completedAt := Some now;
     vulnerabilityCritical := c; vulnerabilityHigh := hi;
     vulnerabilityMedium := m; vulnerabilityLow := l |}.

Definition markLastRun (now : Z) (s : ScheduledScan) : ScheduledScan :=
  {| ss_id := ss_id s; enabled := enabled s;
     imageSelectionMode := imageSelectionMode s; imagePattern := imagePattern s;
     selectedImages := selectedImages s; lastRunAt := Some now |}.

(** *** [startScanExecution] *)

(** The activation record: the world and the two local counters. *)
Record Exec := {
  world : World;
  scannedCount : Z;
  failedCount : Z
}.

Definition liftW {A} (c : M World A) : M Exec A :=
  λ e, let '(r, w) := c (world e) in
       (r, {| world := w; scannedCount := scannedCount e; failedCount := failedCount e |}).

Definition setScannedCount (n : Z) : M Exec unit :=
  modify (λ e, {| world := world e; scannedCount := n; failedCount := failedCount e |}).
Definition setFailedCount (n : Z) : M Exec unit :=
  modify (λ e, {| world := world e; scannedCount := scannedCount e; failedCount := n |}).

Local Open Scope js_scope.

(** The [try] block of the loop body. *)
Definition tryBlock (historyId : string) (image : Image) : M Exec unit :=
  let* requestId := liftW randomUUID in
  let* startedAt := liftW newDate in
  let* scanKey := liftW (fresh "scan-") in
  let* scan := liftW (scan_create scanKey
    {| scan_id := scanKey; scan_requestId := requestId; scan_imageId := id image;
       scan_startedAt := startedAt; scan_status := "PENDING"; scan_tag := tag image |}) in
  let* resultStartedAt := liftW newDate in
  let* resultKey := liftW (fresh "result-") in
  let* result := liftW (scheduledScanResult_create resultKey
    {| res_id := resultKey; res_historyId := historyId; res_scanId := scan_id scan;
       res_imageId := id image; res_imageName := name image; res_imageTag := tag image;
       res_status := "PENDING"; res_startedAt := resultStartedAt;
       res_completedAt := None; vulnerabilityCritical := 0; vulnerabilityHigh := 0;
       vulnerabilityMedium := 0; vulnerabilityLow := 0 |}) in
  liftW (sleep 100) ;;;
  let* completed := liftW newDate in
  let* critical := liftW (floorRandom 5) in
  let* high := liftW (floorRandom 10) in
  let* medium := liftW (floorRandom 20) in
  let* low := liftW (floorRandom 30) in
  liftW (scheduledScanResult_update (res_id result)
           (markSuccess completed critical high medium low)) ;;;
  let* n := gets scannedCount in
  setScannedCount (n + 1) ;;;
  let* scanned := gets scannedCount in
  let* failed := gets failedCount in
  liftW (scheduledScanHistory_update historyId (markProgress scanned failed)).

(** The [catch] block of the loop body. *)
Definition catchBlock (historyId : string) (image : Image) (error : string) : M Exec unit :=
  liftW (consoleError ("Error scanning image " +:+ name image +:+ ":" +:+ tag image
                       +:+ ": " +:+ error)) ;;;
  let* n := gets failedCount in
  setFailedCount (n + 1) ;;;
  let* failed := gets failedCount in
  liftW (scheduledScanHistory_update historyId (markFailedCount failed)).

(** [for (const image of images) { try { ... } catch (error) { ... } }] *)
Fixpoint forEachImage (historyId : string) (images : list Image) : M Exec unit :=
  match images with
  | [] => ret tt
  | image :: rest =>
      tryCatch (tryBlock historyId image) (catchBlock historyId image) ;;;
      forEachImage historyId rest
  end.

(** The body of [startScanExecution], on its activation record. *)
Definition execution (historyId : string) (images : list Image) : M Exec unit :=
  liftW (scheduledScanHistory_update historyId markRunning) ;;;
  setScannedCount 0 ;;;
  setFailedCount 0 ;;;
  forEachImage historyId images ;;;
  let* scanned := gets scannedCount in
  let* failed := gets failedCount in
  let* now := liftW newDate in
  liftW (scheduledScanHistory_update historyId
           (markCompleted (Z.of_nat (length images)) scanned failed now)).

Definition enter (w : World) : Exec :=
  {| world := w; scannedCount := 0; failedCount := 0 |}.

Definition startScanExecution (historyId : string) (images : list Image) : M World unit :=
  λ w, let '(r, e) := execution historyId images (enter w) in (r, world e).

(** [startScanExecution(history.id, imagesToScan).catch(error => ...)]: the
    task that [POST] leaves running, with its rejection handler. *)
Definition backgroundTask (historyId : string) (images : list Image) : M World unit :=
  tryCatch (startScanExecution historyId images)
    (λ error,
       consoleError ("Error in scan execution: " +:+ error) ;;;
       let* now := newDate in
       tryCatch (scheduledScanHistory_update historyId (markFaulted error now))
                (λ e, consoleError e)).

(** *** A task started without being awaited *)

(** The call [startScanExecution(history.id, imagesToScan)] of [POST]: the
    task runs up to its first [await], which issues the update to
    [RUNNING]; the caller goes on without waiting for the answer. *)
Definition start (historyId : string) (images : list Image) : M World unit :=
  λ w, let '(first, w') := request (historyUpdate historyId markRunning) w in
       (Ok tt, setBackground (background w' ++ [(historyId, images, first)]) w').

(** The body of [startScanExecution] after its first [await]. *)
Definition proceed (historyId : string) (images : list Image) : M Exec unit :=
  setScannedCount 0 ;;;
  setFailedCount 0 ;;;
  forEachImage historyId images ;;;
  let* scanned := gets scannedCount in
  let* failed := gets failedCount in
  let* now := liftW newDate in
  liftW (scheduledScanHistory_update historyId
           (markCompleted (Z.of_nat (length images)) scanned failed now)).

(** A started task resumes: the answer [first] of its first update is
    back. *)
Definition resumeScanExecution (historyId : string) (images : list Image)
    (first : Res unit) : M World unit :=
  λ w, match first with
       | Ok _ => let '(r, e) := proceed historyId images (enter (elapse w)) in
                 (r, world e)
       | Throw message => (Throw message, elapse w)
       end.

(** The same with the rejection handler that [POST] attaches. *)
Definition resumedTask (historyId : string) (images : list Image) (first : Res unit)
    : M World unit :=
  tryCatch (resumeScanExecution historyId images first)
    (λ error,
       consoleError ("Error in scan execution: " +:+ error) ;;;
       let* now := newDate in
       tryCatch (scheduledScanHistory_update historyId (markFaulted error now))
                (λ e, consoleError e)).

(** *** [POST] *)

Inductive Body :=
| ErrorBody (error : string)
| Started (executionId historyId : string) (totalImages : Z) (message : string).

Record Response := {
  body : Body;
  statusCode : Z
}.

Definition json (b : Body) (code : Z) : Response := {| body := b; statusCode := code |}.

(** The [switch] on [imageSelectionMode]: either the [return] of the
    [REPOSITORY] case or the value of [imagesToScan] after it. *)
Definition selectImages {regexp : JsRegExp} (scheduledScan : ScheduledScan)
    : M World (Response + list Image) :=
  match imageSelectionMode scheduledScan with
  | SPECIFIC => ret (inr (selectedImages scheduledScan))
  | PATTERN =>
      match imagePattern scheduledScan with
      | Some pattern =>
          if bool_decide (pattern = "") then ret (inr [])
          else
            match compile pattern with
            | None => throw ("Invalid regular expression: /" +:+ pattern +:+ "/")
            | Some test =>
                let* allImages := image_findMany in
                ret (inr (filter (λ img, test (name img +:+ ":" +:+ tag img) = true)
                                 allImages))
            end
      | None => ret (inr [])
      end
  | ALL =>
      let* all := image_findMany in
      ret (inr all)
  | REPOSITORY =>
      ret (inl (json (ErrorBody "Repository-based selection not yet implemented") 501))
  end.

(** The route up to the call of [startScanExecution]: the response of an
    early [return], or the execution id, the record and the images the
    call is made with.  The route gives the record neither counters nor a
    message nor a completion time; it is created with the counters at 0
    and the two others absent. *)
Definition prepare {regexp : JsRegExp} (params_id : string)
    : M World (Response + string * History * list Image) :=
  let* scheduledScan := scheduledScan_findUnique params_id in
  match scheduledScan with
  | None => ret (inl (json (ErrorBody "Scheduled scan not found") 404))
  | Some scheduledScan =>
      if negb (enabled scheduledScan)
      then ret (inl (json (ErrorBody "Scheduled scan is disabled") 400))
      else
        let* selection := selectImages scheduledScan in
        match selection with
        | inl response => ret (inl response)
        | inr imagesToScan =>
            if bool_decide (length imagesToScan = 0%nat)
            then ret (inl (json (ErrorBody "No images found to scan") 400))
            else
              let total := Z.of_nat (length imagesToScan) in
              let* executionId := randomUUID in
              let* historyKey := fresh "history-" in
              let* history := scheduledScanHistory_create historyKey
                {| h_id := historyKey; scheduledScanId := params_id;
                   executionId := executionId; totalImages := total;
                   scannedImages := 0; failedImages := 0; status := PENDING;
                   errorMessage := None; completedAt := None;
                   triggerSource := "MANUAL"; triggeredBy := "API" |} in
              ret (inr (executionId, history, imagesToScan))
        end
  end.

(** The handler up to its answer.  The task it starts has issued its first
    update by then; the answer of that update is still to be delivered, so
    nothing the task does after it is part of [POST]. *)
Definition POST {regexp : JsRegExp} (params_id : string) : M World Response :=
  tryCatch
    (let* prepared := prepare params_id in
     match prepared with
     | inl response => ret response
     | inr (executionId, history, imagesToScan) =>
         let total := Z.of_nat (length imagesToScan) in
         start (h_id history) imagesToScan ;;;
         let* now := newDate in
         scheduledScan_update params_id (markLastRun now) ;;;
         ret (json (Started executionId (h_id history) total
                      ("Scheduled scan execution started for " +:+ pretty total
                       +:+ " images")) 202)
     end)
    (λ error,
       consoleError ("Error executing scheduled scan: " +:+ error) ;;;
       ret (json (ErrorBody "Failed to execute scheduled scan") 500)).

Local Close Scope js_scope.

(** The images a found, enabled schedule resolves to, when resolution
    yields a list at all. *)
Definition resolved {regexp : JsRegExp} (d : Db) (s : ScheduledScan) : option (list Image) :=
  match imageSelectionMode s with
  | SPECIFIC => Some (selectedImages s)
  | PATTERN =>
      match imagePattern s with
      | Some pattern =>
          if bool_decide (pattern = "") then Some []
          else test ← compile pattern;
               Some (filter (λ img, test (name img +:+ ":" +:+ tag img) = true) (images d))
      | None => Some []
      end
  | ALL => Some (images d)
  | REPOSITORY => None
  end.

(** No fault among the next [n] store calls. *)
Definition calm (n : nat) (w : World) : Prop :=
  Forall (λ f, f = None) (take n (faults w)).

(** The coming store calls meet the fates [l], one after the other. *)
Definition fated (l : list (option string)) (w : World) : Prop :=
  ∀ i, (i < length l)%nat → default None (faults w !! i) = default None (l !! i).

(** A computation that starts no background task. *)
Definition quiet {A} (c : M World A) : Prop :=
  ∀ w, background (c w).2 = background w.

End Batch.

(** ** Connection manager ([SSEManager], second document of [ScanningProvider.tsx]) *)
Module SSE.

Inductive ConnectionStatus :=
  connecting | connected | disconnected | error | reconnecting.

#[global] Instance ConnectionStatus_eq_dec : EqDecision ConnectionStatus.
Proof. solve_decision. Defined.

(** [Required<SSEConnectionOptions>] *)
Record Options := {
  maxRetries : Z;
  retryInterval : Z;
  heartbeatTimeout : Z
}.

(** [SSEConnectionOptions], every field optional. *)
Record OptionsArg := {
  arg_maxRetries : option Z;
  arg_retryInterval : option Z;
  arg_heartbeatTimeout : option Z
}.

(** [private options] of the manager. *)
Definition defaults : Options :=
  {| maxRetries := 3; retryInterval := 1000; heartbeatTimeout := 30000 |}.

(** [{ ...this.options, ...options }] *)
Definition merge (base : Options) (options : option OptionsArg) : Options :=
  match options with
  | None => base
  | Some o =>
      {| maxRetries := default (maxRetries base) (arg_maxRetries o);
         retryInterval := default (retryInterval base) (arg_retryInterval o);
         heartbeatTimeout := default (heartbeatTimeout base) (arg_heartbeatTimeout o) |}
  end.

(** A connection object.  [identity] tells the objects apart: the handlers
    of an [EventSource] keep the object they were created for, which need
    not be the one the table holds later. *)
Record ManagedConnection := {
  requestId : string;
  eventSource : option nat;
  status : ConnectionStatus;
  retryCount : Z;
  heartbeatTimer : option nat;
  reconnectTimer : option nat;
  lastActivity : Z;
  identity : nat
}.

Definition setEventSource (v : option nat) (c : ManagedConnection) : ManagedConnection :=
  {| requestId := requestId c; eventSource := v; status := status c;
     retryCount := retryCount c; heartbeatTimer := heartbeatTimer c;
     reconnectTimer := reconnectTimer c; lastActivity := lastActivity c;
     identity := identity c |}.
Definition setStatus (v : ConnectionStatus) (c : ManagedConnection) : ManagedConnection :=
  {| requestId := requestId c; eventSource := eventSource c; status := v;
     retryCount := retryCount c; heartbeatTimer := heartbeatTimer c;
     reconnectTimer := reconnectTimer c; lastActivity := lastActivity c;
     identity := identity c |}.
Definition setRetryCount (v : Z) (c : ManagedConnection) : ManagedConnection :=
  {| requestId := requestId c; eventSource := eventSource c; status := status c;
     retryCount := v; heartbeatTimer := heartbeatTimer c;
     reconnectTimer := reconnectTimer c; lastActivity := lastActivity c;
     identity := identity c |}.
Definition setHeartbeatTimer (v : option nat) (c : ManagedConnection) : ManagedConnection :=
  {| requestId := requestId c; eventSource := eventSource c; status := status c;
     retryCount := retryCount c; heartbeatTimer := v;
     reconnectTimer := reconnectTimer c; lastActivity := lastActivity c;
     identity := identity c |}.
Definition setReconnectTimer (v : option nat) (c : ManagedConnection) : ManagedConnection :=
  {| requestId := requestId c; eventSource := eventSource c; status := status c;
     retryCount := retryCount c; heartbeatTimer := heartbeatTimer c;
     reconnectTimer := v; lastActivity := lastActivity c;
     identity := identity c |}.
Definition setLastActivity (v : Z) (c : ManagedConnection) : ManagedConnection :=
  {| requestId := requestId c; eventSource := eventSource c; status := status c;
     retryCount := retryCount c; heartbeatTimer := heartbeatTimer c;
     reconnectTimer := reconnectTimer c; lastActivity := v;
     identity := identity c |}.

(** What a pending [setTimeout] callback does when it runs. *)
Inductive TimerAction :=
| Reconnect (requestId : string) (options : Options)
| HeartbeatTimeout (requestId : string).

Definition target (a : TimerAction) : string :=
  match a with
  | Reconnect rid _ => rid
  | HeartbeatTimeout rid => rid
  end.

Record Timer := {
  setAt : Z;
  delay : Z;
  action : TimerAction
}.

(** An [EventSource] with the variables its handlers close over. *)
Record Source := {
  url : string;
  src_requestId : string;
  src_options : Options;
  captured : nat;
  closed : bool
}.

Inductive Emitted :=
| StatusChange (requestId : string) (status : ConnectionStatus)
| Progress (requestId : string) (data : Store.ScanProgressEvent)
| ErrorEvent (requestId : string) (message : string).

Record Manager := {
  connections : gmap string ManagedConnection;
  sources : gmap nat Source;
  timers : gmap nat Timer;
  nextSource : nat;
  nextTimer : nat;
  nextIdentity : nat;
  emitted : list Emitted
}.

Definition withConnections (v : gmap string ManagedConnection) (m : Manager) : Manager :=
  {| connections := v; sources := sources m; timers := timers m;
     nextSource := nextSource m; nextTimer := nextTimer m;
     nextIdentity := nextIdentity m; emitted := emitted m |}.
Definition withSources (v : gmap nat Source) (n : nat) (m : Manager) : Manager :=
  {| connections := connections m; sources := v; timers := timers m;
     nextSource := n; nextTimer := nextTimer m;
     nextIdentity := nextIdentity m; emitted := emitted m |}.
Definition withTimers (v : gmap nat Timer) (n : nat) (m : Manager) : Manager :=
  {| connections := connections m; sources := sources m; timers := v;
     nextSource := nextSource m; nextTimer := n;
     nextIdentity := nextIdentity m; emitted := emitted m |}.
Definition withIdentity (n : nat) (m : Manager) : Manager :=
  {| connections := connections m; sources := sources m; timers := timers m;
     nextSource := nextSource m; nextTimer := nextTimer m;
     nextIdentity := n; emitted := emitted m |}.

(** [new SSEManager()] *)
Definition initial : Manager :=
  {| connections := ∅; sources := ∅; timers := ∅; nextSource := 0;
     nextTimer := 1; nextIdentity := 0; emitted := [] |}.

(** *** Host primitives *)

Definition emit (e : Emitted) (m : Manager) : Manager :=
  {| connections := connections m; sources := sources m; timers := timers m;
     nextSource := nextSource m; nextTimer := nextTimer m;
     nextIdentity := nextIdentity m; emitted := emitted m ++ [e] |}.

Definition setTimeout (now ms : Z) (a : TimerAction) (m : Manager) : nat * Manager :=
  let tid := nextTimer m in
  (tid, withTimers (<[tid := {| setAt := now; delay := ms; action := a |}]> (timers m))
                   (S tid) m).

Definition clearTimeout (tid : nat) (m : Manager) : Manager :=
  withTimers (delete tid (timers m)) (nextTimer m) m.

Definition shut (s : Source) : Source :=
  {| url := url s; src_requestId := src_requestId s; src_options := src_options s;
     captured := captured s; closed := true |}.

(** [eventSource.close()] *)
Definition close (es : nat) (m : Manager) : Manager :=
  withSources (alter shut es (sources m)) (nextSource m) m.

(** A write through the table's object for [rid]. *)
Definition update (rid : string) (f : ManagedConnection → ManagedConnection)
    (m : Manager) : Manager :=
  withConnections (alter f rid (connections m)) m.

(** A write through the object a handler closed over: it shows in the
    table only while the table still holds that object. *)
Definition updateCaptured (rid : string) (object : nat)
    (f : ManagedConnection → ManagedConnection) (m : Manager) : Manager :=
  update rid (λ c, if bool_decide (identity c = object) then f c else c) m.

(** *** Methods *)

Definition emitStatusChange (rid : string) (st : ConnectionStatus) (m : Manager) : Manager :=
  emit (StatusChange rid st) m.

Definition clearHeartbeatTimer (rid : string) (m : Manager) : Manager :=
  match connections m !! rid ≫= heartbeatTimer with
  | Some tid => update rid (setHeartbeatTimer None) (clearTimeout tid m)
  | None => m
  end.

Definition clearReconnectTimer (rid : string) (m : Manager) : Manager :=
  match connections m !! rid ≫= reconnectTimer with
  | Some tid => update rid (setReconnectTimer None) (clearTimeout tid m)
  | None => m
  end.

Definition startHeartbeatTimer (now : Z) (rid : string) (timeout : Z) (m : Manager)
    : Manager :=
  match connections m !! rid with
  | None => m
  | Some _ =>
      let m := clearHeartbeatTimer rid m in
      let '(tid, m) := setTimeout now timeout (HeartbeatTimeout rid) m in
      update rid (setHeartbeatTimer (Some tid)) m
  end.

Definition resetHeartbeatTimer (now : Z) (rid : string) (timeout : Z) (m : Manager)
    : Manager :=
  startHeartbeatTimer now rid timeout (clearHeartbeatTimer rid m).

(** The delay of the reconnect scheduled when the counter has just become
    [retryCount]. *)
Definition backoff (options : Options) (retryCount : Z) : Z :=
  Z.min (retryInterval options * 2 ^ (retryCount - 1)) 30000.

Definition handleConnectionError (now : Z) (rid : string) (options : Options)
    (m : Manager) : Manager :=
  match connections m !! rid with
  | None => m
  | Some connection =>
      let m := match eventSource connection with
               | Some es => update rid (setEventSource None) (close es m)
               | None => m
               end in
      let m := clearHeartbeatTimer rid m in
      let m := clearReconnectTimer rid m in
      if bool_decide (retryCount connection < maxRetries options) then
        let m := update rid (λ c, setStatus reconnecting
                                    (setRetryCount (retryCount c + 1) c)) m in
        let m := emitStatusChange rid reconnecting m in
        let ms := backoff options (retryCount connection + 1) in
        let '(tid, m) := setTimeout now ms (Reconnect rid options) m in
        update rid (setReconnectTimer (Some tid)) m
      else
        let m := update rid (setStatus error) m in
        let m := emitStatusChange rid error m in
        emit (ErrorEvent rid "Max reconnection attempts reached") m
  end.

(** [constructed] tells whether [new EventSource(url)] returns ([true]) or
    throws ([false]). *)
Definition establishConnection (now : Z) (rid : string) (options : Options)
    (constructed : bool) (m : Manager) : Manager :=
  match connections m !! rid with
  | None => m
  | Some connection =>
      if constructed then
        let es := nextSource m in
        let m := withSources
                   (<[es := {| url := "/api/scans/events/" +:+ rid;
                               src_requestId := rid; src_options := options;
                               captured := identity connection; closed := false |}]>
                      (sources m))
                   (S es) m in
        let m := update rid (λ c, setStatus connecting (setEventSource (Some es) c)) m in
        emitStatusChange rid connecting m
      else handleConnectionError now rid options m
  end.

Definition connect (now : Z) (rid : string) (options : option OptionsArg)
    (constructed : bool) (m : Manager) : bool * Manager :=
  let existing := connections m !! rid in
  if bool_decide (status <$> existing = Some connected) then (true, m)
  else
    let connOptions := merge defaults options in
    let connection :=
      {| requestId := rid; eventSource := None; status := connecting;
         retryCount := 0; heartbeatTimer := None; reconnectTimer := None;
         lastActivity := now; identity := nextIdentity m |} in
    let m := withIdentity (S (nextIdentity m))
               (withConnections (<[rid := connection]> (connections m)) m) in
    (true, establishConnection now rid connOptions constructed m).

Definition disconnect (rid : string) (m : Manager) : Manager :=
  match connections m !! rid with
  | None => m
  | Some connection =>
      let m := match eventSource connection with
               | Some es => update rid (setEventSource None) (close es m)
               | None => m
               end in
      let m := clearHeartbeatTimer rid m in
      let m := clearReconnectTimer rid m in
      let m := withConnections (delete rid (connections m)) m in
      emitStatusChange rid disconnected m
  end.

Definition disconnectAll (m : Manager) : Manager :=
  map_fold (λ rid _ acc, disconnect rid acc) m (connections m).

Definition getConnectionStatus (rid : string) (m : Manager) : option ConnectionStatus :=
  status <$> connections m !! rid.

Definition getActiveConnections (m : Manager) : list string :=
  (map_to_list (filter (λ kv, status kv.2 = connected) (connections m))).*1.

(** The callback of [startCleanupTimer], run every minute. *)
Definition cleanup (now : Z) (m : Manager) : Manager :=
  let staleTimeout := 5 * 60 * 1000 in
  map_fold (λ rid connection acc,
              if bool_decide (status connection = error)
                 || (bool_decide (status connection = disconnected)
                     && bool_decide (now - lastActivity connection > staleTimeout))
              then disconnect rid acc else acc)
           m (connections m).

(** *** Handlers of an [EventSource] and timer callbacks *)

(** [JSON.parse(event.data)] and the [switch] on [data.type]; [Malformed]
    is a payload on which [JSON.parse] throws. *)
Inductive Incoming :=
| ProgressMessage (data : Store.ScanProgressEvent)
| HeartbeatMessage
| ConnectedMessage
| UnknownMessage
| Malformed.

Definition isValidProgressEvent (data : Store.ScanProgressEvent) : bool :=
  negb (bool_decide (Store.ev_requestId data = ""))
  && negb (bool_decide (Store.ev_scanId data = "")).

Definition onopen (now : Z) (s : Source) (m : Manager) : Manager :=
  let rid := src_requestId s in
  let m := updateCaptured rid (captured s)
             (λ c, setLastActivity now (setRetryCount 0 (setStatus connected c))) m in
  let m := emitStatusChange rid connected m in
  startHeartbeatTimer now rid (heartbeatTimeout (src_options s)) m.

Definition onmessage (now : Z) (s : Source) (data : Incoming) (m : Manager) : Manager :=
  let rid := src_requestId s in
  let m := updateCaptured rid (captured s) (setLastActivity now) m in
  match data with
  | ProgressMessage d =>
      if isValidProgressEvent d then emit (Progress rid d) m else m
  | HeartbeatMessage => resetHeartbeatTimer now rid (heartbeatTimeout (src_options s)) m
  | ConnectedMessage => m
  | UnknownMessage => m
  | Malformed => m
  end.

Definition onerror (now : Z) (s : Source) (m : Manager) : Manager :=
  handleConnectionError now (src_requestId s) (src_options s) m.

(** What the event loop can deliver to the manager on its own. *)
Inductive Stimulus :=
| Opened (es : nat)
| Received (es : nat) (data : Incoming)
| Failed (es : nat)
| Elapsed (tid : nat) (constructed : bool)
| Sweep.

(** A closed [EventSource] dispatches nothing; a timer runs once, and only
    while it has not been cleared. *)
Definition react (now : Z) (e : Stimulus) (m : Manager) : Manager :=
  match e with
  | Opened es =>
      match sources m !! es with
      | Some s => if closed s then m else onopen now s m
      | None => m
      end
  | Received es data =>
      match sources m !! es with
      | Some s => if closed s then m else onmessage now s data m
      | None => m
      end
  | Failed es =>
      match sources m !! es with
      | Some s => if closed s then m else onerror now s m
      | None => m
      end
  | Elapsed tid constructed =>
      match timers m !! tid with
      | Some t =>
          let m := clearTimeout tid m in
          match action t with
          | Reconnect rid options => establishConnection now rid options constructed m
          | HeartbeatTimeout rid => handleConnectionError now rid defaults m
          end
      | None => m
      end
  | Sweep => cleanup now m
  end.

Definition run (trace : list (Z * Stimulus)) (m : Manager) : Manager :=
  foldl (λ m e, react e.1 e.2 m) m trace.

(** *** Consecutive transport failures of one connection *)

(** The transport of [rid] reports an error. *)
Definition transportFails (now : Z) (rid : string) (m : Manager) : Manager :=
  match connections m !! rid ≫= eventSource with
  | Some es => react now (Failed es) m
  | None => m
  end.

(** The reconnect scheduled for [rid], if any, comes due and its
    [EventSource] is constructed. *)
Definition retryComesDue (now : Z) (rid : string) (m : Manager) : Manager :=
  match connections m !! rid ≫= reconnectTimer with
  | Some tid => react now (Elapsed tid true) m
  | None => m
  end.

(** [n] failures in a row, each retry in between coming due; the [k]-th
    round happens at time [clock k]. *)
Fixpoint failures (clock : nat → Z) (rid : string) (n : nat) (m : Manager) : Manager :=
  match n with
  | O => m
  | S k =>
      let m := failures clock rid k m in
      transportFails (clock k) rid (retryComesDue (clock k) rid m)
  end.

(** The timers left once the timer of a connection field is cleared, and
    the sources left open once the source of a connection field is
    closed. *)
Definition cleared (field : option nat) (t : gmap nat Timer) : gmap nat Timer :=
  match field with
  | Some tid => delete tid t
  | None => t
  end.

Definition closing (field : option nat) (s : gmap nat Source) : gmap nat Source :=
  match field with
  | Some es => alter shut es s
  | None => s
  end.

(** No timer aims at [rid]. *)
Definition noTimer (rid : string) (m : Manager) : Prop :=
  ∀ tid t, timers m !! tid = Some t → target (action t) ≠ rid.

(** No open [EventSource] belongs to [rid]. *)
Definition noSource (rid : string) (m : Manager) : Prop :=
  ∀ es s, sources m !! es = Some s → closed s = false → src_requestId s ≠ rid.

(** An attempt is under way for [rid] with [k] retries behind it: its
    only open [EventSource] is the one of the table's object, and no timer
    aims at it. *)
Definition attempting (rid : string) (options : Options) (k : Z) (m : Manager) : Prop :=
  ∃ c es s,
    connections m !! rid = Some c
    ∧ retryCount c = k ∧ status c = connecting
    ∧ eventSource c = Some es ∧ heartbeatTimer c = None
    ∧ sources m !! es = Some s
    ∧ closed s = false ∧ src_requestId s = rid ∧ src_options s = options
    ∧ noTimer rid m
    ∧ ∀ es' s', sources m !! es' = Some s' → closed s' = false →
                src_requestId s' = rid → es' = es.

(** The [k]-th retry of [rid] is scheduled: the status is [reconnecting],
    the counter is [k], and the only timer that aims at [rid] is the
    reconnect, set with the delay [backoff options k]. *)
Definition waiting (rid : string) (options : Options) (k : Z) (m : Manager) : Prop :=
  ∃ c tid t,
    connections m !! rid = Some c
    ∧ retryCount c = k ∧ status c = reconnecting
    ∧ eventSource c = None ∧ heartbeatTimer c = None
    ∧ reconnectTimer c = Some tid
    ∧ timers m !! tid = Some t
    ∧ action t = Reconnect rid options ∧ delay t = backoff options k
    ∧ noSource rid m
    ∧ ∀ tid' t', timers m !! tid' = Some t' → target (action t') = rid → tid' = tid.

(** [m'] differs from [m] by work done for [rid] alone: the other
    connections are as they were, every new timer aims at [rid] and every
    newly open [EventSource] belongs to it. *)
Definition workFor (rid : string) (m m' : Manager) : Prop :=
  (∀ tid t, timers m' !! tid = Some t →
            timers m !! tid = Some t ∨ target (action t) = rid)
  ∧ (∀ es s, sources m' !! es = Some s → closed s = false →
             sources m !! es = Some s ∨ src_requestId s = rid)
  ∧ (∀ rid', rid' ≠ rid → connections m' !! rid' = connections m !! rid').

(** [m'] has no timer and no open [EventSource] that [m] has not. *)
Definition quieter (m m' : Manager) : Prop :=
  (∀ tid t, timers m' !! tid = Some t → timers m !! tid = Some t)
  ∧ (∀ es s, sources m' !! es = Some s → closed s = false →
             sources m !! es = Some s).

(** Nothing is pending for [rid]: no timer aims at it and no open
    [EventSource] belongs to it. *)
Definition idle (rid : string) (m : Manager) : Prop :=
  noTimer rid m ∧ noSource rid m.

(** [rid] has given up: nothing is pending for it and, while the table
    keeps it, its status is [error]. *)
Definition givenUp (rid : string) (m : Manager) : Prop :=
  idle rid m ∧ ∀ c, connections m !! rid = Some c → status c = error.

End SSE.

(** ** Completion monitor (the effect of [ScanningProvider] on [state.jobs]) *)
Module Monitor.
Import Store.









End Monitor.

(** ** The component around the store ([ScanningProvider], [useSSE]) *)
Module Provider.
Import Store.

(** The component between two renders: the state of [useReducer] and the
    manager reached through [useSSE], once the hook has fetched the
    singleton. *)
Record Page := {
  state : ScanningState;
  manager : SSE.Manager
}.

(** [connect] and [disconnect] of [useSSE], as [subscribeTo] and
    [unsubscribeFrom] pass them on; [constructed] tells whether
    [new EventSource] returns. *)
Definition subscribeTo (now : Z) (constructed : bool) (requestId : string)
    (m : SSE.Manager) : SSE.Manager :=
  (SSE.connect now requestId None constructed m).2.

Definition unsubscribeFrom (requestId : string) (m : SSE.Manager) : SSE.Manager :=
  SSE.disconnect requestId m.

(** *** Derived views *)

(** [Array.from(state.jobs.values())], the [jobs] of the context value. *)
Definition allJobs (s : ScanningState) : list ScanJob := (map_to_list (jobs s)).*2.

Definition runningJobs (s : ScanningState) : list ScanJob :=
  filter (λ job, status job = RUNNING) (allJobs s).

Definition completedJobs (s : ScanningState) : list ScanJob :=
  filter (λ job, status job ≠ RUNNING) (allJobs s).

(** *** Adaptive polling *)

Definition shouldPoll (s : ScanningState) : bool :=
  let hasRunningJobs := bool_decide (Exists (λ job, status job = RUNNING) (allJobs s)) in
  let hasQueuedJobs := bool_decide (0 < length (queuedScans s))%nat in
  hasRunningJobs || hasQueuedJobs.

(** The polling effect: the period of the interval it leaves in
    [pollingIntervalRef] and the action it dispatches. *)
Definition pollingEffect (s : ScanningState) : Z * ScanningAction :=
  if shouldPoll s then (3000, SET_POLLING true) else (30000, SET_POLLING false).

(** *** [refreshJobs] *)

(** The outcome of [fetch('/api/scans/jobs')] and [response.json()]:
    either of them throws, the response is not [ok], or the body is read,
    [data.jobs] and [data.queuedScans] being [None] when falsy. *)
Inductive Fetched :=
| Rejected (error : string)
| Refused
| Answered (dataJobs dataQueued : option (list ScanJob)).

(** [{...job, startTime: job.startTime || now, lastUpdate: now}] *)
Definition received {date : JsDate} (now : Z) (job : ScanJob) : ScanJob :=
  {| requestId := requestId job; scanId := scanId job; imageId := imageId job;
     imageName := imageName job; status := status job; progress := progress job;
     step := step job; error := error job;
     startTime := orElse (startTime job) (toISOString now);
     lastUpdate := toISOString now;
     queuePosition := queuePosition job;
     estimatedWaitTime := estimatedWaitTime job |}.

(** [{...scan, status: 'QUEUED', progress: 0, startTime: now, lastUpdate: now}] *)
Definition receivedQueued {date : JsDate} (now : Z) (scan : ScanJob) : ScanJob :=
  {| requestId := requestId scan; scanId := scanId scan; imageId := imageId scan;
     imageName := imageName scan; status := QUEUED; progress := 0;
     step := step scan; error := error scan;
     startTime := toISOString now; lastUpdate := toISOString now;
     queuePosition := queuePosition scan;
     estimatedWaitTime := estimatedWaitTime scan |}.

(** [runningJobs.forEach(job => { if (!activeConnections.includes(job.requestId))
    subscribeTo(job.requestId) })] *)
Definition subscribeMissing (now : Z) (constructed : bool)
    (activeConnections : list string) (runningJobs : list ScanJob)
    (m : SSE.Manager) : SSE.Manager :=
  foldl (λ m job, if bool_decide (requestId job ∈ activeConnections) then m
                  else subscribeTo now constructed (requestId job) m)
        m runningJobs.

(** The test of the second loop: [!job || job.status !== 'RUNNING'] for
    [job = jobs.find(j => j.requestId === requestId)]. *)
Definition noLongerRunning (jobs : list ScanJob) (rid : string) : bool :=
  match List.find (λ j, bool_decide (requestId j = rid)) jobs with
  | Some job => negb (bool_decide (status job = RUNNING))
  | None => true
  end.

(** [activeConnections.forEach(requestId => { ... disconnect(requestId) })] *)
Definition dropFinished (jobs : list ScanJob) (activeConnections : list string)
    (m : SSE.Manager) : SSE.Manager :=
  foldl (λ m rid, if noLongerRunning jobs rid then unsubscribeFrom rid m else m)
        m activeConnections.

(** The callback, the two reductions it dispatches included; the second
    component is what it writes to the console. *)
Definition refreshJobs {date : JsDate} (now : Z) (constructed : bool)
    (response : Fetched) (p : Page) : Page * list string :=
  match response with
  | Rejected error => (p, ["Error fetching scan jobs: " +:+ error])
  | Refused => (p, [])
  | Answered dataJobs dataQueued =>
      let jobs := received now <$> default [] dataJobs in
      let queuedScans := receivedQueued now <$> default [] dataQueued in
      let s := scanningReducer now (state p) (SET_JOBS jobs) in
      let s := scanningReducer now s (SET_QUEUED_SCANS queuedScans) in
      let runningJobs := filter (λ job, status job = RUNNING) jobs in
      let activeConnections := SSE.getActiveConnections (manager p) in
      let m := subscribeMissing now constructed activeConnections runningJobs (manager p) in
      let m := dropFinished jobs activeConnections m in
      ({| state := s; manager := m |}, [])
  end.

(** *** [addScanJob] and [removeScanJob] *)

(** Each callback with the reduction of the action it dispatches; the
    reduction and the call on the manager do not depend on each other. *)
Definition addScanJob {date : JsDate} (now : Z) (constructed : bool)
    (job : NewScanJob) (p : Page) : Page :=
  let s := scanningReducer now (state p) (ADD_SCAN_JOB job) in
  {| state := s;
     manager := if bool_decide (new_status job = RUNNING)
                then subscribeTo now constructed (new_requestId job) (manager p)
                else manager p |}.

Definition removeScanJob {date : JsDate} (now : Z) (requestId : string) (p : Page) : Page :=
  {| state := scanningReducer now (state p) (REMOVE_SCAN_JOB requestId);
     manager := unsubscribeFrom requestId (manager p) |}.

End Provider.

(** ** Invariants and frames used by the properties *)
Module Invariants.

(** Every entry sits under the request id of its job. *)
Definition keyed (m : gmap string Store.ScanJob) : Prop :=
  ∀ rid job, m !! rid = Some job → Store.requestId job = rid.

(** An event the manager may hand to its listeners: a progress event
    carries a request id and a scan id. *)
Definition forwardable (e : SSE.Emitted) : Prop :=
  match e with
  | SSE.Progress _ data => Store.ev_requestId data ≠ "" ∧ Store.ev_scanId data ≠ ""
  | _ => True
  end.

(** [m'] has emitted what [m] had, then forwardable events only. *)
Definition speaks (m m' : SSE.Manager) : Prop :=
  ∃ l, SSE.emitted m' = SSE.emitted m ++ l ∧ Forall forwardable l.

End Invariants.

(** What a computation on the store of the route leaves in place. *)
Module Frames.

(** Every run of [c] ends in a state related to the one it started in. *)
Definition stays {S A} (R : S → S → Prop) (c : M S A) : Prop :=
  ∀ s, R s (c s).2.

(** What a batch task may change in the world: the [scans] and [results]
    tables, the clock, the supplies, the console, and the record
    [historyId], of which it keeps the identity and the total. *)
Definition aside (historyId : string) (w w' : Batch.World) : Prop :=
  Batch.scheduledScans (Batch.db w') = Batch.scheduledScans (Batch.db w)
  ∧ Batch.images (Batch.db w') = Batch.images (Batch.db w)
  ∧ Batch.background w' = Batch.background w
  ∧ (∀ k, k ≠ historyId →
          Batch.histories (Batch.db w') !! k = Batch.histories (Batch.db w) !! k)
  ∧ (∀ h', Batch.histories (Batch.db w') !! historyId = Some h' →
           ∃ h, Batch.histories (Batch.db w) !! historyId = Some h
                ∧ Batch.totalImages h' = Batch.totalImages h
                ∧ Batch.h_id h' = Batch.h_id h
                ∧ Batch.scheduledScanId h' = Batch.scheduledScanId h
                ∧ Batch.executionId h' = Batch.executionId h).

(** The same bound on an activation record of [startScanExecution]. *)
Definition asideOf (historyId : string) (e e' : Batch.Exec) : Prop :=
  aside historyId (Batch.world e) (Batch.world e').

End Frames.

(** Quantities named by the properties of [POST]. *)
Module Facts.

(** The number of [image.findMany] calls of the selection [switch]. *)
Definition storeReads (s : Batch.ScheduledScan) : nat :=
  match Batch.imageSelectionMode s with
  | Batch.SPECIFIC => 0
  | _ => 1
  end.

(** The record written by [scheduledScanHistory.create] in [POST]. *)
Definition pendingHistory (key scheduledScanId executionId : string) (total : Z)
    : Batch.History :=
  {| Batch.h_id := key; Batch.scheduledScanId := scheduledScanId;
     Batch.executionId := executionId; Batch.totalImages := total;
     Batch.scannedImages := 0; Batch.failedImages := 0; Batch.status := Batch.PENDING;
     Batch.errorMessage := None; Batch.completedAt := None;
     Batch.triggerSource := "MANUAL"; Batch.triggeredBy := "API" |}.

(** What [create] writes in a record and no update of the route changes. *)
Definition provenance (h : Batch.History) : string * string * string * Z * string * string :=
  (Batch.h_id h, Batch.scheduledScanId h, Batch.executionId h, Batch.totalImages h,
   Batch.triggerSource h, Batch.triggeredBy h).

(** The answer the task gets to its first update, from the fate of that
    call. *)
Definition answered (fate : option string) : Res unit :=
  match fate with
  | None => Ok tt
  | Some message => Throw message
  end.

(** *** What happens to the images of an execution *)

(** The four awaited store calls of the [try] block, in order. *)
Inductive TryCall := ScanCreate | ResultCreate | ResultUpdate | ProgressUpdate.

(** The [try] block of an image completes, or one of its calls is rejected
    and the update of the [catch] block goes through. *)
Inductive Outcome :=
| Scanned
| Fails (call : TryCall) (message : string).

#[global] Instance TryCall_eq_dec : EqDecision TryCall.
Proof. solve_decision. Defined.

#[global] Instance Outcome_eq_dec : EqDecision Outcome.
Proof. solve_decision. Defined.

Definition position (call : TryCall) : nat :=
  match call with
  | ScanCreate => 0
  | ResultCreate => 1
  | ResultUpdate => 2
  | ProgressUpdate => 3
  end.

(** The fates of the store calls made for one image. *)
Definition fatesOf (o : Outcome) : list (option string) :=
  match o with
  | Scanned => [None; None; None; None]
  | Fails call message => replicate (position call) None ++ [Some message; None]
  end.

(** The image has reached [scannedCount++]; its [catch] block has run. *)
Definition countedScanned (o : Outcome) : bool :=
  match o with
  | Scanned | Fails ProgressUpdate _ => true
  | Fails _ _ => false
  end.

Definition countedFailed (o : Outcome) : bool :=
  match o with
  | Scanned => false
  | Fails _ _ => true
  end.

Definition tally (counted : Outcome → bool) (outcomes : list Outcome) : Z :=
  Z.of_nat (length (filter (λ o, counted o = true) outcomes)).

(** The fates of the store calls of a whole execution: the update to
    [RUNNING] goes through, the images meet their outcomes, the last update
    goes through. *)
Definition script (outcomes : list Outcome) : list (option string) :=
  None :: concat (fatesOf <$> outcomes) ++ [None].

(** The same with the last update rejected, and the update of the
    rejection handler accepted. *)
Definition scriptLost (outcomes : list Outcome) (message : string)
    : list (option string) :=
  None :: concat (fatesOf <$> outcomes) ++ [Some message; None].

End Facts.

(** * Sample data *)
Module Sample.

(** *** Jobs and events *)

Definition job (rid : string) (st : Store.JobStatus) (pct : Z) (updated : string)
    : Store.ScanJob :=
  {| Store.requestId := rid; Store.scanId := "scan-" +:+ rid;
     Store.imageId := "img-1"; Store.imageName := Some "nginx";
     Store.status := st; Store.progress := pct; Store.step := None;
     Store.error := None; Store.startTime := "2024-01-01T00:00:00.000Z";
     Store.lastUpdate := updated; Store.queuePosition := None;
     Store.estimatedWaitTime := None |}.

Definition store (entries : list (string * Store.ScanJob)) : Store.ScanningState :=
  {| Store.jobs := list_to_map entries; Store.queuedScans := [];
     Store.lastFetchTime := 0; Store.isPolling := false |}.

Definition finished : Store.ScanJob :=
  job "req-1" Store.SUCCESS 100 "2024-01-01T00:00:10.000Z".

(** An event stamped five seconds before [finished] was last updated. *)
Definition late : Store.ScanProgressEvent :=
  {| Store.ev_requestId := "req-1"; Store.ev_scanId := "scan-req-1";
     Store.ev_status := Store.RUNNING; Store.ev_progress := 50;
     Store.ev_step := Some "pulling"; Store.ev_error := None;
     Store.ev_timestamp := "2024-01-01T00:00:05.000Z" |}.

Definition waiting : Store.ScanJob :=
  job "req-2" Store.QUEUED 0 "2024-01-01T00:00:10.000Z".

Definition running (rid : string) : Store.ScanJob :=
  job rid Store.RUNNING 40 "2024-01-01T00:00:08.000Z".

Definition broken : Store.ScanJob :=
  job "req-3" Store.FAILED 40 "2024-01-01T00:00:10.000Z".

(** *** Images, schedules and worlds *)

Definition image (n : string) : Batch.Image :=
  {| Batch.id := "img-" +:+ n; Batch.name := n; Batch.tag := "latest";
     Batch.registry := "docker.io" |}.

Definition five : list Batch.Image :=
  [image "nginx"; image "redis"; image "postgres"; image "alpine"; image "busybox"].

Definition schedule (on : bool) (mode : Batch.ImageSelectionMode)
    (pattern : option string) : Batch.ScheduledScan :=
  {| Batch.ss_id := "nightly"; Batch.enabled := on;
     Batch.imageSelectionMode := mode; Batch.imagePattern := pattern;
     Batch.selectedImages := []; Batch.lastRunAt := None |}.

Definition world (s : Batch.ScheduledScan) (inventory : list Batch.Image)
    (fates : list (option string)) : Batch.World :=
  {| Batch.db := {| Batch.scheduledScans := {["nightly" := s]};
                    Batch.images := inventory; Batch.histories := ∅;
                    Batch.scans := ∅; Batch.results := ∅ |};
     Batch.faults := fates; Batch.delays := []; Batch.clock := 1704067200000;
     Batch.nextId := 0;
     Batch.randoms := []; Batch.background := []; Batch.console := [] |}.

Definition down : option string := Some "Can't reach database server".

(** The store calls of the trigger up to its call of [startScanExecution]
    go through, then those of the execution started there: the second and
    the fourth image fail at [scan.create]. *)
Definition twoOfFive : list (option string) :=
  [None; None; None;
   None;
   None; None; None; None;
   down; None;
   None; None; None; None;
   down; None;
   None; None; None; None].

(** One image; the progress update after [scannedCount++] is rejected. *)
Definition progressLost : list (option string) :=
  [None; None; None;
   None;
   None; None; None; down; None].



(** Five images; every store call of the images goes through, the last
    update of the execution is rejected and the store is back afterwards. *)
Definition lastLost : list (option string) :=
  [None; None; None;
   None;
   None; None; None; None;
   None; None; None; None;
   None; None; None; None;
   None; None; None; None;
   None; None; None; None;
   down].

(** Five images; the progress update of the second and of the fourth is
    rejected. *)
Definition twoProgressLost : list (option string) :=
  [None; None; None;
   None;
   None; None; None; None;
   None; None; None; down; None;
   None; None; None; None;
   None; None; None; down; None;
   None; None; None; None].

(** The world in which [POST] calls [startScanExecution] for a batch over
    the whole inventory. *)
Definition triggered (inventory : list Batch.Image) (fates : list (option string))
    : Batch.World :=
  (Batch.prepare (regexp := LiteralRegExp.regexp) "nightly"
     (world (schedule true Batch.ALL None) inventory fates)).2.

(** A manager on which ["req-1"] has just been connected, and one on which
    its transport has opened. *)
Definition dialled : SSE.Manager := (SSE.connect 0 "req-1" None true SSE.initial).2.
Definition live : SSE.Manager := SSE.react 5 (SSE.Opened 0) dialled.

(** *** More managers, and a page *)

(** ["req-1"] dialled a second time before its transport opened: the table
    holds a new object and a new source, and the first source is still
    open. *)
Definition redialled : SSE.Manager := (SSE.connect 7 "req-1" None true dialled).2.

Definition submitted : Store.NewScanJob :=
  {| Store.new_requestId := "req-9"; Store.new_scanId := "scan-req-9";
     Store.new_imageId := "img-1"; Store.new_imageName := Some "nginx";
     Store.new_status := Store.RUNNING; Store.new_progress := 0;
     Store.new_step := None; Store.new_error := None;
     Store.new_queuePosition := None; Store.new_estimatedWaitTime := None |}.

(** The page before anything was fetched. *)
Definition page : Provider.Page :=
  {| Provider.state := store []; Provider.manager := SSE.initial |}.



End Sample.

(** * Properties *)

(** ** The job state store *)
Section StoreProperties.
Import Store.
Context {date : JsDate}.

Lemma elapsedBelow_spec t o bound :
  elapsedBelow t o bound = true ↔ ∃ u, o = Some u ∧ t - u < bound.
Proof.
  unfold elapsedBelow. destruct o as [u|].
  - rewrite bool_decide_eq_true. split.
    + intros Hlt. by exists u.
    + intros (u' & [= <-] & Hlt). exact Hlt.
  - split; [discriminate|]. intros (u & Hu & _). discriminate.
Qed.

Lemma retainedb_spec t job : retainedb t job = true ↔ retained t job.
Proof.
  unfold retainedb, retained.
  destruct (status job); rewrite ?elapsedBelow_spec; split;
    try (intros [?|[[? ?]|[[?|?] ?]]]); try discriminate; try done; eauto.
Qed.

Lemma cleanupStep_retainedb t rid job acc :
  cleanupStep t rid job acc = if retainedb t job then <[rid := job]> acc else acc.
Proof.
  unfold cleanupStep, retainedb.
  destruct (status job); simpl; try reflexivity;
    destruct (elapsedBelow _ _ _); reflexivity.
Qed.

(** The map built by the [forEach] of [AUTO_CLEANUP] holds exactly the
    retained entries of the old one. *)
Lemma cleanup_lookup t (m : gmap string ScanJob) rid :
  map_fold (cleanupStep t) ∅ m !! rid
  = m !! rid ≫= λ job, if retainedb t job then Some job else None.
Proof.
  revert rid.
  apply (map_fold_weak_ind
           (λ acc m, ∀ rid, acc !! rid
              = m !! rid ≫= λ job, if retainedb t job then Some job else None)).
  - intros rid. by rewrite !lookup_empty.
  - intros k job m' acc Hfresh IH rid.
    rewrite cleanupStep_retainedb.
    destruct (decide (k = rid)) as [->|Hne].
    + rewrite lookup_insert_eq. simpl.
      destruct (retainedb t job).
      * by rewrite lookup_insert_eq.
      * by rewrite IH, Hfresh.
    + rewrite (lookup_insert_ne m') by done.
      destruct (retainedb t job); [rewrite lookup_insert_ne by done|]; apply IH.
Qed.

Lemma auto_cleanup_lookup now st rid job :
  jobs (scanningReducer now st AUTO_CLEANUP) !! rid = Some job
  ↔ jobs st !! rid = Some job ∧ retained now job.
Proof.
  simpl. rewrite cleanup_lookup, <- retainedb_spec.
  destruct (jobs st !! rid) as [j|]; simpl.
  - destruct (retainedb now j) eqn:E; split.
    + intros [= <-]. done.
    + intros [[= <-] _]. done.
    + discriminate.
    + intros [[= <-] Hk]. congruence.
  - split; [discriminate|]. intros [? _]. discriminate.
Qed.

(** C1, as amended: [UPDATE_SCAN_PROGRESS] stores the status, the progress
    and the timestamp carried by the event under the event's request id,
    whatever the timestamps of the event and of the stored job are; the
    last event to arrive wins. *)
Theorem update_scan_progress_last_arrival_wins now st ev :
  ∃ job, jobs (scanningReducer now st (UPDATE_SCAN_PROGRESS ev)) !! ev_requestId ev
           = Some job
         ∧ status job = ev_status ev
         ∧ progress job = ev_progress ev
         ∧ lastUpdate job = ev_timestamp ev.
Proof.
  eexists. split; [apply lookup_insert_eq|]. by simpl.
Qed.

(** C5: [AUTO_CLEANUP] at time [now] keeps an entry, unchanged, exactly
    when it is [RUNNING], or [SUCCESS] and updated less than 5 s ago, or
    [FAILED]/[CANCELLED] and updated less than 30 s ago; a [RUNNING] job
    stays whatever its age, and a [FAILED] job updated 31 s ago goes. *)
Theorem auto_cleanup_retention now st rid :
  (∀ job, jobs (scanningReducer now st AUTO_CLEANUP) !! rid = Some job
          ↔ jobs st !! rid = Some job
            ∧ (status job = RUNNING
               ∨ (status job = SUCCESS
                  ∧ ∃ u, getTime (lastUpdate job) = Some u ∧ now - u < 5000)
               ∨ ((status job = FAILED ∨ status job = CANCELLED)
                  ∧ ∃ u, getTime (lastUpdate job) = Some u ∧ now - u < 30000)))
  ∧ (∀ job, jobs st !! rid = Some job → status job = RUNNING →
            jobs (scanningReducer now st AUTO_CLEANUP) !! rid = Some job)
  ∧ (∀ job u, jobs st !! rid = Some job → status job = FAILED →
              getTime (lastUpdate job) = Some u → now = u + 31000 →
              jobs (scanningReducer now st AUTO_CLEANUP) !! rid = None).
Proof.
  split; [|split].
  - intros job. apply auto_cleanup_lookup.
  - intros job Hjob Hrun. apply auto_cleanup_lookup. split; [done|]. by left.
  - intros job u Hjob Hst Hu ->.
    destruct (jobs (scanningReducer (u + 31000) st AUTO_CLEANUP) !! rid)
      as [job'|] eqn:E; [|done].
    apply auto_cleanup_lookup in E as [Hjob' Hkeep].
    assert (job' = job) as -> by congruence.
    destruct Hkeep as [?|[[? _]|[_ (u' & Hu' & ?)]]]; try congruence.
    assert (u' = u) by congruence. lia.
Qed.

(** C10: [AUTO_CLEANUP] drops every [QUEUED] job, however recent, and
    whatever survives it is [RUNNING], [SUCCESS], [FAILED] or
    [CANCELLED]. *)
Theorem auto_cleanup_drops_queued now st rid job :
  jobs st !! rid = Some job →
  status job = QUEUED →
  jobs (scanningReducer now st AUTO_CLEANUP) !! rid = None
  ∧ ∀ rid' job', jobs (scanningReducer now st AUTO_CLEANUP) !! rid' = Some job' →
                 status job' = RUNNING ∨ status job' = SUCCESS
                 ∨ status job' = FAILED ∨ status job' = CANCELLED.
Proof.
  intros Hjob Hq. split.
  - destruct (jobs (scanningReducer now st AUTO_CLEANUP) !! rid) as [job'|] eqn:E; [|done].
    apply auto_cleanup_lookup in E as [Hjob' Hkeep].
    assert (job' = job) as -> by congruence.
    destruct Hkeep as [?|[[? _]|[[?|?] _]]]; congruence.
  - intros rid' job' [_ Hkeep]%auto_cleanup_lookup.
    destruct Hkeep as [?|[[? _]|[[?|?] _]]]; auto.
Qed.

End StoreProperties.

(** ** The batch execution pipeline *)
Section BatchProperties.
Import Batch.
Context {regexp : JsRegExp}.
Local Open Scope js_scope.

(** *** Counters of [startScanExecution] *)

Lemma liftW_counters {A} (c : M World A) e :
  scannedCount (liftW c e).2 = scannedCount e
  ∧ failedCount (liftW c e).2 = failedCount e.
Proof. unfold liftW. by destruct (c (world e)). Qed.

Ltac step_lift :=
  match goal with
  | |- context [liftW ?c ?e] =>
      let Hs := fresh "Hs" in
      let Hf := fresh "Hf" in
      destruct (liftW_counters c e) as [Hs Hf];
      destruct (liftW c e) as [[?|?] ?]; simpl in Hs, Hf; simpl
  end.

(** The [try] block leaves [failedCount] alone; it adds one to
    [scannedCount] when it completes, and at most one when it throws. *)
Lemma tryBlock_counters historyId image e :
  let r := tryBlock historyId image e in
  failedCount r.2 = failedCount e
  ∧ match r.1 with
    | Ok _ => scannedCount r.2 = scannedCount e + 1
    | Throw _ => scannedCount r.2 = scannedCount e
                 ∨ scannedCount r.2 = scannedCount e + 1
    end.
Proof.
  unfold tryBlock, bind, gets, setScannedCount, modify. simpl.
  repeat (step_lift; [|split; [congruence|left; congruence]]).
  step_lift; (split; [congruence|]); [|right]; congruence.
Qed.

(** The [catch] block adds one to [failedCount] and leaves [scannedCount]
    alone, whether or not its own update goes through. *)
Lemma catchBlock_counters historyId image message e :
  let r := catchBlock historyId image message e in
  failedCount r.2 = failedCount e + 1 ∧ scannedCount r.2 = scannedCount e.
Proof.
  unfold catchBlock, bind, gets, setFailedCount, modify. simpl.
  match goal with
  | |- context [liftW ?c ?e] => destruct (liftW_counters c e) as [Hs Hf]
  end.
  simpl in Hs, Hf. split; congruence.
Qed.

(** After the loop each counter has grown by at most the number of
    images, and when the loop ran to its end every image was counted at
    least once. *)
Lemma forEachImage_counters historyId images e :
  let r := forEachImage historyId images e in
  scannedCount e ≤ scannedCount r.2 ≤ scannedCount e + Z.of_nat (length images)
  ∧ failedCount e ≤ failedCount r.2 ≤ failedCount e + Z.of_nat (length images)
  ∧ (r.1 = Ok tt →
     scannedCount e + failedCount e + Z.of_nat (length images)
     ≤ scannedCount r.2 + failedCount r.2).
Proof.
  revert e. induction images as [|image rest IH]; intros e.
  - simpl. split; [lia|]. split; [lia|]. intros _. lia.
  - cbn [forEachImage]. unfold bind, tryCatch.
    pose proof (tryBlock_counters historyId image e) as Htry.
    destruct (tryBlock historyId image e) as [[[]|message] e1]; simpl in Htry.
    + specialize (IH e1). cbn zeta in IH.
      destruct (forEachImage historyId rest e1) as [r e2]; simpl in *.
      rewrite Nat2Z.inj_succ. split; [lia|]. split; [lia|].
      intros Hr. destruct IH as (_ & _ & IH). specialize (IH Hr). lia.
    + pose proof (catchBlock_counters historyId image message e1) as Hcatch.
      destruct (catchBlock historyId image message e1) as [[[]|message'] e2];
        simpl in Hcatch.
      * specialize (IH e2). cbn zeta in IH.
        destruct (forEachImage historyId rest e2) as [r e3]; simpl in *.
        rewrite Nat2Z.inj_succ. split; [lia|]. split; [lia|].
        intros Hr. destruct IH as (_ & _ & IH). specialize (IH Hr). lia.
      * simpl. rewrite Nat2Z.inj_succ. split; [lia|]. split; [lia|]. discriminate.
Qed.

(** *** Store calls that go through *)

Lemma history_update_ok key f w w' :
  scheduledScanHistory_update key f w = (Ok tt, w') →
  ∃ h, histories (db w) !! key = Some h
       ∧ histories (db w') !! key = Some (f h).
Proof.
  unfold scheduledScanHistory_update, prisma, request, historyUpdate.
  destruct (head (faults w)) as [[message|]|]; [discriminate| |];
    (destruct (histories (db w) !! key) as [h|] eqn:Hh; [|discriminate]);
    intros [= <-]; exists h; (split; [done|]); simpl; apply lookup_insert_eq.
Qed.

Lemma liftW_ok {A} (c : M World A) e a e' :
  liftW c e = (Ok a, e') →
  c (world e) = (Ok a, world e')
  ∧ scannedCount e' = scannedCount e ∧ failedCount e' = failedCount e.
Proof.
  unfold liftW. destruct (c (world e)) as [r w]. intros [= -> <-]. done.
Qed.

(** A run of [startScanExecution] that returns has written, as its last
    act, the status computed from its counters. *)
Lemma execution_returns historyId images e0 e :
  execution historyId images e0 = (Ok tt, e) →
  0 ≤ scannedCount e ≤ Z.of_nat (length images)
  ∧ 0 ≤ failedCount e ≤ Z.of_nat (length images)
  ∧ Z.of_nat (length images) ≤ scannedCount e + failedCount e
  ∧ ∃ h, histories (db (world e)) !! historyId = Some h
         ∧ status h = finalStatus (failedCount e) (Z.of_nat (length images))
         ∧ scannedImages h = scannedCount e
         ∧ failedImages h = failedCount e
         ∧ is_Some (completedAt h).
Proof.
  unfold execution, bind, gets, setScannedCount, setFailedCount, modify.
  destruct (liftW _ e0) as [[[]|?] e1]; [|discriminate]. simpl.
  match goal with
  | |- context [forEachImage historyId images ?e] =>
      pose proof (forEachImage_counters historyId images e) as Hloop;
      destruct (forEachImage historyId images e) as [[[]|?] e2]; [|discriminate]
  end.
  simpl in Hloop. destruct Hloop as (Hs & Hf & Hsum). specialize (Hsum eq_refl).
  destruct (liftW newDate e2) as [[now|?] e3] eqn:Hdate; [|discriminate].
  unfold liftW, newDate, gets in Hdate. simpl in Hdate.
  injection Hdate as <- <-. simpl.
  intros Hlast. apply liftW_ok in Hlast as (Hlast & Hs' & Hf'). simpl in *.
  apply history_update_ok in Hlast as (h & _ & Hh).
  rewrite Hs', Hf'. split; [lia|]. split; [lia|]. split; [lia|].
  eexists. split; [exact Hh|]. simpl. eauto.
Qed.

(** *** The trigger *)

Lemma prisma_calm {A} (op : Db → Res A * Db) n w :
  calm (S n) w →
  prisma op w
  = ((op (db w)).1, elapse (setDb (op (db w)).2 (setFaults (tail (faults w)) w)))
  ∧ calm n (elapse (setDb (op (db w)).2 (setFaults (tail (faults w)) w))).
Proof.
  unfold calm, prisma, request. destruct (faults w) as [|f rest]; simpl.
  - intros _. destruct (op (db w)). simpl. split; [done|]. by rewrite take_nil.
  - intros Hc. apply Forall_cons in Hc as [-> Hc]. destruct (op (db w)). done.
Qed.

Lemma quiet_prisma {A} (op : Db → Res A * Db) : quiet (prisma op).
Proof.
  intros w. unfold prisma, request.
  destruct (head (faults w)) as [[?|]|]; simpl; try done; by destruct (op (db w)).
Qed.

Lemma quiet_selectImages s : quiet (selectImages s).
Proof.
  intros w. unfold selectImages, image_findMany, bind, ret, throw.
  destruct (imageSelectionMode s); simpl; try done.
  - destruct (imagePattern s) as [p|]; [|done].
    case_bool_decide; [done|]. destruct (compile p); [|done].
    pose proof (quiet_prisma (λ d, (Ok (images d), d)) w) as Hq.
    destruct (prisma _ w) as [[?|?] ?]; done.
  - pose proof (quiet_prisma (λ d, (Ok (images d), d)) w) as Hq.
    destruct (prisma _ w) as [[?|?] ?]; done.
Qed.

Ltac step_prisma :=
  match goal with
  | |- context [prisma ?op ?w] =>
      let H := fresh "Hq" in
      pose proof (quiet_prisma op w) as H;
      destruct (prisma op w) as [[?|?] ?]; simpl in *
  end.

(** The route starts no task before its call of [startScanExecution], and
    makes that call with at least one image. *)
Lemma prepare_background id w :
  background (prepare id w).2 = background w
  ∧ ∀ executionId history images,
      (prepare id w).1 = Ok (inr (executionId, history, images)) → images ≠ [].
Proof.
  unfold prepare, bind, scheduledScan_findUnique, ret.
  pose proof (quiet_prisma (λ d, (Ok (scheduledScans d !! id), d)) w) as Hq0.
  destruct (prisma _ w) as [[[s|]|?] w0]; simpl in *; [|done..].
  destruct (enabled s); simpl; [|done].
  pose proof (quiet_selectImages s w0) as Hq1.
  destruct (selectImages s w0) as [[[resp|images]|?] w1]; simpl in *;
    [split; [congruence|done]| |split; [congruence|done]].
  case_bool_decide as Hlen; simpl; [split; [congruence|done]|].
  unfold randomUUID, fresh, scheduledScanHistory_create.
  assert (images ≠ []) as Hne by (by destruct images).
  step_prisma; (split; [congruence|]); [|done].
  by intros ? ? ? [= _ _ <-].
Qed.

(** [POST] starts at most one task, and never one with no image. *)
Lemma POST_background id w :
  background (POST id w).2 = background w
  ∨ ∃ historyId images first,
      images ≠ []
      ∧ background (POST id w).2 = background w ++ [(historyId, images, first)].
Proof.
  destruct (prepare_background id w) as [Hbg Hne].
  unfold POST, tryCatch, bind, start, request, newDate, gets, scheduledScan_update,
    ret, consoleError, modify.
  destruct (prepare id w) as [[[resp|[[executionId history] images]]|?] w0];
    simpl in *; [by left| |by left].
  specialize (Hne _ _ _ eq_refl).
  destruct (head (faults w0)) as [[m|]|]; simpl; try destruct (historyUpdate _ _ _);
    simpl; step_prisma; right; eexists _, images, _; (split; [done|]);
    rewrite Hq, Hbg; reflexivity.
Qed.

Lemma resolved_selectImages s w images :
  calm 1 w → resolved (db w) s = Some images →
  (selectImages s w).1 = Ok (inr images)
  ∧ db (selectImages s w).2 = db w
  ∧ background (selectImages s w).2 = background w.
Proof.
  intros Hc. unfold resolved, selectImages, image_findMany, bind, ret.
  destruct (imageSelectionMode s); simpl.
  - intros [= <-]. done.
  - destruct (imagePattern s) as [p|]; [|intros [= <-]; done].
    case_bool_decide; [intros [= <-]; done|].
    destruct (compile p) as [test|]; [|discriminate]. simpl. intros [= <-].
    destruct (prisma_calm (λ d, (Ok (images d), d)) 0 w Hc) as [-> _]. done.
  - intros [= <-].
    destruct (prisma_calm (λ d, (Ok (images d), d)) 0 w Hc) as [-> _]. done.
  - discriminate.
Qed.

(** C6, as amended: when the schedule is found and the reads of the store
    go through, [POST] answers 400 "Scheduled scan is disabled" for a
    disabled schedule, 501 "Repository-based selection not yet
    implemented" for the [REPOSITORY] mode, and 400 "No images found to
    scan" when the selection resolves to no image ([PATTERN] without a
    match included); in the three cases the store is left as it was and
    no execution is started. *)
Theorem post_rejects_before_any_record id w s :
  scheduledScans (db w) !! id = Some s → calm 2 w →
  (enabled s = false →
   (POST id w).1 = Ok (json (ErrorBody "Scheduled scan is disabled") 400)
   ∧ db (POST id w).2 = db w ∧ background (POST id w).2 = background w)
  ∧ (enabled s = true → imageSelectionMode s = REPOSITORY →
     (POST id w).1
     = Ok (json (ErrorBody "Repository-based selection not yet implemented") 501)
     ∧ db (POST id w).2 = db w ∧ background (POST id w).2 = background w)
  ∧ (enabled s = true → resolved (db w) s = Some [] →
     (POST id w).1 = Ok (json (ErrorBody "No images found to scan") 400)
     ∧ db (POST id w).2 = db w ∧ background (POST id w).2 = background w).
Proof.
  intros Hs Hc. unfold POST, prepare, tryCatch, bind, scheduledScan_findUnique.
  destruct (prisma_calm (λ d, (Ok (scheduledScans d !! id), d)) 1 w Hc) as [-> Hc1].
  simpl in *. rewrite Hs. split; [|split].
  - intros ->. done.
  - intros -> Hmode. simpl. unfold selectImages. rewrite Hmode. done.
  - intros -> Hres. simpl.
    match goal with
    | |- context [selectImages s ?w1] =>
        destruct (resolved_selectImages s w1 [] Hc1 Hres) as (Hsel & Hdb & Hbg);
        destruct (selectImages s w1) as [r w2]
    end.
    simpl in *. subst r. done.
Qed.

(** *** The execution *)

Lemma finalStatus_cases failed total :
  0 ≤ failed ≤ total → 0 < total →
  (finalStatus failed total = FAILED ↔ failed = total)
  ∧ (finalStatus failed total = PARTIAL ↔ 0 < failed < total)
  ∧ (finalStatus failed total = COMPLETED ↔ failed = 0).
Proof.
  intros Hf Ht. unfold finalStatus.
  repeat case_bool_decide; (split; [|split]); split; intros; try done; lia.
Qed.




End BatchProperties.

(** ** The connection manager *)
Section SSEProperties.
Import SSE.

(** *** Methods in closed form *)

Lemma update_id rid f m :
  (∀ c, connections m !! rid = Some c → f c = c) → update rid f m = m.
Proof.
  intros Hf. unfold update, withConnections. destruct m as [cs ? ? ? ? ? ?].
  simpl in *. f_equal. apply map_eq. intros k.
  destruct (decide (k = rid)) as [->|Hne].
  - rewrite lookup_alter_eq. destruct (cs !! rid) as [c|] eqn:E; [|done].
    simpl. by rewrite Hf.
  - by rewrite lookup_alter_ne.
Qed.

Lemma withTimers_same m : withTimers (timers m) (nextTimer m) m = m.
Proof. by destruct m. Qed.

Lemma clearHeartbeatTimer_eq rid m :
  clearHeartbeatTimer rid m
  = update rid (setHeartbeatTimer None)
      (withTimers (cleared (connections m !! rid ≫= heartbeatTimer) (timers m))
                  (nextTimer m) m).
Proof.
  unfold clearHeartbeatTimer.
  destruct (connections m !! rid ≫= heartbeatTimer) as [tid|] eqn:E; [done|].
  simpl. rewrite withTimers_same. symmetry.
  apply update_id. intros c Hc. rewrite Hc in E. simpl in E.
  destruct c. simpl in *. by subst.
Qed.

Lemma clearReconnectTimer_eq rid m :
  clearReconnectTimer rid m
  = update rid (setReconnectTimer None)
      (withTimers (cleared (connections m !! rid ≫= reconnectTimer) (timers m))
                  (nextTimer m) m).
Proof.
  unfold clearReconnectTimer.
  destruct (connections m !! rid ≫= reconnectTimer) as [tid|] eqn:E; [done|].
  simpl. rewrite withTimers_same. symmetry.
  apply update_id. intros c Hc. rewrite Hc in E. simpl in E.
  destruct c. simpl in *. by subst.
Qed.

Ltac others :=
  intros; simpl; rewrite ?lookup_alter_ne, ?lookup_insert_ne, ?lookup_delete_ne by done;
  done.

(** The handler while retries remain. *)
Lemma handleConnectionError_retry now rid options m c :
  connections m !! rid = Some c →
  retryCount c < maxRetries options →
  let m' := handleConnectionError now rid options m in
  connections m' !! rid
  = Some {| requestId := requestId c; eventSource := None; status := reconnecting;
            retryCount := retryCount c + 1; heartbeatTimer := None;
            reconnectTimer := Some (nextTimer m); lastActivity := lastActivity c;
            identity := identity c |}
  ∧ timers m'
    = <[nextTimer m := {| setAt := now; delay := backoff options (retryCount c + 1);
                          action := Reconnect rid options |}]>
        (cleared (reconnectTimer c) (cleared (heartbeatTimer c) (timers m)))
  ∧ sources m' = closing (eventSource c) (sources m)
  ∧ ∀ rid', rid' ≠ rid → connections m' !! rid' = connections m !! rid'.
Proof.
  intros Hc Hlt. unfold handleConnectionError. rewrite Hc.
  rewrite bool_decide_eq_true_2 by done.
  rewrite clearReconnectTimer_eq, clearHeartbeatTimer_eq.
  unfold emitStatusChange.
  destruct c as [r es st rc hb rt la idn]. simpl in *.
  destruct es as [es|]; simpl; rewrite ?lookup_alter_eq, ?Hc; simpl;
    (split; [done|]); (split; [done|]); (split; [done|]); others.
Qed.

(** The handler once the retries are spent. *)
Lemma handleConnectionError_exhausted now rid options m c :
  connections m !! rid = Some c →
  ¬ retryCount c < maxRetries options →
  let m' := handleConnectionError now rid options m in
  connections m' !! rid
  = Some {| requestId := requestId c; eventSource := None; status := error;
            retryCount := retryCount c; heartbeatTimer := None;
            reconnectTimer := None; lastActivity := lastActivity c;
            identity := identity c |}
  ∧ timers m' = cleared (reconnectTimer c) (cleared (heartbeatTimer c) (timers m))
  ∧ sources m' = closing (eventSource c) (sources m)
  ∧ ∀ rid', rid' ≠ rid → connections m' !! rid' = connections m !! rid'.
Proof.
  intros Hc Hlt. unfold handleConnectionError. rewrite Hc.
  rewrite bool_decide_eq_false_2 by done.
  rewrite clearReconnectTimer_eq, clearHeartbeatTimer_eq.
  unfold emitStatusChange.
  destruct c as [r es st rc hb rt la idn]. simpl in *.
  destruct es as [es|]; simpl; rewrite ?lookup_alter_eq, ?Hc; simpl;
    (split; [done|]); (split; [done|]); (split; [done|]); others.
Qed.

Lemma establishConnection_constructed now rid options m c :
  connections m !! rid = Some c →
  let m' := establishConnection now rid options true m in
  connections m' !! rid
  = Some (setStatus connecting (setEventSource (Some (nextSource m)) c))
  ∧ timers m' = timers m
  ∧ sources m'
    = <[nextSource m := {| url := "/api/scans/events/" +:+ rid;
                           src_requestId := rid; src_options := options;
                           captured := identity c; closed := false |}]> (sources m)
  ∧ ∀ rid', rid' ≠ rid → connections m' !! rid' = connections m !! rid'.
Proof.
  intros Hc. unfold establishConnection, emitStatusChange. rewrite Hc. simpl.
  rewrite lookup_alter_eq, Hc. simpl. repeat (split; [done|]). others.
Qed.

(** *** Rounds of failure and retry *)

Lemma lookup_cleared field (t : gmap nat Timer) tid x :
  cleared field t !! tid = Some x → t !! tid = Some x.
Proof.
  destruct field as [k|]; simpl; [|done]. by intros [_ ?]%lookup_delete_Some.
Qed.

Lemma lookup_closing field (s : gmap nat Source) es x :
  closing field s !! es = Some x → closed x = false →
  s !! es = Some x ∧ field ≠ Some es.
Proof.
  destruct field as [k|]; simpl; [|done].
  destruct (decide (k = es)) as [->|Hne].
  - rewrite lookup_alter_eq. destruct (s !! es); simpl; [|done].
    intros [= <-]. done.
  - rewrite lookup_alter_ne by done. intros ? _. split; [done|congruence].
Qed.

Lemma transportFails_unfold now rid options m c es s :
  connections m !! rid = Some c → eventSource c = Some es →
  sources m !! es = Some s → closed s = false →
  src_requestId s = rid → src_options s = options →
  transportFails now rid m = handleConnectionError now rid options m.
Proof.
  intros Hc Hes Hs Hopen <- <-. unfold transportFails, react, onerror.
  rewrite Hc. simpl. by rewrite Hes, Hs, Hopen.
Qed.

Lemma transportFails_retry now rid options k m :
  attempting rid options k m → k < maxRetries options →
  waiting rid options (k + 1) (transportFails now rid m).
Proof.
  intros (c & es & s & Hc & Hk & Hst & Hes & Hhb & Hs & Hopen & Hrid & Hopts
          & Hnt & Honly) Hlt.
  rewrite (transportFails_unfold now rid options m c es s) by done.
  destruct (handleConnectionError_retry now rid options m c Hc) as (Hc' & Ht & Hsrc & _);
    [lia|].
  eexists _, (nextTimer m), _. split; [exact Hc'|]. simpl.
  unfold noSource. rewrite Ht, Hsrc, Hk. repeat (split; [done|]).
  split; [apply lookup_insert_eq|]. repeat (split; [done|]). split.
  - intros es' s' Hs' Hopen' Hrid'.
    apply lookup_closing in Hs' as [Hs' Hne]; [|done].
    rewrite Hes in Hne. apply Hne. f_equal. symmetry. by eapply Honly.
  - intros tid' t' Ht' Htarget.
    destruct (decide (tid' = nextTimer m)) as [->|Hne]; [done|].
    rewrite lookup_insert_ne in Ht' by done.
    do 2 apply lookup_cleared in Ht'. by destruct (Hnt _ _ Ht').
Qed.

Lemma transportFails_exhausted now rid options k m :
  attempting rid options k m → ¬ k < maxRetries options →
  getConnectionStatus rid (transportFails now rid m) = Some error
  ∧ givenUp rid (transportFails now rid m).
Proof.
  intros (c & es & s & Hc & Hk & Hst & Hes & Hhb & Hs & Hopen & Hrid & Hopts
          & Hnt & Honly) Hlt.
  rewrite (transportFails_unfold now rid options m c es s) by done.
  destruct (handleConnectionError_exhausted now rid options m c Hc)
    as (Hc' & Ht & Hsrc & _); [lia|].
  unfold getConnectionStatus, givenUp, idle, noTimer, noSource.
  rewrite Hc', Ht, Hsrc. simpl. split; [done|]. split; [split|].
  - intros tid t Ht'. do 2 apply lookup_cleared in Ht'. by eapply Hnt.
  - intros es' s' Hs' Hopen' Hrid'.
    apply lookup_closing in Hs' as [Hs' Hne]; [|done].
    rewrite Hes in Hne. apply Hne. f_equal. symmetry. by eapply Honly.
  - by intros c0 [= <-].
Qed.

Lemma retryComesDue_attempts now rid options k m :
  waiting rid options k m → attempting rid options k (retryComesDue now rid m).
Proof.
  intros (c & tid & t & Hc & Hk & Hst & Hes & Hhb & Hrt & Ht & Hact & Hdelay
          & Hns & Honly).
  unfold retryComesDue, react. rewrite Hc. simpl. rewrite Hrt, Ht, Hact.
  destruct (establishConnection_constructed now rid options (clearTimeout tid m) c)
    as (Hc' & Ht' & Hs' & _); [done|].
  eexists _, (nextSource m), _. split; [exact Hc'|]. simpl.
  unfold noTimer. rewrite Ht', Hs'. simpl. repeat (split; [done|]).
  split; [apply lookup_insert_eq|]. repeat (split; [done|]). split.
  - intros tid' t' [Hne Hin]%lookup_delete_Some Htarget.
    apply Hne. symmetry. by eapply Honly.
  - intros es' s' Hin Hopen Hrid.
    destruct (decide (es' = nextSource m)) as [->|Hne]; [done|].
    rewrite lookup_insert_ne in Hin by done. by destruct (Hns _ _ Hin).
Qed.

Lemma connect_attempts now rid o m :
  idle rid m → getConnectionStatus rid m ≠ Some connected →
  let m0 := (connect now rid o true m).2 in
  attempting rid (merge defaults o) 0 m0
  ∧ connections m0 !! rid ≫= reconnectTimer = None.
Proof.
  intros [Hnt Hns] Hst. unfold connect.
  rewrite bool_decide_eq_false_2 by done. simpl.
  match goal with
  | |- context [establishConnection now rid ?opts true ?m1] =>
      destruct (establishConnection_constructed now rid opts m1
                  {| requestId := rid; eventSource := None; status := connecting;
                     retryCount := 0; heartbeatTimer := None; reconnectTimer := None;
                     lastActivity := now; identity := nextIdentity m |})
        as (Hc' & Ht' & Hs' & _); [simpl; apply lookup_insert_eq|]
  end.
  split.
  - eexists _, (nextSource m), _. split; [exact Hc'|]. simpl.
    unfold noTimer. rewrite Hs'. simpl. repeat (split; [done|]).
    split; [apply lookup_insert_eq|]. repeat (split; [done|]). split.
    + intros tid t Hin. rewrite Ht' in Hin. by eapply Hnt.
    + intros es' s' Hin Hopen Hrid.
      destruct (decide (es' = nextSource m)) as [->|Hne]; [done|].
      rewrite lookup_insert_ne in Hin by done. by destruct (Hns _ _ Hin).
  - by rewrite Hc'.
Qed.

Lemma retryComesDue_nothing now rid m :
  connections m !! rid ≫= reconnectTimer = None → retryComesDue now rid m = m.
Proof. unfold retryComesDue. by intros ->. Qed.

(** After [k] failures, [1 ≤ k ≤ maxRetries], the [k]-th retry is
    scheduled. *)
Lemma failures_waiting clock now rid o m (k : nat) :
  idle rid m → getConnectionStatus rid m ≠ Some connected →
  (1 ≤ k)%nat → Z.of_nat k ≤ maxRetries (merge defaults o) →
  waiting rid (merge defaults o) (Z.of_nat k)
          (failures clock rid k (connect now rid o true m).2).
Proof.
  intros Hidle Hst Hk. destruct k as [|k]; [lia|]. clear Hk.
  destruct (connect_attempts now rid o m Hidle Hst) as [Hatt Hrt].
  induction k as [|k IH]; intros Hle.
  - simpl. rewrite retryComesDue_nothing by done.
    apply (transportFails_retry _ _ _ 0); [done|lia].
  - cbn [failures]. cbn [failures] in IH.
    replace (Z.of_nat (S (S k))) with (Z.of_nat (S k) + 1) by lia.
    apply transportFails_retry; [|lia].
    apply retryComesDue_attempts. apply IH. lia.
Qed.
End SSEProperties.

Section SSEFrames.
Import SSE.

(** *** Work done for one connection leaves the others alone *)

Lemma workFor_refl rid m : workFor rid m m.
Proof. unfold workFor. auto. Qed.

Lemma workFor_step rid m x x' :
  workFor rid x x' → workFor rid m x → workFor rid m x'.
Proof.
  intros (Ht' & Hs' & Hc') (Ht & Hs & Hc). split; [|split].
  - intros tid t Hin. destruct (Ht' _ _ Hin) as [Hold|?]; [|by right]. eauto.
  - intros es s Hin Hopen. destruct (Hs' _ _ Hin Hopen) as [Hold|?]; [|by right]. eauto.
  - intros rid' Hne. rewrite Hc' by done. auto.
Qed.

Lemma workFor_update rid f m x :
  workFor rid m x → workFor rid m (update rid f x).
Proof.
  apply workFor_step. split; [|split]; simpl; auto.
  intros rid' Hne. by rewrite lookup_alter_ne.
Qed.

Lemma workFor_emit rid e m x : workFor rid m x → workFor rid m (emit e x).
Proof. apply workFor_step. split; [|split]; simpl; auto. Qed.

Lemma workFor_clearTimeout rid tid m x :
  workFor rid m x → workFor rid m (clearTimeout tid x).
Proof.
  apply workFor_step. split; [|split]; simpl; auto.
  intros tid' t [_ ?]%lookup_delete_Some. by left.
Qed.

Lemma workFor_close rid es m x : workFor rid m x → workFor rid m (close es x).
Proof.
  apply workFor_step. split; [|split]; simpl; auto.
  intros es' s Hin Hopen. left.
  by apply (lookup_closing (Some es)) in Hin as [? _].
Qed.

Lemma workFor_setTimeout rid now ms a m x :
  target a = rid → workFor rid m x → workFor rid m (setTimeout now ms a x).2.
Proof.
  intros Ha. apply workFor_step. split; [|split]; simpl; auto.
  intros tid t Hin. destruct (decide (tid = nextTimer x)) as [->|Hne].
  - rewrite lookup_insert_eq in Hin. injection Hin as <-. by right.
  - rewrite lookup_insert_ne in Hin by done. by left.
Qed.

Lemma workFor_forget rid m x :
  workFor rid m x → workFor rid m (withConnections (delete rid (connections x)) x).
Proof.
  apply workFor_step. split; [|split]; simpl; auto.
  intros rid' Hne. by rewrite lookup_delete_ne.
Qed.

Lemma workFor_clearHeartbeatTimer rid m x :
  workFor rid m x → workFor rid m (clearHeartbeatTimer rid x).
Proof.
  intros H. unfold clearHeartbeatTimer.
  destruct (connections x !! rid ≫= heartbeatTimer); [|done].
  by apply workFor_update, workFor_clearTimeout.
Qed.

Lemma workFor_clearReconnectTimer rid m x :
  workFor rid m x → workFor rid m (clearReconnectTimer rid x).
Proof.
  intros H. unfold clearReconnectTimer.
  destruct (connections x !! rid ≫= reconnectTimer); [|done].
  by apply workFor_update, workFor_clearTimeout.
Qed.

Lemma workFor_startHeartbeatTimer rid now ms m x :
  workFor rid m x → workFor rid m (startHeartbeatTimer now rid ms x).
Proof.
  intros H. unfold startHeartbeatTimer.
  destruct (connections x !! rid); [|done].
  apply workFor_update, workFor_setTimeout; [done|].
  by apply workFor_clearHeartbeatTimer.
Qed.

Lemma workFor_handleConnectionError rid now options m x :
  workFor rid m x → workFor rid m (handleConnectionError now rid options x).
Proof.
  intros H. unfold handleConnectionError, emitStatusChange.
  destruct (connections x !! rid) as [c|]; [|done].
  assert (workFor rid m
            match eventSource c with
            | Some es => update rid (setEventSource None) (close es x)
            | None => x
            end) as H1.
  { destruct (eventSource c); [|done]. by apply workFor_update, workFor_close. }
  case_bool_decide.
  - apply workFor_update, workFor_setTimeout; [done|].
    by apply workFor_emit, workFor_update, workFor_clearReconnectTimer,
       workFor_clearHeartbeatTimer.
  - by apply workFor_emit, workFor_emit, workFor_update, workFor_clearReconnectTimer,
       workFor_clearHeartbeatTimer.
Qed.

Lemma workFor_establishConnection rid now options constructed m x :
  workFor rid m x → workFor rid m (establishConnection now rid options constructed x).
Proof.
  intros H. unfold establishConnection, emitStatusChange.
  destruct (connections x !! rid) as [c|]; [|done].
  destruct constructed; [|by apply workFor_handleConnectionError].
  apply workFor_emit, workFor_update. revert H.
  apply workFor_step. split; [|split]; simpl; auto.
  intros es s Hin Hopen. destruct (decide (es = nextSource x)) as [->|Hne].
  - rewrite lookup_insert_eq in Hin. injection Hin as <-. by right.
  - rewrite lookup_insert_ne in Hin by done. by left.
Qed.

Lemma workFor_disconnect rid m x :
  workFor rid m x → workFor rid m (disconnect rid x).
Proof.
  intros H. unfold disconnect, emitStatusChange.
  destruct (connections x !! rid) as [c|]; [|done].
  apply workFor_emit, workFor_forget, workFor_clearReconnectTimer,
    workFor_clearHeartbeatTimer.
  destruct (eventSource c); [|done]. by apply workFor_update, workFor_close.
Qed.

Lemma workFor_react_source now e es s m :
  sources m !! es = Some s → closed s = false →
  e = Opened es ∨ (∃ data, e = Received es data) ∨ e = Failed es →
  workFor (src_requestId s) m (react now e m).
Proof.
  intros Hs Hopen [->|[[data ->]| ->]]; simpl; rewrite Hs, Hopen.
  - unfold onopen, updateCaptured, emitStatusChange.
    apply workFor_startHeartbeatTimer, workFor_emit, workFor_update, workFor_refl.
  - unfold onmessage, updateCaptured, resetHeartbeatTimer.
    destruct data; try apply workFor_update, workFor_refl.
    + case_match; [apply workFor_emit|]; apply workFor_update, workFor_refl.
    + apply workFor_startHeartbeatTimer, workFor_clearHeartbeatTimer,
        workFor_update, workFor_refl.
  - apply workFor_handleConnectionError, workFor_refl.
Qed.

Lemma workFor_react_timer now tid constructed t m :
  timers m !! tid = Some t →
  workFor (target (action t)) m (react now (Elapsed tid constructed) m).
Proof.
  intros Ht. simpl. rewrite Ht. destruct (action t); simpl.
  - apply workFor_establishConnection, workFor_clearTimeout, workFor_refl.
  - apply workFor_handleConnectionError, workFor_clearTimeout, workFor_refl.
Qed.

(** *** A connection that has given up stays so *)

Lemma givenUp_workFor rid rid' m m' :
  rid' ≠ rid → workFor rid' m m' → givenUp rid m → givenUp rid m'.
Proof.
  intros Hne (Ht & Hs & Hc) [[Hnt Hns] Herr]. split; [split|].
  - intros tid t Hin. destruct (Ht _ _ Hin) as [Hold|Hnew]; [by eapply Hnt|congruence].
  - intros es s Hin Hopen.
    destruct (Hs _ _ Hin Hopen) as [Hold|Hnew]; [by eapply Hns|congruence].
  - intros c. rewrite Hc by done. apply Herr.
Qed.

Lemma disconnect_forgets rid m : connections (disconnect rid m) !! rid = None.
Proof.
  unfold disconnect, emitStatusChange.
  destruct (connections m !! rid) as [c|] eqn:E; [|done].
  simpl. apply lookup_delete_eq.
Qed.

Lemma quieter_step m x x' : quieter x x' → quieter m x → quieter m x'.
Proof. intros [Ht' Hs'] [Ht Hs]. split; eauto. Qed.

Lemma quieter_update rid f m x : quieter m x → quieter m (update rid f x).
Proof. apply quieter_step. split; simpl; auto. Qed.

Lemma quieter_clearTimeout tid m x : quieter m x → quieter m (clearTimeout tid x).
Proof.
  apply quieter_step. split; simpl; auto.
  by intros tid' t [_ ?]%lookup_delete_Some.
Qed.

Lemma quieter_close es m x : quieter m x → quieter m (close es x).
Proof.
  apply quieter_step. split; simpl; auto.
  intros es' s Hin Hopen. by apply (lookup_closing (Some es)) in Hin as [? _].
Qed.

Lemma quieter_disconnect rid m : quieter m (disconnect rid m).
Proof.
  unfold disconnect, emitStatusChange.
  destruct (connections m !! rid) as [c|]; [|by split].
  match goal with
  | |- quieter m (emit _ (withConnections _ ?x)) =>
      cut (quieter m x); [apply quieter_step; split; simpl; auto|]
  end.
  assert (quieter m
            match eventSource c with
            | Some es => update rid (setEventSource None) (close es m)
            | None => m
            end) as H1.
  { destruct (eventSource c); [|by split].
    apply quieter_update, quieter_close. by split. }
  unfold clearReconnectTimer, clearHeartbeatTimer.
  repeat match goal with
         | |- quieter m (match ?o with Some _ => _ | None => _ end) => destruct o
         | |- quieter m (update _ _ _) => apply quieter_update
         | |- quieter m (clearTimeout _ _) => apply quieter_clearTimeout
         end; exact H1.
Qed.

Lemma givenUp_disconnect rid rid' m :
  givenUp rid m → givenUp rid (disconnect rid' m).
Proof.
  intros Hg. destruct (decide (rid' = rid)) as [->|Hne].
  - destruct (quieter_disconnect rid m) as [Ht Hs].
    destruct Hg as [[Hnt Hns] _]. split; [split|].
    + intros tid t Hin. eapply Hnt, Ht, Hin.
    + intros es s Hin Hopen. eapply Hns; [exact (Hs _ _ Hin Hopen)|exact Hopen].
    + intros c. by rewrite disconnect_forgets.
  - eapply givenUp_workFor; [exact Hne| |exact Hg].
    apply workFor_disconnect, workFor_refl.
Qed.

Lemma givenUp_cleanup rid now m : givenUp rid m → givenUp rid (cleanup now m).
Proof.
  intros Hg. unfold cleanup.
  apply (map_fold_weak_ind (λ acc _, givenUp rid acc)); [done|].
  intros rid' c cs acc _ Hacc. case_match; [|done]. by apply givenUp_disconnect.
Qed.

Lemma givenUp_react rid now e m : givenUp rid m → givenUp rid (react now e m).
Proof.
  intros Hg. pose proof Hg as [[Hnt Hns] _].
  destruct e as [es|es data|es|tid constructed|].
  1-3: destruct (sources m !! es) as [s|] eqn:Hs; [|by simpl; rewrite Hs];
       destruct (closed s) eqn:Hopen; [by simpl; rewrite Hs, Hopen|];
       eapply (givenUp_workFor rid (src_requestId s)); [by eapply Hns| |exact Hg];
       eapply workFor_react_source; eauto.
  - destruct (timers m !! tid) as [t|] eqn:Ht; [|by simpl; rewrite Ht].
    eapply (givenUp_workFor rid (target (action t))); [by eapply Hnt| |exact Hg].
    by apply workFor_react_timer.
  - by apply givenUp_cleanup.
Qed.

Lemma givenUp_run rid trace m : givenUp rid m → givenUp rid (run trace m).
Proof.
  revert m. induction trace as [|[now e] trace IH]; intros m Hg; [done|].
  simpl. apply IH. by apply givenUp_react.
Qed.
End SSEFrames.

Section SSEClaims.
Import SSE.

(** C4, as amended: from a connect on a request with nothing pending,
    the [k]-th failure in a row, [1 ≤ k ≤ maxRetries], leaves the status
    [reconnecting], the counter at [k], and retry [k] scheduled with delay
    [min(retryInterval * 2^(k-1), 30000)]; it is the failure after these,
    the [maxRetries + 1]-th, that leaves the status [error], and from then
    on nothing the event loop delivers brings a timer or an open
    [EventSource] back for that request. *)
Theorem retries_then_error now clock rid o m :
  idle rid m →
  getConnectionStatus rid m ≠ Some connected →
  let options := merge defaults o in
  let after k := failures clock rid k (connect now rid o true m).2 in
  (∀ k : nat, (1 ≤ k)%nat → Z.of_nat k ≤ maxRetries options →
     ∃ c tid t,
       connections (after k) !! rid = Some c
       ∧ status c = reconnecting
       ∧ retryCount c = Z.of_nat k
       ∧ reconnectTimer c = Some tid
       ∧ timers (after k) !! tid = Some t
       ∧ action t = Reconnect rid options
       ∧ delay t = Z.min (retryInterval options * 2 ^ (Z.of_nat k - 1)) 30000)
  ∧ getConnectionStatus rid (after (S (Z.to_nat (maxRetries options)))) = Some error
  ∧ ∀ trace, givenUp rid (run trace (after (S (Z.to_nat (maxRetries options))))).
Proof.
  intros Hidle Hst options after.
  assert (getConnectionStatus rid (after (S (Z.to_nat (maxRetries options)))) = Some error
          ∧ givenUp rid (after (S (Z.to_nat (maxRetries options))))) as [Herr Hgone].
  { subst after. cbn [failures].
    destruct (Z.to_nat (maxRetries options)) as [|n] eqn:Hn.
    - destruct (connect_attempts now rid o m Hidle Hst) as [Hatt Hrt].
      simpl. rewrite retryComesDue_nothing by done.
      apply (transportFails_exhausted _ _ options 0); [done|]. subst options. lia.
    - apply (transportFails_exhausted _ _ options (Z.of_nat (S n))); [|lia].
      apply retryComesDue_attempts.
      apply failures_waiting; [done..|lia|]. subst options. lia. }
  split; [|split; [exact Herr|]].
  - intros k Hk Hle.
    destruct (failures_waiting clock now rid o m k Hidle Hst Hk Hle)
      as (c & tid & t & Hc & Hrc & Hstatus & _ & _ & Hrt & Ht & Hact & Hdelay & _).
    exists c, tid, t. done.
  - intros trace. by apply givenUp_run.
Qed.

(** C9: on a request whose status is [connected], [connect] returns
    [true] and leaves the manager as it is, sources included, the first
    time and the second. *)
Theorem connect_is_idempotent_when_connected now now' rid o o' b b' m :
  getConnectionStatus rid m = Some connected →
  connect now rid o b m = (true, m)
  ∧ connect now' rid o' b' (connect now rid o b m).2 = (true, m).
Proof.
  intros Hst. unfold getConnectionStatus in Hst.
  assert (∀ t x y, connect t rid x y m = (true, m)) as Hsame.
  { intros t x y. unfold connect. by rewrite bool_decide_eq_true_2. }
  by rewrite !Hsame.
Qed.
End SSEClaims.

(** ** The completion monitor *)
Section MonitorProperties.
Import Store Monitor.




End MonitorProperties.

Section MonitorRuntime.
Import Store Monitor.

Lemma disconnect_other rid rid' m :
  rid' ≠ rid →
  SSE.connections (SSE.disconnect rid' m) !! rid = SSE.connections m !! rid.
Proof.
  intros Hne.
  destruct (workFor_disconnect rid' m m (workFor_refl _ _)) as (_ & _ & Hc).
  apply Hc. congruence.
Qed.








End MonitorRuntime.

(** ** More on the job state store *)
Section StoreMore.
Import Store Invariants.
Context {date : JsDate}.

Lemma set_jobs_lookup (payload : list ScanJob) (acc : gmap string ScanJob) rid :
  foldl (λ m job, <[requestId job := job]> m) acc payload !! rid
  = match last (filter (λ j, requestId j = rid) payload) with
    | Some job => Some job
    | None => acc !! rid
    end.
Proof.
  revert acc. induction payload as [|job rest IH]; intros acc; [done|].
  simpl. rewrite IH. destruct (decide (requestId job = rid)) as [Heq|Hne].
  - rewrite filter_cons_True by done. rewrite last_cons.
    destruct (last (filter _ rest)); [done|]. by rewrite <- Heq, lookup_insert_eq.
  - rewrite filter_cons_False by done.
    destruct (last (filter _ rest)); [done|]. by rewrite lookup_insert_ne.
Qed.

(** X1: after [SET_JOBS] the job map holds, under each request id, the last
    job of the payload that carries this id, and nothing under an id the
    payload does not mention: the entries of the old map are all dropped,
    and of two payload jobs with one id the later wins. *)
Theorem set_jobs_last_wins now st payload rid :
  jobs (scanningReducer now st (SET_JOBS payload)) !! rid
  = last (filter (λ j, requestId j = rid) payload).
Proof.
  simpl. rewrite set_jobs_lookup, lookup_empty. by destruct (last _).
Qed.

Lemma clear_lookup (m : gmap string ScanJob) rid :
  map_fold (λ requestId job activeJobs,
              if bool_decide (status job = RUNNING)
              then <[requestId := job]> activeJobs else activeJobs)
           (∅ : gmap string ScanJob) m !! rid
  = m !! rid ≫= λ job, if bool_decide (status job = RUNNING) then Some job else None.
Proof.
  revert rid.
  apply (map_fold_weak_ind
           (λ acc m, ∀ rid, acc !! rid
              = m !! rid ≫= λ job, if bool_decide (status job = RUNNING)
                                   then Some job else None)).
  - intros rid. by rewrite !lookup_empty.
  - intros k job m' acc Hfresh IH rid.
    destruct (decide (k = rid)) as [->|Hne].
    + rewrite lookup_insert_eq. simpl. case_bool_decide.
      * by rewrite lookup_insert_eq.
      * by rewrite IH, Hfresh.
    + rewrite (lookup_insert_ne m') by done.
      case_bool_decide; [rewrite lookup_insert_ne by done|]; apply IH.
Qed.

Lemma clear_completed_lookup now st rid job :
  jobs (scanningReducer now st CLEAR_COMPLETED_JOBS) !! rid = Some job
  ↔ jobs st !! rid = Some job ∧ status job = RUNNING.
Proof.
  simpl. rewrite clear_lookup. destruct (jobs st !! rid) as [j|]; simpl.
  - case_bool_decide; split.
    + by intros [= <-].
    + by intros [[= <-] _].
    + discriminate.
    + intros [[= <-] ?]. done.
  - split; [discriminate|]. by intros [? _].
Qed.

(** X2: no action breaks the keying of the job map: when every entry sits
    under the request id of its job, the same holds of the next state. *)
Theorem reducer_keeps_keys now st action :
  keyed (jobs st) →
  keyed (jobs (scanningReducer now st action)).
Proof.
  intros Hk rid job. destruct action as [ev|p|r|l|l| | |b]; simpl.
  - destruct (decide (ev_requestId ev = rid)) as [<-|Hne].
    + rewrite lookup_insert_eq. by intros [= <-].
    + rewrite lookup_insert_ne by done. apply Hk.
  - destruct (decide (new_requestId p = rid)) as [<-|Hne].
    + rewrite lookup_insert_eq. by intros [= <-].
    + rewrite lookup_insert_ne by done. apply Hk.
  - intros [_ ?]%lookup_delete_Some. by apply Hk.
  - rewrite set_jobs_lookup, lookup_empty.
    destruct (last _) as [j|] eqn:E; [|done]. intros [= <-].
    apply last_Some_elem_of, list_elem_of_filter in E. by destruct E.
  - apply Hk.
  - rewrite clear_lookup. destruct (jobs st !! rid) as [j|] eqn:E; simpl; [|done].
    case_bool_decide; [|done]. intros [= <-]. by apply Hk.
  - rewrite cleanup_lookup. destruct (jobs st !! rid) as [j|] eqn:E; simpl; [|done].
    destruct (retainedb now j); [|done]. intros [= <-]. by apply Hk.
  - apply Hk.
Qed.

Lemma retainedb_earlier t1 t2 job :
  t1 ≤ t2 → retainedb t2 job = true → retainedb t1 job = true.
Proof.
  intros Hle. unfold retainedb, elapsedBelow.
  destruct (status job); try done; destruct (getTime (lastUpdate job)); try done;
    rewrite !bool_decide_eq_true; lia.
Qed.

(** X3: a cleanup absorbs every earlier one: running [AUTO_CLEANUP] at
    [t1] and again at a later [t2] leaves the same jobs as running it once
    at [t2]. *)
Theorem auto_cleanup_absorbs_earlier t1 t2 st :
  t1 ≤ t2 →
  jobs (scanningReducer t2 (scanningReducer t1 st AUTO_CLEANUP) AUTO_CLEANUP)
  = jobs (scanningReducer t2 st AUTO_CLEANUP).
Proof.
  intros Hle. apply map_eq. intros rid. simpl. rewrite !cleanup_lookup.
  destruct (jobs st !! rid) as [job|]; simpl; [|done].
  destruct (retainedb t2 job) eqn:E2.
  - rewrite (retainedb_earlier t1 t2) by done. simpl. by rewrite E2.
  - destruct (retainedb t1 job); simpl; [by rewrite E2|done].
Qed.

(** X4: [CLEAR_COMPLETED_JOBS] keeps nothing that [AUTO_CLEANUP] would
    drop: clearing after a cleanup is clearing alone, and a cleanup or a
    second clearing after a clearing changes nothing. *)
Theorem clear_completed_absorbs_cleanup now now' st :
  jobs (scanningReducer now' (scanningReducer now st AUTO_CLEANUP) CLEAR_COMPLETED_JOBS)
  = jobs (scanningReducer now' st CLEAR_COMPLETED_JOBS)
  ∧ jobs (scanningReducer now' (scanningReducer now st CLEAR_COMPLETED_JOBS) AUTO_CLEANUP)
    = jobs (scanningReducer now st CLEAR_COMPLETED_JOBS)
  ∧ jobs (scanningReducer now' (scanningReducer now st CLEAR_COMPLETED_JOBS)
            CLEAR_COMPLETED_JOBS)
    = jobs (scanningReducer now st CLEAR_COMPLETED_JOBS).
Proof.
  repeat split; apply map_eq; intros rid; simpl;
    rewrite ?clear_lookup, ?cleanup_lookup, ?clear_lookup;
    destruct (jobs st !! rid) as [job|]; simpl; try done.
  - unfold retainedb. destruct (status job) eqn:E; simpl; rewrite ?E; try done;
      destruct (elapsedBelow _ _ _); simpl; rewrite ?E; done.
  - case_bool_decide as E; simpl; [|done]. unfold retainedb. by rewrite E.
  - case_bool_decide as E; simpl; [|done]. by rewrite bool_decide_eq_true_2.
Qed.

(** X5: [UPDATE_SCAN_PROGRESS] touches the entry of the event's request id
    alone.  Over an existing job it keeps [imageId], [imageName] and a
    non-empty [startTime], and drops [queuePosition] and
    [estimatedWaitTime]; for an unknown id it creates a job with an empty
    [imageId], no [imageName] and the event's timestamp as [startTime].
    The queued scans, the fetch time and the polling flag stay. *)
Theorem update_scan_progress_merges now st ev :
  let st' := scanningReducer now st (UPDATE_SCAN_PROGRESS ev) in
  (∀ rid, rid ≠ ev_requestId ev → jobs st' !! rid = jobs st !! rid)
  ∧ (∀ old, jobs st !! ev_requestId ev = Some old →
       ∃ job, jobs st' !! ev_requestId ev = Some job
              ∧ imageId job = imageId old
              ∧ imageName job = imageName old
              ∧ startTime job = (if bool_decide (startTime old = "")
                                 then ev_timestamp ev else startTime old)
              ∧ queuePosition job = None ∧ estimatedWaitTime job = None)
  ∧ (jobs st !! ev_requestId ev = None →
       ∃ job, jobs st' !! ev_requestId ev = Some job
              ∧ imageId job = "" ∧ imageName job = None
              ∧ startTime job = ev_timestamp ev)
  ∧ queuedScans st' = queuedScans st
  ∧ lastFetchTime st' = lastFetchTime st
  ∧ isPolling st' = isPolling st.
Proof.
  simpl. split; [|split; [|split]].
  - intros rid Hne. by rewrite lookup_insert_ne.
  - intros old Hold. eexists. split; [apply lookup_insert_eq|].
    rewrite Hold. simpl. unfold orElse. repeat split.
    by case_bool_decide.
  - intros Hnone. eexists. split; [apply lookup_insert_eq|].
    rewrite Hnone. done.
  - done.
Qed.
End StoreMore.

(** ** More on the connection manager *)
Section SSEMore.
Import SSE.

(** [disconnect] in closed form. *)
Lemma disconnect_known rid m c :
  connections m !! rid = Some c →
  connections (disconnect rid m) = delete rid (connections m)
  ∧ timers (disconnect rid m)
    = cleared (reconnectTimer c) (cleared (heartbeatTimer c) (timers m))
  ∧ sources (disconnect rid m) = closing (eventSource c) (sources m)
  ∧ emitted (disconnect rid m) = emitted m ++ [StatusChange rid disconnected]
  ∧ nextSource (disconnect rid m) = nextSource m
  ∧ nextTimer (disconnect rid m) = nextTimer m.
Proof.
  intros Hc. unfold disconnect. rewrite Hc.
  rewrite clearReconnectTimer_eq, clearHeartbeatTimer_eq. unfold emitStatusChange.
  destruct c as [r es st rc hb rt la idn]. simpl in *.
  destruct es as [es|]; simpl; rewrite ?lookup_alter_eq, ?Hc; simpl;
    (split; [|done]); apply map_eq; intros k;
    (destruct (decide (k = rid)) as [->|Hne];
     [by rewrite !lookup_delete_eq
     |by rewrite !lookup_delete_ne, ?lookup_alter_ne by done]).
Qed.

Lemma disconnect_unknown rid m : connections m !! rid = None → disconnect rid m = m.
Proof. unfold disconnect. by intros ->. Qed.

(** X6: [disconnect] of a known id removes its entry and no other, closes
    its [EventSource] and no other, clears its two timers and sets none,
    emits one [disconnected] status change, and a second [disconnect] of
    the same id does nothing. *)
Theorem disconnect_releases rid m c :
  connections m !! rid = Some c →
  let m' := disconnect rid m in
  getConnectionStatus rid m' = None
  ∧ (∀ rid', rid' ≠ rid → connections m' !! rid' = connections m !! rid')
  ∧ (∀ es s, eventSource c = Some es → sources m !! es = Some s →
             sources m' !! es = Some (shut s))
  ∧ (∀ es, eventSource c ≠ Some es → sources m' !! es = sources m !! es)
  ∧ (∀ tid, heartbeatTimer c = Some tid ∨ reconnectTimer c = Some tid →
            timers m' !! tid = None)
  ∧ (∀ tid t, timers m' !! tid = Some t → timers m !! tid = Some t)
  ∧ emitted m' = emitted m ++ [StatusChange rid disconnected]
  ∧ disconnect rid m' = m'.
Proof.
  intros Hc m'. subst m'.
  destruct (disconnect_known rid m c Hc) as (Hcs & Hts & Hss & Hem & _ & _).
  unfold getConnectionStatus. rewrite Hcs, Hts, Hss, Hem.
  split; [by rewrite lookup_delete_eq|]. split.
  { intros rid' Hne. by rewrite lookup_delete_ne. }
  split.
  { intros es s -> Hs. simpl. by rewrite lookup_alter_eq, Hs. }
  split.
  { intros es Hne. destruct (eventSource c) as [es'|]; simpl; [|done].
    rewrite lookup_alter_ne; [done|congruence]. }
  split.
  { intros tid [-> | ->]; simpl.
    - destruct (reconnectTimer c) as [k|]; simpl.
      + destruct (decide (k = tid)) as [->|Hne]; [apply lookup_delete_eq|].
        rewrite lookup_delete_ne by done. apply lookup_delete_eq.
      + apply lookup_delete_eq.
    - apply lookup_delete_eq. }
  split.
  { intros tid t Ht. by do 2 apply lookup_cleared in Ht. }
  split; [done|].
  apply disconnect_unknown. rewrite Hcs. apply lookup_delete_eq.
Qed.

(** X7: [disconnectAll] leaves the connection table empty. *)
Theorem disconnectAll_empties m : connections (disconnectAll m) = ∅.
Proof.
  apply map_eq. intros rid. rewrite lookup_empty. unfold disconnectAll.
  assert (∀ cs : gmap string ManagedConnection,
            ∀ rid, connections (map_fold (λ rid _ acc, disconnect rid acc) m cs) !! rid
                   = match cs !! rid with Some _ => None | None => connections m !! rid end) as H.
  { intros cs. apply (map_fold_weak_ind
      (λ acc (cs : gmap string ManagedConnection),
         ∀ rid, connections acc !! rid = match cs !! rid with Some _ => None | None => connections m !! rid end)).
    - intros k. by rewrite lookup_empty.
    - intros i x cs' acc Hfresh IH k. destruct (decide (i = k)) as [->|Hne].
      + rewrite lookup_insert_eq. apply disconnect_forgets.
      + rewrite lookup_insert_ne by done. rewrite disconnect_other by done. apply IH. }
  rewrite H. by destruct (connections m !! rid).
Qed.

Lemma elem_of_getActiveConnections m rid :
  rid ∈ getActiveConnections m ↔ getConnectionStatus rid m = Some connected.
Proof.
  unfold getActiveConnections, getConnectionStatus.
  rewrite list_elem_of_fmap. split.
  - intros ([k c] & -> & Hin). apply elem_of_map_to_list in Hin.
    apply map_lookup_filter_Some in Hin as [Hc Hst]. simpl in *.
    rewrite Hc. simpl. by rewrite Hst.
  - destruct (connections m !! rid) as [c|] eqn:Hc; [|done]. simpl.
    intros [= Hst]. exists (rid, c). split; [done|].
    apply elem_of_map_to_list, map_lookup_filter_Some. done.
Qed.

(** X8: [getActiveConnections] lists exactly the ids whose status is
    [connected], each once. *)
Theorem getActiveConnections_spec m :
  (∀ rid, rid ∈ getActiveConnections m ↔ getConnectionStatus rid m = Some connected)
  ∧ NoDup (getActiveConnections m).
Proof.
  split; [intros rid; apply elem_of_getActiveConnections|].
  apply NoDup_fst_map_to_list.
Qed.

(** X9: the minute sweep removes exactly the entries in [error] and the
    [disconnected] entries idle for more than five minutes; every other
    entry is kept as it is. *)
Theorem cleanup_sweeps now m rid :
  connections (cleanup now m) !! rid
  = connections m !! rid ≫= λ c,
      if bool_decide (status c = error)
         || (bool_decide (status c = disconnected)
             && bool_decide (now - lastActivity c > 300000))
      then None else Some c.
Proof.
  unfold cleanup.
  assert (∀ cs : gmap string ManagedConnection,
            ∀ rid,
              connections
                (map_fold (λ rid connection acc,
                   if bool_decide (status connection = error)
                      || (bool_decide (status connection = disconnected)
                          && bool_decide (now - lastActivity connection > 5 * 60 * 1000))
                   then disconnect rid acc else acc) m cs) !! rid
              = match cs !! rid with
                | Some c =>
                    if bool_decide (status c = error)
                       || (bool_decide (status c = disconnected)
                           && bool_decide (now - lastActivity c > 300000))
                    then None else connections m !! rid
                | None => connections m !! rid
                end) as H.
  { intros cs. apply (map_fold_weak_ind
      (λ acc (cs : gmap string ManagedConnection),
         ∀ rid, connections acc !! rid
                = match cs !! rid with
                  | Some c =>
                      if bool_decide (status c = error)
                         || (bool_decide (status c = disconnected)
                             && bool_decide (now - lastActivity c > 300000))
                      then None else connections m !! rid
                  | None => connections m !! rid
                  end)).
    - intros k. by rewrite lookup_empty.
    - intros i x cs' acc Hfresh IH k. change (5 * 60 * 1000) with 300000.
      destruct (decide (i = k)) as [->|Hne].
      + rewrite lookup_insert_eq. case_match.
        * apply disconnect_forgets.
        * rewrite IH. by rewrite Hfresh.
      + rewrite lookup_insert_ne by done. case_match; [|apply IH].
        rewrite disconnect_other by done. apply IH. }
  rewrite H. destruct (connections m !! rid) as [c|]; simpl; [|done].
  by case_match.
Qed.
End SSEMore.

Section SSEHandlers.
Import SSE Invariants.

(** X10: when the [EventSource] of the table's own object opens, the entry
    becomes [connected] with [retryCount] 0 and [lastActivity] now, one
    heartbeat timer is armed with the [heartbeatTimeout] of the options the
    source was created with, and one [connected] status change is
    emitted. *)
Theorem opened_connection now m rid c es s :
  connections m !! rid = Some c →
  sources m !! es = Some s → closed s = false →
  src_requestId s = rid → captured s = identity c →
  let m' := react now (Opened es) m in
  connections m' !! rid
  = Some {| requestId := requestId c; eventSource := eventSource c;
            status := connected; retryCount := 0;
            heartbeatTimer := Some (nextTimer m);
            reconnectTimer := reconnectTimer c; lastActivity := now;
            identity := identity c |}
  ∧ timers m'
    = <[nextTimer m := {| setAt := now; delay := heartbeatTimeout (src_options s);
                          action := HeartbeatTimeout rid |}]>
        (cleared (heartbeatTimer c) (timers m))
  ∧ sources m' = sources m
  ∧ emitted m' = emitted m ++ [StatusChange rid connected].
Proof.
  intros Hc Hs Hopen Hrid Hcap m'. subst m'. simpl. rewrite Hs, Hopen.
  unfold onopen, updateCaptured, startHeartbeatTimer, emitStatusChange.
  rewrite Hrid, Hcap. simpl. rewrite lookup_alter_eq, Hc. simpl.
  rewrite clearHeartbeatTimer_eq. simpl. rewrite !lookup_alter_eq, Hc. simpl.
  rewrite bool_decide_eq_true_2 by done. destruct c. done.
Qed.

(** X11: when a source opens whose handlers closed over an object that the
    table has since replaced, the table's entry keeps its status, counter
    and activity time; yet a [connected] status change is emitted for the
    id and a heartbeat timer is armed on the table's entry. *)
Theorem opened_by_stale_source now m rid c es s :
  connections m !! rid = Some c →
  sources m !! es = Some s → closed s = false →
  src_requestId s = rid → captured s ≠ identity c →
  let m' := react now (Opened es) m in
  connections m' !! rid = Some (setHeartbeatTimer (Some (nextTimer m)) c)
  ∧ timers m' !! nextTimer m
    = Some {| setAt := now; delay := heartbeatTimeout (src_options s);
              action := HeartbeatTimeout rid |}
  ∧ emitted m' = emitted m ++ [StatusChange rid connected].
Proof.
  intros Hc Hs Hopen Hrid Hcap m'. subst m'. simpl. rewrite Hs, Hopen.
  unfold onopen, updateCaptured, startHeartbeatTimer, emitStatusChange.
  rewrite Hrid. simpl. rewrite lookup_alter_eq, Hc. simpl.
  rewrite clearHeartbeatTimer_eq. simpl. rewrite !lookup_alter_eq, Hc. simpl.
  rewrite bool_decide_eq_false_2 by congruence.
  split; [by destruct c|]. split; [apply lookup_insert_eq|done].
Qed.

(** X12: a heartbeat timeout is handled with the manager's default
    options, whatever options the connection was opened with: below three
    retries the entry turns [reconnecting] and the reconnect is scheduled
    with the defaults after [min (1000 * 2 ^ retryCount) 30000] ms; from
    three retries on it turns [error]. *)
Theorem heartbeat_expiry_uses_defaults now m tid t rid c constructed :
  timers m !! tid = Some t → action t = HeartbeatTimeout rid →
  connections m !! rid = Some c →
  let m' := react now (Elapsed tid constructed) m in
  (retryCount c < 3 →
   getConnectionStatus rid m' = Some reconnecting
   ∧ timers m' !! nextTimer m
     = Some {| setAt := now; delay := Z.min (1000 * 2 ^ retryCount c) 30000;
               action := Reconnect rid defaults |})
  ∧ (3 ≤ retryCount c → getConnectionStatus rid m' = Some error).
Proof.
  intros Ht Hact Hc m'. subst m'. simpl. rewrite Ht, Hact.
  assert (connections (clearTimeout tid m) !! rid = Some c) as Hc' by done.
  unfold getConnectionStatus. split.
  - intros Hlt.
    destruct (handleConnectionError_retry now rid defaults _ c Hc') as (-> & -> & _);
      [simpl; lia|].
    split; [done|]. simpl. rewrite lookup_insert_eq. unfold backoff. simpl.
    by replace (retryCount c + 1 - 1) with (retryCount c) by lia.
  - intros Hge.
    destruct (handleConnectionError_exhausted now rid defaults _ c Hc') as (-> & _);
      [simpl; lia|done].
Qed.

(** X13: [connect] on an id whose entry is not [connected] replaces the
    entry by a new object in [connecting] with a new [EventSource], and
    neither closes the source nor clears the timers of the entry it
    replaces: every earlier source is as it was and the timers are
    unchanged. *)
Theorem connect_keeps_old_transport now rid o m c :
  connections m !! rid = Some c → status c ≠ connected →
  sources m !! nextSource m = None →
  let m' := (connect now rid o true m).2 in
  (∀ es s, sources m !! es = Some s → sources m' !! es = Some s)
  ∧ timers m' = timers m
  ∧ ∃ c', connections m' !! rid = Some c'
          ∧ eventSource c' = Some (nextSource m)
          ∧ identity c' = nextIdentity m
          ∧ status c' = connecting ∧ retryCount c' = 0
          ∧ heartbeatTimer c' = None ∧ reconnectTimer c' = None.
Proof.
  intros Hc Hst Hfresh m'. subst m'. unfold connect.
  rewrite bool_decide_eq_false_2 by (rewrite Hc; simpl; congruence). simpl.
  match goal with
  | |- context [establishConnection now rid ?opts true ?m1] =>
      destruct (establishConnection_constructed now rid opts m1
                  {| requestId := rid; eventSource := None; status := connecting;
                     retryCount := 0; heartbeatTimer := None; reconnectTimer := None;
                     lastActivity := now; identity := nextIdentity m |})
        as (Hc' & Ht' & Hs' & _); [simpl; apply lookup_insert_eq|]
  end.
  rewrite Hs', Ht', Hc'. simpl. split; [|split; [done|]].
  - intros es s Hs. rewrite lookup_insert_ne; [done|]. congruence.
  - eexists. split; [done|]. done.
Qed.
End SSEHandlers.

Section SSEHeartbeat.
Import SSE.

(** X14: a heartbeat message on the table's own source stamps
    [lastActivity], cancels the armed heartbeat timer and arms a new one
    with the source's [heartbeatTimeout]; nothing is emitted, no source
    changes and the other entries stay. *)
Theorem heartbeat_message_rearms now m rid c es s :
  connections m !! rid = Some c →
  sources m !! es = Some s → closed s = false →
  src_requestId s = rid → captured s = identity c →
  let m' := react now (Received es HeartbeatMessage) m in
  connections m' !! rid
  = Some (setHeartbeatTimer (Some (nextTimer m)) (setLastActivity now c))
  ∧ timers m'
    = <[nextTimer m := {| setAt := now; delay := heartbeatTimeout (src_options s);
                          action := HeartbeatTimeout rid |}]>
        (cleared (heartbeatTimer c) (timers m))
  ∧ sources m' = sources m
  ∧ emitted m' = emitted m
  ∧ (∀ rid', rid' ≠ rid → connections m' !! rid' = connections m !! rid').
Proof.
  intros Hc Hs Hopen Hrid Hcap m'. subst m'. simpl. rewrite Hs, Hopen.
  unfold onmessage, updateCaptured, resetHeartbeatTimer, startHeartbeatTimer.
  rewrite Hrid, Hcap. rewrite !clearHeartbeatTimer_eq. simpl.
  rewrite !lookup_alter_eq, Hc. simpl. rewrite bool_decide_eq_true_2 by done.
  simpl. rewrite !lookup_alter_eq, Hc. simpl. rewrite bool_decide_eq_true_2 by done.
  destruct c as [r e st rc hb rt la idn]. simpl.
  split; [done|]. split; [by destruct hb|]. split; [done|]. split; [done|].
  intros rid' Hne. by rewrite !lookup_alter_ne by done.
Qed.
End SSEHeartbeat.

Section SSEStale.
Import SSE.

(** X15: an error on a source that the table no longer references is
    handled against the table's current entry: the current source is
    closed, the failed one is left open, the entry turns [reconnecting]
    with its counter raised, and a reconnect is scheduled with the options
    of the failed source. *)
Theorem failure_of_replaced_source now m rid c old s cur s' :
  connections m !! rid = Some c →
  sources m !! old = Some s → closed s = false → src_requestId s = rid →
  eventSource c = Some cur → cur ≠ old → sources m !! cur = Some s' →
  retryCount c < maxRetries (src_options s) →
  let m' := react now (Failed old) m in
  sources m' !! old = Some s
  ∧ sources m' !! cur = Some (shut s')
  ∧ connections m' !! rid
    = Some {| requestId := requestId c; eventSource := None; status := reconnecting;
              retryCount := retryCount c + 1; heartbeatTimer := None;
              reconnectTimer := Some (nextTimer m); lastActivity := lastActivity c;
              identity := identity c |}
  ∧ timers m' !! nextTimer m
    = Some {| setAt := now; delay := backoff (src_options s) (retryCount c + 1);
              action := Reconnect rid (src_options s) |}.
Proof.
  intros Hc Hs Hopen Hrid Hes Hne Hs' Hlt m'. subst m'. simpl.
  rewrite Hs, Hopen. unfold onerror. rewrite Hrid.
  destruct (handleConnectionError_retry now rid (src_options s) m c Hc Hlt)
    as (-> & -> & -> & _).
  rewrite Hes. simpl. rewrite lookup_alter_ne, lookup_alter_eq, Hs', lookup_insert_eq by done.
  done.
Qed.
End SSEStale.

Section SSEEmitted.
Import SSE Invariants.

Lemma speaks_refl m : speaks m m.
Proof. exists []. by rewrite app_nil_r. Qed.

Lemma speaks_same m x x' : emitted x' = emitted x → speaks m x → speaks m x'.
Proof. intros Heq (l & Hl & Hf). exists l. by rewrite Heq. Qed.

Lemma speaks_emit e m x : forwardable e → speaks m x → speaks m (emit e x).
Proof.
  intros He (l & Hl & Hf). exists (l ++ [e]). simpl. rewrite Hl, app_assoc.
  split; [done|]. apply Forall_app. split; [done|]. by apply Forall_singleton.
Qed.

Lemma emitted_clearHeartbeatTimer rid m : emitted (clearHeartbeatTimer rid m) = emitted m.
Proof. by rewrite clearHeartbeatTimer_eq. Qed.

Lemma emitted_clearReconnectTimer rid m : emitted (clearReconnectTimer rid m) = emitted m.
Proof. by rewrite clearReconnectTimer_eq. Qed.

Lemma emitted_startHeartbeatTimer now rid ms m :
  emitted (startHeartbeatTimer now rid ms m) = emitted m.
Proof.
  unfold startHeartbeatTimer. destruct (connections m !! rid); [|done].
  simpl. apply emitted_clearHeartbeatTimer.
Qed.

Lemma speaks_handleConnectionError now rid options m x :
  speaks m x → speaks m (handleConnectionError now rid options x).
Proof.
  intros H. unfold handleConnectionError, emitStatusChange.
  destruct (connections x !! rid) as [c|]; [|done].
  assert (emitted
            match eventSource c with
            | Some es => update rid (setEventSource None) (close es x)
            | None => x
            end = emitted x) as H1 by (by destruct (eventSource c)).
  case_bool_decide; simpl.
  - eapply speaks_same; [|apply (speaks_emit (StatusChange rid reconnecting)); [done|exact H]].
    simpl. by rewrite emitted_clearReconnectTimer, emitted_clearHeartbeatTimer, H1.
  - eapply speaks_same;
      [|apply (speaks_emit (ErrorEvent rid "Max reconnection attempts reached")); [done|];
        apply (speaks_emit (StatusChange rid error)); [done|exact H]].
    simpl. by rewrite emitted_clearReconnectTimer, emitted_clearHeartbeatTimer, H1.
Qed.

Lemma speaks_establishConnection now rid options constructed m x :
  speaks m x → speaks m (establishConnection now rid options constructed x).
Proof.
  intros H. unfold establishConnection, emitStatusChange.
  destruct (connections x !! rid) as [c|]; [|done].
  destruct constructed; [|by apply speaks_handleConnectionError].
  eapply speaks_same; [|apply (speaks_emit (StatusChange rid connecting)); [done|exact H]].
  done.
Qed.

Lemma speaks_disconnect rid m x : speaks m x → speaks m (disconnect rid x).
Proof.
  intros H. unfold disconnect, emitStatusChange.
  destruct (connections x !! rid) as [c|]; [|done].
  eapply speaks_same; [|apply (speaks_emit (StatusChange rid disconnected)); [done|exact H]].
  simpl. rewrite emitted_clearReconnectTimer, emitted_clearHeartbeatTimer.
  by destruct (eventSource c).
Qed.

Lemma speaks_cleanup now m x : speaks m x → speaks m (cleanup now x).
Proof.
  intros H. unfold cleanup.
  apply (map_fold_weak_ind (λ acc _, speaks m acc)); [done|].
  intros rid c cs acc _ Hacc. case_match; [|done]. by apply speaks_disconnect.
Qed.

Lemma speaks_react now e m x : speaks m x → speaks m (react now e x).
Proof.
  intros H. destruct e as [es|es data|es|tid constructed|]; simpl.
  - destruct (sources x !! es) as [s|]; [|done]. destruct (closed s); [done|].
    unfold onopen, updateCaptured, emitStatusChange.
    eapply speaks_same;
      [|apply (speaks_emit (StatusChange (src_requestId s) connected)); [done|exact H]].
    by rewrite emitted_startHeartbeatTimer.
  - destruct (sources x !! es) as [s|]; [|done]. destruct (closed s); [done|].
    unfold onmessage, updateCaptured, resetHeartbeatTimer.
    destruct data; try done.
    + destruct (isValidProgressEvent data) eqn:Hv; [|done].
      eapply speaks_same; [|apply (speaks_emit (Progress (src_requestId s) data)); [|exact H]].
      * done.
      * unfold isValidProgressEvent in Hv. apply andb_prop in Hv as [H1 H2].
        apply negb_true_iff, bool_decide_eq_false in H1.
        apply negb_true_iff, bool_decide_eq_false in H2. done.
    + eapply speaks_same; [|exact H].
      by rewrite emitted_startHeartbeatTimer, emitted_clearHeartbeatTimer.
  - destruct (sources x !! es) as [s|]; [|done]. destruct (closed s); [done|].
    by apply speaks_handleConnectionError.
  - destruct (timers x !! tid) as [t|]; [|done]. destruct (action t).
    + apply speaks_establishConnection. by eapply speaks_same; [|exact H].
    + apply speaks_handleConnectionError. by eapply speaks_same; [|exact H].
  - by apply speaks_cleanup.
Qed.

(** X16: whatever the event loop delivers, the manager emits status
    changes, errors and progress events that carry a request id and a scan
    id, and nothing else; a message that is not a valid progress event
    emits nothing. *)
Theorem only_valid_progress_is_forwarded trace m :
  (∃ l, emitted (run trace m) = emitted m ++ l ∧ Forall forwardable l)
  ∧ ∀ now es data,
      (∀ d, data = ProgressMessage d → isValidProgressEvent d = false) →
      emitted (react now (Received es data) m) = emitted m.
Proof.
  split.
  - assert (∀ x, speaks m x → speaks m (run trace x)) as H.
    { induction trace as [|[now e] trace IH]; intros x Hx; [done|].
      simpl. apply IH. by apply speaks_react. }
    apply H, speaks_refl.
  - intros now es data Hdata. simpl.
    destruct (sources m !! es) as [s|]; [|done]. destruct (closed s); [done|].
    unfold onmessage, updateCaptured, resetHeartbeatTimer. destruct data; try done.
    + by rewrite (Hdata data).
    + by rewrite emitted_startHeartbeatTimer, emitted_clearHeartbeatTimer.
Qed.
End SSEEmitted.

(** ** More on the batch pipeline *)
Section BatchFrames.
Import Batch Frames.
Local Open Scope js_scope.

Lemma stays_ret {S A} (R : S → S → Prop) `{!Reflexive R} (a : A) : stays R (ret a).
Proof. intros s. simpl. reflexivity. Qed.

Lemma stays_bind {S A B} (R : S → S → Prop) `{!Transitive R}
    (c : M S A) (k : A → M S B) :
  stays R c → (∀ a, stays R (k a)) → stays R (bind c k).
Proof.
  intros Hc Hk s. unfold bind. specialize (Hc s).
  destruct (c s) as [[a|e] s1]; simpl in *; [|done].
  etransitivity; [exact Hc|apply Hk].
Qed.

Lemma stays_tryCatch {S A} (R : S → S → Prop) `{!Transitive R}
    (c : M S A) (k : string → M S A) :
  stays R c → (∀ e, stays R (k e)) → stays R (tryCatch c k).
Proof.
  intros Hc Hk s. unfold tryCatch. specialize (Hc s).
  destruct (c s) as [[a|e] s1]; simpl in *; [done|].
  etransitivity; [exact Hc|apply Hk].
Qed.

Lemma stays_gets {S A} (R : S → S → Prop) `{!Reflexive R} (f : S → A) :
  stays R (gets f).
Proof. intros s. simpl. reflexivity. Qed.

Lemma stays_liftW {A} hid (c : M World A) :
  stays (aside hid) c → stays (asideOf hid) (liftW c).
Proof.
  intros Hc e. unfold liftW, asideOf. specialize (Hc (world e)).
  by destruct (c (world e)).
Qed.

#[local] Instance aside_refl hid : Reflexive (aside hid).
Proof. intros w. repeat split; eauto 10. Qed.

#[local] Instance aside_trans hid : Transitive (aside hid).
Proof.
  intros w1 w2 w3 (A1 & A2 & A3 & A4 & A5) (B1 & B2 & B3 & B4 & B5).
  split; [congruence|]. split; [congruence|]. split; [congruence|]. split.
  - intros k Hk. rewrite B4 by done. auto.
  - intros h3 Hh3. destruct (B5 _ Hh3) as (h2 & Hh2 & ? & ? & ? & ?).
    destruct (A5 _ Hh2) as (h1 & Hh1 & ? & ? & ? & ?).
    exists h1. split; [done|]. repeat split; congruence.
Qed.

#[local] Instance asideOf_refl hid : Reflexive (asideOf hid).
Proof. intros e. unfold asideOf. reflexivity. Qed.

#[local] Instance asideOf_trans hid : Transitive (asideOf hid).
Proof. intros e1 e2 e3 ? ?. unfold asideOf in *. by etransitivity. Qed.

Lemma stays_prisma {A} hid (op : Db → Res A * Db) :
  (∀ w, aside hid w (setDb (op (db w)).2 w)) → stays (aside hid) (prisma op).
Proof.
  intros Hop w. unfold prisma, request.
  destruct (head (faults w)) as [[?|]|]; simpl.
  - repeat split; eauto 10.
  - specialize (Hop w). destruct (op (db w)). exact Hop.
  - specialize (Hop w). destruct (op (db w)). exact Hop.
Qed.

Lemma stays_history_update hid f :
  (∀ h, totalImages (f h) = totalImages h ∧ h_id (f h) = h_id h
        ∧ scheduledScanId (f h) = scheduledScanId h
        ∧ executionId (f h) = executionId h) →
  stays (aside hid) (scheduledScanHistory_update hid f).
Proof.
  intros Hf. apply stays_prisma. intros w. unfold historyUpdate.
  destruct (histories (db w) !! hid) as [h|] eqn:Hh; simpl; [|repeat split; eauto 10].
  repeat split; simpl; try done.
  - intros k Hk. by rewrite lookup_insert_ne.
  - intros h'. rewrite lookup_insert_eq. intros [= <-]. exists h. split; [done|apply Hf].
Qed.

Lemma stays_scan_create hid key s : stays (aside hid) (scan_create key s).
Proof. apply stays_prisma. intros w. repeat split; eauto 10. Qed.

Lemma stays_result_create hid key r : stays (aside hid) (scheduledScanResult_create key r).
Proof. apply stays_prisma. intros w. repeat split; eauto 10. Qed.

Lemma stays_result_update hid key f : stays (aside hid) (scheduledScanResult_update key f).
Proof.
  apply stays_prisma. intros w.
  destruct (results (db w) !! key); simpl; repeat split; eauto 10.
Qed.

Lemma stays_simple {A} hid (c : M World A) :
  (∀ w, db (c w).2 = db w ∧ background (c w).2 = background w) →
  stays (aside hid) c.
Proof.
  intros Hc w. destruct (Hc w) as [Hdb Hbg]. unfold aside. rewrite Hdb, Hbg.
  repeat split; eauto 10.
Qed.

Ltac frame :=
  repeat first
    [ apply stays_bind; [apply _| |intros ?]
    | apply stays_liftW
    | apply stays_history_update; intros ?; done
    | apply stays_scan_create
    | apply stays_result_create
    | apply stays_result_update
    | apply stays_simple; intros ?; done
    | apply stays_gets; apply _
    | (intros ?; unfold asideOf; simpl; reflexivity) ].

Lemma stays_tryBlock hid image :
  stays (asideOf hid) (tryBlock hid image).
Proof. unfold tryBlock, setScannedCount, modify. frame. Qed.

Lemma stays_catchBlock hid image message :
  stays (asideOf hid) (catchBlock hid image message).
Proof. unfold catchBlock, setFailedCount, modify. frame. Qed.

Lemma stays_forEachImage hid images :
  stays (asideOf hid) (forEachImage hid images).
Proof.
  induction images as [|image rest IH]; simpl; [apply stays_ret; apply _|].
  apply stays_bind; [apply _| |done].
  apply stays_tryCatch; [apply _|apply stays_tryBlock|apply stays_catchBlock].
Qed.

Lemma stays_execution hid images :
  stays (asideOf hid) (execution hid images).
Proof.
  unfold execution, setScannedCount, setFailedCount, modify.
  apply stays_bind; [apply _|frame|intros ?].
  apply stays_bind; [apply _|frame|intros ?].
  apply stays_bind; [apply _|frame|intros ?].
  apply stays_bind; [apply _|apply stays_forEachImage|intros ?].
  frame.
Qed.

(** X17: the background task never throws and stays within its record:
    whatever the store does, it leaves the schedules, the images, the
    other history records and the list of tasks as they were, creates no
    history record, and keeps the identity, schedule, execution id and
    total of its own. *)
Theorem backgroundTask_is_contained hid images w :
  (backgroundTask hid images w).1 = Ok tt
  ∧ aside hid w (backgroundTask hid images w).2.
Proof.
  split.
  - unfold backgroundTask, tryCatch, bind, consoleError, modify, newDate, gets.
    destruct (startScanExecution hid images w) as [[[]|e] w1]; [done|]. simpl.
    by destruct (scheduledScanHistory_update _ _ _) as [[[]|?] ?].
  - assert (stays (aside hid) (backgroundTask hid images)) as H; [|apply H].
    unfold backgroundTask. apply stays_tryCatch; [apply _| |].
    + intros w0. unfold startScanExecution.
      pose proof (stays_execution hid images (enter w0)) as H.
      by destruct (execution hid images (enter w0)).
    + intros e. unfold consoleError, modify, newDate. frame.
      apply stays_tryCatch; [apply _| |intros ?]; frame.
Qed.
End BatchFrames.

Section BatchTrigger.
Import Batch Facts.
Context {regexp : JsRegExp}.
Local Open Scope js_scope.

Lemma tail_as_drop {A} (l : list A) : tail l = drop 1 l.
Proof. by destruct l. Qed.

Lemma head_drop {A} (l : list A) k : head (drop k l) = l !! k.
Proof. rewrite head_lookup, lookup_drop. f_equal. lia. Qed.

Lemma tail_drop {A} (l : list A) k : tail (drop k l) = drop (S k) l.
Proof. revert l. induction k as [|k IH]; intros [|x l]; simpl; try done. Qed.

Lemma request_pass {A} (op : Db → Res A * Db) w :
  default None (head (faults w)) = None →
  request op w = ((op (db w)).1, setDb (op (db w)).2 (setFaults (tail (faults w)) w)).
Proof.
  unfold request. destruct (head (faults w)) as [[?|]|]; simpl; [done| |];
    intros _; by destruct (op (db w)).
Qed.

Lemma request_fault {A} (op : Db → Res A * Db) w message :
  default None (head (faults w)) = Some message →
  request op w = (Throw message, setFaults (tail (faults w)) w).
Proof.
  unfold request. destruct (head (faults w)) as [[?|]|]; simpl; [|done..].
  by intros [= ->].
Qed.

Lemma prisma_pass {A} (op : Db → Res A * Db) w :
  default None (head (faults w)) = None →
  prisma op w
  = ((op (db w)).1, elapse (setDb (op (db w)).2 (setFaults (tail (faults w)) w))).
Proof. intros H. unfold prisma. by rewrite request_pass. Qed.

Lemma prisma_fault {A} (op : Db → Res A * Db) w message :
  default None (head (faults w)) = Some message →
  prisma op w = (Throw message, elapse (setFaults (tail (faults w)) w)).
Proof. intros H. unfold prisma. by rewrite (request_fault _ _ message). Qed.

Lemma prisma_cases {A} (op : Db → Res A * Db) w :
  (∃ message, prisma op w = (Throw message, elapse (setFaults (tail (faults w)) w)))
  ∨ prisma op w
    = ((op (db w)).1, elapse (setDb (op (db w)).2 (setFaults (tail (faults w)) w))).
Proof.
  destruct (default None (head (faults w))) as [message|] eqn:E.
  - left. exists message. by apply prisma_fault.
  - right. by apply prisma_pass.
Qed.

Lemma elapse_clock w : clock w ≤ clock (elapse w).
Proof. unfold elapse. simpl. lia. Qed.

Lemma calm_lookup n w i : calm n w → (i < n)%nat → default None (faults w !! i) = None.
Proof.
  unfold calm. intros Hc Hi. destruct (faults w !! i) as [f|] eqn:E; [|done].
  simpl. eapply Forall_lookup_1 in Hc; [exact Hc|].
  rewrite lookup_take_lt by done. exact E.
Qed.

Lemma calm_fated n w : calm n w → fated (replicate n None) w.
Proof.
  intros Hc i Hi. rewrite length_replicate in Hi.
  rewrite (calm_lookup n w i Hc Hi), lookup_replicate_2 by done. done.
Qed.

Lemma fated_app l1 l2 w w' :
  fated (l1 ++ l2) w → faults w' = drop (length l1) (faults w) →
  fated l1 w ∧ fated l2 w'.
Proof.
  intros H Hw'. split.
  - intros i Hi. rewrite H by (rewrite length_app; lia).
    by rewrite lookup_app_l.
  - intros i Hi. rewrite Hw', lookup_drop, H by (rewrite length_app; lia).
    rewrite lookup_app_r by lia. f_equal. f_equal. lia.
Qed.

Lemma fated_faults l w w' : faults w' = faults w → fated l w → fated l w'.
Proof. intros Heq H i Hi. rewrite Heq. by apply H. Qed.

Lemma fated_seq l w :
  Forall (λ i, default None (faults w !! i) = default None (l !! i))
         (seq 0 (length l)) →
  fated l w.
Proof.
  intros H i Hi. eapply Forall_forall in H; [exact H|].
  apply elem_of_seq. lia.
Qed.
End BatchTrigger.

Section BatchScript.
Import Batch Facts.
Local Open Scope js_scope.

Lemma markCompleted_markProgress t s f now a b h :
  markCompleted t s f now (markProgress a b h) = markCompleted t s f now h.
Proof. done. Qed.

Ltac fate :=
  simpl; rewrite ?tail_as_drop, ?drop_drop, ?head_drop, ?head_lookup; simpl;
  assumption.

Ltac pass := rewrite prisma_pass by fate; simpl.

Ltac fault message := rewrite (prisma_fault _ _ message) by fate; simpl.

Ltac settle :=
  eexists _, _; split; [done|]; simpl; rewrite lookup_insert_eq;
  split; [lia|]; split; [lia|]; split; [done|]; split; [done|];
  split; [by rewrite ?tail_as_drop, ?drop_drop|];
  split; [unfold elapse; simpl; lia|]; split; done.

Ltac fates H n :=
  let rec go k :=
    lazymatch k with
    | O => idtac
    | S ?j =>
        let Hj := fresh "Hfate" in
        pose proof (H j ltac:(simpl; lia)) as Hj; simpl in Hj; go j
    end in
  go n.

(** One round of the loop, for an image that meets the outcome [o]. *)
Lemma image_outcome hid image o e h :
  histories (db (world e)) !! hid = Some h →
  fated (fatesOf o) (world e) →
  ∃ e' h',
    tryCatch (tryBlock hid image) (catchBlock hid image) e = (Ok tt, e')
    ∧ scannedCount e' = scannedCount e + (if countedScanned o then 1 else 0)
    ∧ failedCount e' = failedCount e + (if countedFailed o then 1 else 0)
    ∧ histories (db (world e')) !! hid = Some h'
    ∧ (∀ t s f now, markCompleted t s f now h' = markCompleted t s f now h)
    ∧ faults (world e') = drop (length (fatesOf o)) (faults (world e))
    ∧ clock (world e) + (if bool_decide (o = Scanned) then 100 else 0)
      ≤ clock (world e')
    ∧ (o = Scanned → console (world e') = console (world e))
    ∧ failedImages h' = failedCount e'.
Proof.
  intros Hh Hf.
  unfold tryCatch, tryBlock, catchBlock, bind, liftW, gets, setScannedCount,
    setFailedCount, modify, randomUUID, fresh, newDate, sleep, floorRandom,
    consoleError, scan_create, scheduledScanResult_create,
    scheduledScanResult_update, scheduledScanHistory_update, historyUpdate.
  destruct o as [|[] message].
  - fates Hf 4%nat. simpl. pass. pass. pass. rewrite lookup_insert_eq. simpl.
    pass. rewrite Hh. simpl.
    settle.
  - fates Hf 2%nat. simpl. fault message. pass. rewrite Hh. simpl.
    settle.
  - fates Hf 3%nat. simpl. pass. fault message. pass. rewrite Hh. simpl.
    settle.
  - fates Hf 4%nat. simpl. pass. pass. fault message. pass. rewrite Hh. simpl.
    settle.
  - fates Hf 5%nat. simpl. pass. pass. pass. rewrite lookup_insert_eq. simpl.
    fault message. pass. rewrite Hh. simpl.
    settle.
Qed.

Lemma tally_cons counted o outcomes :
  tally counted (o :: outcomes)
  = (if counted o then 1 else 0) + tally counted outcomes.
Proof.
  unfold tally. rewrite filter_cons.
  case_decide as Hd; destruct (counted o); try done; simpl length; lia.
Qed.

(** The loop, for images that meet the [outcomes] in turn. *)
Lemma loop_outcomes hid : ∀ targets outcomes e h,
  length outcomes = length targets →
  histories (db (world e)) !! hid = Some h →
  fated (concat (fatesOf <$> outcomes)) (world e) →
  ∃ e' h',
    forEachImage hid targets e = (Ok tt, e')
    ∧ scannedCount e' = scannedCount e + tally countedScanned outcomes
    ∧ failedCount e' = failedCount e + tally countedFailed outcomes
    ∧ histories (db (world e')) !! hid = Some h'
    ∧ (∀ t s f now, markCompleted t s f now h' = markCompleted t s f now h)
    ∧ faults (world e')
      = drop (length (concat (fatesOf <$> outcomes))) (faults (world e))
    ∧ clock (world e)
      + 100 * tally (λ o, bool_decide (o = Scanned)) outcomes
      ≤ clock (world e')
    ∧ (Forall (λ o, o = Scanned) outcomes →
       console (world e') = console (world e))
    ∧ (targets ≠ [] ∨ failedImages h = failedCount e →
       failedImages h' = failedCount e').
Proof.
  induction targets as [|image rest IH]; intros [|o outcomes] e h Hlen Hh Hf;
    try discriminate.
  - exists e, h. simpl. unfold tally. simpl. rewrite drop_0.
    repeat split; try done; try lia. by intros [?|?].
  - simpl in Hf.
    destruct (image_outcome hid image o e h Hh) as
      (e1 & h1 & Hrun & Hs1 & Hf1 & Hh1 & Hm1 & Hfa1 & Hc1 & Hco1 & Hfi1).
    { intros i Hi. rewrite Hf by (rewrite length_app; lia).
      by rewrite lookup_app_l. }
    destruct (fated_app _ _ _ _ Hf Hfa1) as [_ Hrest].
    destruct (IH outcomes e1 h1) as
      (e2 & h2 & Hrun2 & Hs2 & Hf2 & Hh2 & Hm2 & Hfa2 & Hc2 & Hco2 & Hfi2);
      [by simplify_eq/=|done|done|].
    exists e2, h2. cbn [forEachImage]. unfold bind at 1. rewrite Hrun.
    rewrite !tally_cons. simpl concat. rewrite length_app, Hfa2, Hfa1, drop_drop.
    split; [done|]. split; [lia|]. split; [lia|]. split; [done|].
    split; [by intros; rewrite Hm2, Hm1|]. split; [done|].
    split; [repeat case_bool_decide; lia|].
    split; [intros [-> HF]%Forall_cons; rewrite Hco2, Hco1; done|].
    intros _. apply Hfi2. by right.
Qed.

(** A whole execution on the [script] of its outcomes. *)
Lemma execution_scripted hid images outcomes w h :
  length outcomes = length images →
  histories (db w) !! hid = Some h →
  fated (script outcomes) w →
  ∃ e now,
    execution hid images (enter w) = (Ok tt, e)
    ∧ scannedCount e = tally countedScanned outcomes
    ∧ failedCount e = tally countedFailed outcomes
    ∧ histories (db (world e)) !! hid
      = Some (markCompleted (Z.of_nat (length images)) (scannedCount e)
                (failedCount e) now h)
    ∧ clock w + 100 * tally (λ o, bool_decide (o = Scanned)) outcomes ≤ now
    ∧ now ≤ clock (world e)
    ∧ (Forall (λ o, o = Scanned) outcomes → console (world e) = console w).
Proof.
  intros Hlen Hh Hf. unfold script in Hf.
  pose proof (Hf 0%nat ltac:(simpl; lia)) as Hfirst. simpl in Hfirst.
  unfold execution, bind at 1, liftW, scheduledScanHistory_update.
  rewrite prisma_pass by (simpl; by rewrite head_lookup).
  unfold historyUpdate. cbn [enter world]. rewrite Hh. simpl.
  unfold bind at 1, setScannedCount, modify. simpl.
  unfold bind at 1, setFailedCount, modify. simpl.
  match goal with
  | |- context [{| world := ?w0; scannedCount := 0; failedCount := 0 |}] =>
      set (e0 := {| world := w0; scannedCount := 0; failedCount := 0 |})
  end.
  destruct (fated_app [None] (concat (fatesOf <$> outcomes) ++ [None]) w (world e0))
    as [_ Hloop]; [done|by simpl; rewrite tail_as_drop|].
  destruct (loop_outcomes hid images outcomes e0 (markRunning h) Hlen) as
    (e1 & h1 & Hrun & Hs & Hfl & Hh1 & Hm & Hfa & Hc & Hco & _).
  { simpl. by rewrite lookup_insert_eq. }
  { intros i Hi. rewrite Hloop by (rewrite length_app; lia).
    by rewrite lookup_app_l. }
  destruct (fated_app _ _ _ _ Hloop Hfa) as [_ Hlast].
  pose proof (Hlast 0%nat ltac:(simpl; lia)) as Hl. simpl in Hl.
  unfold bind at 1. rewrite Hrun.
  unfold bind, gets, liftW, newDate. simpl.
  rewrite prisma_pass by (by rewrite head_lookup).
  rewrite Hh1. simpl.
  eexists _, (clock (world e1)). split; [done|]. simpl.
  rewrite lookup_insert_eq, Hm. subst e0. simpl in *.
  split; [lia|]. split; [lia|]. split; [done|].
  split; [pose proof (elapse_clock w); unfold elapse in *; simpl in *; lia|].
  split; [unfold elapse; simpl; lia|].
  intros HF. by rewrite Hco.
Qed.

(** A whole execution whose loop finishes and whose last update is
    rejected. *)
Lemma execution_lost hid images outcomes message w h :
  length outcomes = length images →
  histories (db w) !! hid = Some h →
  images ≠ [] →
  fated (scriptLost outcomes message) w →
  ∃ e h1,
    execution hid images (enter w) = (Throw message, e)
    ∧ histories (db (world e)) !! hid = Some h1
    ∧ failedImages h1 = tally countedFailed outcomes
    ∧ calm 1 (world e).
Proof.
  intros Hlen Hh Hne Hf. unfold scriptLost in Hf.
  pose proof (Hf 0%nat ltac:(simpl; lia)) as Hfirst. simpl in Hfirst.
  unfold execution, bind at 1, liftW, scheduledScanHistory_update.
  rewrite prisma_pass by (simpl; by rewrite head_lookup).
  unfold historyUpdate. cbn [enter world]. rewrite Hh. simpl.
  unfold bind at 1, setScannedCount, modify. simpl.
  unfold bind at 1, setFailedCount, modify. simpl.
  match goal with
  | |- context [{| world := ?w0; scannedCount := 0; failedCount := 0 |}] =>
      set (e0 := {| world := w0; scannedCount := 0; failedCount := 0 |})
  end.
  destruct (fated_app [None] (concat (fatesOf <$> outcomes) ++ [Some message; None])
              w (world e0))
    as [_ Hloop]; [done|by simpl; rewrite tail_as_drop|].
  destruct (loop_outcomes hid images outcomes e0 (markRunning h) Hlen) as
    (e1 & h1 & Hrun & Hs & Hfl & Hh1 & Hm & Hfa & Hc & Hco & Hfi).
  { simpl. by rewrite lookup_insert_eq. }
  { intros i Hi. rewrite Hloop by (rewrite length_app; lia).
    by rewrite lookup_app_l. }
  destruct (fated_app _ _ _ _ Hloop Hfa) as [_ Hlast].
  pose proof (Hlast 0%nat ltac:(simpl; lia)) as Hl0.
  pose proof (Hlast 1%nat ltac:(simpl; lia)) as Hl1. simpl in Hl0, Hl1.
  unfold bind at 1. rewrite Hrun.
  unfold bind, gets, liftW, newDate. simpl.
  rewrite (prisma_fault _ _ message)
    by (rewrite head_lookup; by destruct (faults (world e1) !! 0%nat) as [[?|]|];
        simplify_eq/=).
  eexists _, h1. split; [done|]. simpl. split; [done|].
  split; [rewrite Hfi by (by left); rewrite Hfl; simpl; lia|].
  unfold calm. simpl.
  destruct (faults (world e1)) as [|a [|b l]]; simpl in *; [done|done|].
  rewrite take_0. by repeat constructor.
Qed.

Lemma fated_nones l w :
  Forall (λ f, f = None) l → calm (length l) w → fated l w.
Proof.
  intros Hl Hc i Hi. rewrite (calm_lookup _ _ i Hc Hi).
  destruct (l !! i) as [f|] eqn:E; [|done].
  by rewrite (Forall_lookup_1 _ _ _ _ Hl E).
Qed.

Lemma script_scanned n :
  Forall (λ f, f = None) (script (replicate n Scanned))
  ∧ length (script (replicate n Scanned)) = (4 * n + 2)%nat
  ∧ tally countedScanned (replicate n Scanned) = Z.of_nat n
  ∧ tally countedFailed (replicate n Scanned) = 0
  ∧ tally (λ o, bool_decide (o = Scanned)) (replicate n Scanned) = Z.of_nat n.
Proof.
  assert (Forall (λ f : option string, f = None)
            (concat (fatesOf <$> replicate n Scanned))
          ∧ length (concat (fatesOf <$> replicate n Scanned)) = (4 * n)%nat)
    as [Hnone Hlen].
  { induction n as [|n [IH1 IH2]]; [done|].
    change (concat (fatesOf <$> replicate (S n) Scanned))
      with ([None; None; None; None] ++ concat (fatesOf <$> replicate n Scanned)).
    split; [apply Forall_app; split; [by repeat constructor|done]|].
    rewrite length_app, IH2. simpl. lia. }
  unfold script. split; [|split].
  - constructor; [done|]. apply Forall_app. split; [done|by constructor].
  - simpl. rewrite length_app, Hlen. simpl. lia.
  - clear. induction n as [|n (IH3 & IH4 & IH5)]; [done|].
    simpl replicate. rewrite !tally_cons, IH3, IH4, IH5. simpl. lia.
Qed.

(** Images that fail, when they fail, before their progress update are
    counted once. *)
Lemma tally_once outcomes :
  Forall (λ o, ∀ message, o ≠ Fails ProgressUpdate message) outcomes →
  tally countedScanned outcomes = tally (λ o, bool_decide (o = Scanned)) outcomes
  ∧ tally countedScanned outcomes + tally countedFailed outcomes
    = Z.of_nat (length outcomes).
Proof.
  induction 1 as [|o outcomes Ho _ [IH1 IH2]]; [done|].
  rewrite !tally_cons. simpl length.
  destruct o as [|[] message]; simpl; try lia. by destruct (Ho message).
Qed.
End BatchScript.

Section BatchSelection.
Import Batch Facts.
Context {regexp : JsRegExp}.
Local Open Scope js_scope.

(** The selection [switch] reads the store and nothing else. *)
Lemma selectImages_reads s w :
  db (selectImages s w).2 = db w
  ∧ background (selectImages s w).2 = background w
  ∧ console (selectImages s w).2 = console w
  ∧ nextId (selectImages s w).2 = nextId w
  ∧ match (selectImages s w).1 with
    | Ok (inl resp) => resp = json (ErrorBody "Repository-based selection not yet implemented") 501
    | _ => True
    end.
Proof.
  unfold selectImages, image_findMany, bind, ret, throw.
  destruct (imageSelectionMode s); simpl; try done.
  - destruct (imagePattern s) as [p|]; [|done].
    case_bool_decide; [done|]. destruct (compile p); [|done].
    destruct (prisma_cases (λ d, (Ok (images d), d)) w) as [[m ->]| ->]; done.
  - destruct (prisma_cases (λ d, (Ok (images d), d)) w) as [[m ->]| ->]; done.
Qed.

(** The selection of a schedule that resolves to some image. *)
Lemma selectImages_resolved s w imgs :
  resolved (db w) s = Some imgs → imgs ≠ [] →
  default None (head (faults w)) = None ∨ storeReads s = 0%nat →
  ∃ w', selectImages s w = (Ok (inr imgs), w')
        ∧ db w' = db w ∧ clock w ≤ clock w' ∧ nextId w' = nextId w
        ∧ background w' = background w ∧ console w' = console w
        ∧ faults w' = drop (storeReads s) (faults w).
Proof.
  unfold resolved, selectImages, storeReads, image_findMany, bind, ret.
  destruct (imageSelectionMode s); simpl.
  - intros [= <-] _ _. by eexists.
  - destruct (imagePattern s) as [p|]; [|by intros [= <-]].
    case_bool_decide; [by intros [= <-]|].
    destruct (compile p) as [test|]; [|discriminate]. simpl.
    intros [= <-] _ [Hh|]; [|done]. rewrite prisma_pass by done. simpl.
    eexists. split; [done|]. rewrite tail_as_drop.
    repeat split; try done. unfold elapse; simpl; lia.
  - intros [= <-] _ [Hh|]; [|done]. rewrite prisma_pass by done. simpl.
    eexists. split; [done|]. rewrite tail_as_drop.
    repeat split; try done. unfold elapse; simpl; lia.
  - discriminate.
Qed.

(** The route up to the call of [startScanExecution], for a schedule that
    is found, enabled and resolves to some image, when the store calls go
    through: the record is created, nothing else is written. *)
Lemma prepare_resolved id w s imgs :
  scheduledScans (db w) !! id = Some s → enabled s = true →
  resolved (db w) s = Some imgs → imgs ≠ [] →
  calm (2 + storeReads s) w →
  let key := "history-" +:+ pretty (S (nextId w)) in
  let executionId := "uuid-" +:+ pretty (nextId w) in
  let total := Z.of_nat (length imgs) in
  ∃ w1,
    prepare id w
    = (Ok (inr (executionId, pendingHistory key id executionId total, imgs)), w1)
    ∧ histories (db w1)
      = <[key := pendingHistory key id executionId total]> (histories (db w))
    ∧ scheduledScans (db w1) = scheduledScans (db w)
    ∧ background w1 = background w
    ∧ console w1 = console w
    ∧ faults w1 = drop (2 + storeReads s) (faults w)
    ∧ clock w ≤ clock w1.
Proof.
  intros Hs Hen Hres Hne Hcalm key executionId total. subst key executionId total.
  unfold prepare, bind, scheduledScan_findUnique.
  rewrite prisma_pass by (rewrite head_lookup; apply (calm_lookup _ _ 0 Hcalm); lia).
  simpl. rewrite Hs, Hen. simpl.
  match goal with
  | |- context [selectImages s ?w1] =>
      destruct (selectImages_resolved s w1 imgs) as
        (w2 & -> & Hdb & Hclock & Hid & Hbg & Hcon & Hf); [done|done| |]
  end.
  { destruct (storeReads s) eqn:E; [by right|left]. simpl.
    rewrite tail_as_drop, head_drop. apply (calm_lookup _ _ 1 Hcalm). lia. }
  simpl in *. rewrite bool_decide_eq_false_2 by (by destruct imgs).
  unfold randomUUID, fresh, scheduledScanHistory_create, ret.
  rewrite prisma_pass.
  2:{ simpl. rewrite Hf, tail_as_drop, drop_drop, head_drop.
      apply (calm_lookup _ _ _ Hcalm). lia. }
  simpl. rewrite Hid, Hdb. eexists. split; [done|]. simpl.
  rewrite Hbg, Hcon, Hf. repeat split; try done.
  - rewrite !tail_as_drop, !drop_drop. f_equal. lia.
  - lia.
Qed.

(** [POST] on such a schedule: the task has issued its first update, and
    the answer depends on the fate of the update of [lastRunAt] alone. *)
Lemma post_after_selection id w s imgs :
  scheduledScans (db w) !! id = Some s → enabled s = true →
  resolved (db w) s = Some imgs → imgs ≠ [] →
  calm (2 + storeReads s) w →
  let key := "history-" +:+ pretty (S (nextId w)) in
  let executionId := "uuid-" +:+ pretty (nextId w) in
  let total := Z.of_nat (length imgs) in
  let first := answered (default None (faults w !! (2 + storeReads s)%nat)) in
  let r := POST id w in
  background r.2 = background w ++ [(key, imgs, first)]
  ∧ (∃ h, histories (db r.2) = <[key := h]> (histories (db w))
          ∧ provenance h = (key, id, executionId, total, "MANUAL", "API")
          ∧ (first = Ok tt → status h = RUNNING))
  ∧ match default None (faults w !! (3 + storeReads s)%nat) with
    | None =>
        r.1 = Ok (json (Started executionId key total
                          ("Scheduled scan execution started for " +:+ pretty total
                           +:+ " images")) 202)
        ∧ ∃ t, clock w ≤ t ≤ clock r.2
               ∧ scheduledScans (db r.2)
                 = <[id := markLastRun t s]> (scheduledScans (db w))
    | Some message =>
        r.1 = Ok (json (ErrorBody "Failed to execute scheduled scan") 500)
        ∧ scheduledScans (db r.2) = scheduledScans (db w)
        ∧ last (console r.2) = Some ("Error executing scheduled scan: " +:+ message)
    end.
Proof.
  intros Hs Hen Hres Hne Hcalm key executionId total answer r.
  destruct (prepare_resolved id w s imgs Hs Hen Hres Hne Hcalm) as
    (w1 & Hprep & Hh & Hsch & Hbg & Hcon & Hf & Hclock).
  fold key executionId total in Hprep, Hh.
  assert (faults w1 !! 0%nat = faults w !! (2 + storeReads s)%nat) as Hfirst.
  { rewrite Hf, lookup_drop. f_equal. lia. }
  assert (faults w1 !! 1%nat = faults w !! (3 + storeReads s)%nat) as Hsecond.
  { rewrite Hf, lookup_drop. f_equal. lia. }
  subst r answer. rewrite <- Hfirst, <- Hsecond. clear Hfirst Hsecond.
  unfold POST, tryCatch, bind. rewrite Hprep.
  cbn [h_id pendingHistory].
  unfold start, request, historyUpdate, newDate, gets, scheduledScan_update,
    prisma, request, consoleError, modify, ret.
  rewrite <- !head_lookup. 
  destruct (faults w1) as [|[ma|] [|[mb|] rest]]; simpl;
    rewrite ?Hh, ?lookup_insert_eq; simpl; rewrite ?Hsch, ?Hs; simpl.
  all: rewrite ?Hbg, ?Hsch, ?Hh.
  all: split; [done|];
    split; [eexists; split; [by rewrite ?insert_insert_eq|by split]|].
  all: split; [done|].
  all: try (split; [done|apply last_snoc]).
  all: exists (clock w1); split; [lia|done].
Qed.

(** What the route has done when it reaches the call of
    [startScanExecution], and when it does not. *)
Lemma prepare_answers id w :
  match prepare id w with
  | (Ok (inl resp), w1) =>
      statusCode resp ∈ [400; 404; 501]
      ∧ db w1 = db w ∧ background w1 = background w ∧ console w1 = console w
  | (Ok (inr (executionId, history, imgs)), w1) =>
      imgs ≠ []
      ∧ background w1 = background w ∧ console w1 = console w
      ∧ histories (db w1) !! h_id history = Some history
      ∧ provenance history
        = (h_id history, id, executionId, Z.of_nat (length imgs), "MANUAL", "API")
  | (Throw _, w1) =>
      db w1 = db w ∧ background w1 = background w ∧ console w1 = console w
  end.
Proof.
  unfold prepare, bind, scheduledScan_findUnique, ret.
  destruct (prisma_cases (λ d, (Ok (scheduledScans d !! id), d)) w) as [[m ->]| ->];
    simpl; [done|].
  destruct (scheduledScans (db w) !! id) as [s|]; simpl.
  2:{ split; [set_solver|done]. }
  destruct (enabled s); simpl.
  2:{ split; [set_solver|done]. }
  match goal with |- context [selectImages s ?w0] =>
    pose proof (selectImages_reads s w0) as (Hdb & Hbg & Hcon & Hid & Hresp);
    destruct (selectImages s w0) as [[[resp|imgs]|m] w1] end; simpl in *.
  { subst resp. split; [set_solver|done]. }
  2:{ done. }
  case_bool_decide as Hlen; simpl.
  { split; [set_solver|done]. }
  assert (imgs ≠ []) as Hne by (by destruct imgs).
  unfold randomUUID, fresh, scheduledScanHistory_create. simpl.
  match goal with |- context [prisma ?op ?w0] =>
    destruct (prisma_cases op w0) as [[m ->]| ->] end; simpl; [done|].
  split; [done|]. split; [done|]. split; [done|].
  split; [apply lookup_insert_eq|done].
Qed.
End BatchSelection.

Section BatchEdges.
Import Batch Facts.
Context {regexp : JsRegExp}.
Local Open Scope js_scope.

Lemma snoc_longer {A} (l : list A) x : l ++ [x] ≠ l.
Proof.
  intros H. apply (f_equal length) in H. rewrite length_app in H. simpl in H. lia.
Qed.

(** The whole task is the part [POST] runs at the call and then the part
    that runs when the answer of the first update is delivered. *)
Lemma startScanExecution_resumes hid images w :
  let issued := request (historyUpdate hid markRunning) w in
  startScanExecution hid images w
  = resumeScanExecution hid images issued.1 issued.2.
Proof.
  unfold startScanExecution, resumeScanExecution.
  change (execution hid images)
    with (liftW (scheduledScanHistory_update hid markRunning) ;;; proceed hid images).
  unfold bind, liftW, scheduledScanHistory_update, prisma. cbn [enter world].
  by destruct (request (historyUpdate hid markRunning) w) as [[[]|message] w1].
Qed.

Lemma backgroundTask_resumes hid images w :
  let issued := request (historyUpdate hid markRunning) w in
  backgroundTask hid images w = resumedTask hid images issued.1 issued.2.
Proof.
  unfold backgroundTask, resumedTask, tryCatch.
  by rewrite startScanExecution_resumes.
Qed.

(** The record the rejection handler leaves when its update is accepted. *)
Lemma backgroundTask_marks_faulted hid images w message w1 h1 :
  startScanExecution hid images w = (Throw message, w1) →
  calm 1 w1 →
  histories (db w1) !! hid = Some h1 →
  histories (db (backgroundTask hid images w).2) !! hid
  = Some (markFaulted message (clock w1) h1).
Proof.
  intros Hrun Hc Hh1. unfold backgroundTask, tryCatch. rewrite Hrun.
  unfold bind, consoleError, modify, newDate, gets, scheduledScanHistory_update.
  simpl.
  rewrite prisma_pass
    by (rewrite head_lookup; apply (calm_lookup 1 w1 0 Hc); lia).
  unfold historyUpdate. simpl. rewrite Hh1. simpl. apply lookup_insert_eq.
Qed.

(** X18: on an existing record, when none of its store calls is rejected,
    [startScanExecution] returns, logs nothing and leaves the record with
    every image counted as scanned, none as failed, and a completion time
    between 100 ms per image after the start and the return.  The status
    is [COMPLETED], except for an empty list of images, where it is
    [FAILED]. *)
Theorem startScanExecution_calm hid images w h :
  histories (db w) !! hid = Some h →
  calm (4 * length images + 2) w →
  let n := Z.of_nat (length images) in
  let w' := (startScanExecution hid images w).2 in
  (startScanExecution hid images w).1 = Ok tt
  ∧ (∃ t, clock w + 100 * n ≤ t ≤ clock w'
          ∧ histories (db w') !! hid = Some (markCompleted n n 0 t (markRunning h)))
  ∧ (∀ h', histories (db w') !! hid = Some h' →
       status h' = if bool_decide (images = []) then FAILED else COMPLETED)
  ∧ console w' = console w.
Proof.
  intros Hh Hcalm n w'.
  destruct (script_scanned (length images)) as (Hnone & Hlen & Hs & Hf & Ht).
  destruct (execution_scripted hid images (replicate (length images) Scanned) w h)
    as (e & now & Hrun & Hsc & Hfc & Hrec & Hlo & Hhi & Hcon);
    [by rewrite length_replicate|done| |].
  { apply fated_nones; [done|]. by rewrite Hlen. }
  subst w'. unfold startScanExecution. rewrite Hrun. simpl.
  rewrite Hsc, Hfc, Hs, Hf in Hrec. rewrite Ht in Hlo. fold n in Hrec, Hlo.
  split; [done|]. split; [by exists now|]. split.
  - intros h'. rewrite Hrec. intros [= <-]. simpl. unfold finalStatus, n.
    destruct images; simpl length; repeat case_bool_decide; try done; lia.
  - apply Hcon. by apply Forall_replicate.
Qed.

(** X19: [POST] never throws, whatever the store does.  It answers 202,
    400, 404, 500 or 501.  With 400, 404 or 501 the store, the background
    tasks and the console are as before; with 202 one task was started,
    over at least one image, and the store holds under the key of the
    answer a record that carries the schedule id, the execution id of the
    answer and the number of images, and that is [RUNNING] when the
    task's first update was accepted; with 500 the body is the fixed error
    text, the last line of the console is the one [POST] logged, and the
    store is as before unless a task was started. *)
Theorem post_answers id w :
  ∃ resp, (POST id w).1 = Ok resp
    ∧ statusCode resp ∈ [202; 400; 404; 500; 501]
    ∧ (statusCode resp ≠ 202 → statusCode resp ≠ 500 →
       db (POST id w).2 = db w ∧ background (POST id w).2 = background w
       ∧ console (POST id w).2 = console w)
    ∧ (statusCode resp = 202 →
       ∃ executionId key imgs message first h,
         imgs ≠ []
         ∧ body resp = Started executionId key (Z.of_nat (length imgs)) message
         ∧ background (POST id w).2 = background w ++ [(key, imgs, first)]
         ∧ histories (db (POST id w).2) !! key = Some h
         ∧ provenance h
           = (key, id, executionId, Z.of_nat (length imgs), "MANUAL", "API")
         ∧ (first = Ok tt → status h = RUNNING))
    ∧ (statusCode resp = 500 →
       body resp = ErrorBody "Failed to execute scheduled scan"
       ∧ (∃ message, last (console (POST id w).2)
                     = Some ("Error executing scheduled scan: " +:+ message))
       ∧ (background (POST id w).2 = background w → db (POST id w).2 = db w)).
Proof.
  pose proof (prepare_answers id w) as Hprep.
  unfold POST, tryCatch, bind, ret, consoleError, modify.
  destruct (prepare id w) as [[[resp|[[executionId history] imgs]]|m] w1]; simpl.
  - destruct Hprep as (Hcode & Hdb & Hbg & Hcon). exists resp.
    split; [done|]. split; [set_solver|]. split; [done|].
    split; intros Hc; rewrite Hc in Hcode; set_solver.
  - destruct Hprep as (Hne & Hbg & Hcon & Hh & Hprov).
    unfold start, request, historyUpdate, newDate, gets, scheduledScan_update,
      prisma, request.
    rewrite Hh.
    destruct (faults w1) as [|[ma|] [|[mb|] rest]]; simpl;
      rewrite ?lookup_insert_eq; simpl;
      destruct (scheduledScans (db w1) !! id) as [s|]; simpl.
    all: eexists; split; [done|]; simpl; split; [set_solver|].
    all: rewrite ?Hbg; split; [intros; exfalso; lia|].
    all: split;
      [intros Hc;
       first [exfalso; lia
             |eexists _, _, imgs, _, _, _; do 3 (split; [done|]);
              rewrite ?lookup_insert_eq; split; [done|];
              split; [exact Hprov|done]]|].
    all: intros Hc;
      first [exfalso; lia
            |split; [done|]; split; [eexists; apply last_snoc|];
             by intros ?%snoc_longer].
  - destruct Hprep as (Hdb & Hbg & Hcon). eexists. split; [done|]. simpl.
    split; [set_solver|]. split; [done|]. split; [done|]. intros _.
    split; [done|]. split; [eexists; apply last_snoc|done].
Qed.

(** X20: for an id the store does not know, when the read goes through,
    [POST] answers 404 and leaves the store, the background tasks and the
    console as they were. *)
Theorem post_unknown_schedule id w :
  scheduledScans (db w) !! id = None →
  default None (head (faults w)) = None →
  (POST id w).1 = Ok (json (ErrorBody "Scheduled scan not found") 404)
  ∧ db (POST id w).2 = db w
  ∧ background (POST id w).2 = background w
  ∧ console (POST id w).2 = console w.
Proof.
  intros Hs Hf. unfold POST, prepare, tryCatch, bind, scheduledScan_findUnique.
  rewrite prisma_pass by done. simpl. by rewrite Hs.
Qed.

(** X21: a [PATTERN] schedule whose non-empty pattern is not a regular
    expression is answered 500 after the first read: no image is read, no
    record is written, no task is started, and one line is logged. *)
Theorem post_invalid_pattern id w s pattern :
  scheduledScans (db w) !! id = Some s → enabled s = true →
  imageSelectionMode s = PATTERN → imagePattern s = Some pattern →
  pattern ≠ "" → compile pattern = None →
  default None (head (faults w)) = None →
  (POST id w).1 = Ok (json (ErrorBody "Failed to execute scheduled scan") 500)
  ∧ db (POST id w).2 = db w
  ∧ background (POST id w).2 = background w
  ∧ faults (POST id w).2 = tail (faults w)
  ∧ length (console (POST id w).2) = S (length (console w)).
Proof.
  intros Hs Hen Hmode Hpat Hne Hbad Hf.
  unfold POST, prepare, tryCatch, bind, scheduledScan_findUnique.
  rewrite prisma_pass by done. simpl. rewrite Hs, Hen. simpl.
  unfold selectImages. rewrite Hmode, Hpat, bool_decide_eq_false_2, Hbad by done.
  simpl. rewrite length_app. simpl. repeat split; try done. lia.
Qed.

(** X22: for an enabled schedule that resolves to at least one image, when
    the store calls up to the update of [lastRunAt] go through, [POST]
    answers 202 with the execution id, the key of the new record and the
    number of images.  One task over the resolved images is started, whose
    update to [RUNNING] has been issued and accepted; the store holds
    under the new key, and nowhere else, a [RUNNING] record with the
    schedule id, the execution id, the number of images and the
    [MANUAL]/[API] origin; and [lastRunAt] is a time between the call and
    the answer. *)
Theorem post_starts_execution id w s imgs :
  scheduledScans (db w) !! id = Some s → enabled s = true →
  resolved (db w) s = Some imgs → imgs ≠ [] →
  calm (4 + storeReads s) w →
  let key := "history-" +:+ pretty (S (nextId w)) in
  let executionId := "uuid-" +:+ pretty (nextId w) in
  let total := Z.of_nat (length imgs) in
  (POST id w).1
  = Ok (json (Started executionId key total
                ("Scheduled scan execution started for " +:+ pretty total +:+ " images"))
             202)
  ∧ background (POST id w).2 = background w ++ [(key, imgs, Ok tt)]
  ∧ (∃ h, histories (db (POST id w).2) = <[key := h]> (histories (db w))
          ∧ provenance h = (key, id, executionId, total, "MANUAL", "API")
          ∧ status h = RUNNING)
  ∧ (∃ t, clock w ≤ t ≤ clock (POST id w).2
          ∧ scheduledScans (db (POST id w).2)
            = <[id := markLastRun t s]> (scheduledScans (db w))).
Proof.
  intros Hs Hen Hres Hne Hcalm key executionId total.
  assert (calm (2 + storeReads s) w) as Hcalm'.
  { unfold calm in *. replace (2 + storeReads s)%nat
      with ((2 + storeReads s) `min` (4 + storeReads s))%nat by lia.
    rewrite <- take_take. by apply Forall_take. }
  destruct (post_after_selection id w s imgs Hs Hen Hres Hne Hcalm')
    as (Hbg & Hh & Hfate).
  rewrite (calm_lookup _ _ (2 + storeReads s) Hcalm) in Hbg, Hh by lia.
  rewrite (calm_lookup _ _ (3 + storeReads s) Hcalm) in Hfate by lia.
  destruct Hfate as (Hr & Hsched). destruct Hh as (h & Hh & Hprov & Hst).
  split; [done|]. split; [done|]. split; [|done].
  exists h. split; [done|]. split; [done|]. by apply Hst.
Qed.

(** X23: when the update of [lastRunAt] is rejected, [POST] answers 500
    although the record has been written and the task started: the task
    has issued its update to [RUNNING] before, with the answer that call
    was fated to get; the record is in the store, [RUNNING] when that
    update was accepted, [lastRunAt] is unchanged, and the last line of
    the console is the logged fault. *)
Theorem post_fails_after_starting id w s imgs message :
  scheduledScans (db w) !! id = Some s → enabled s = true →
  resolved (db w) s = Some imgs → imgs ≠ [] →
  calm (2 + storeReads s) w →
  faults w !! (3 + storeReads s)%nat = Some (Some message) →
  let key := "history-" +:+ pretty (S (nextId w)) in
  let executionId := "uuid-" +:+ pretty (nextId w) in
  let first := answered (default None (faults w !! (2 + storeReads s)%nat)) in
  (POST id w).1 = Ok (json (ErrorBody "Failed to execute scheduled scan") 500)
  ∧ background (POST id w).2 = background w ++ [(key, imgs, first)]
  ∧ (∃ h, histories (db (POST id w).2) = <[key := h]> (histories (db w))
          ∧ provenance h
            = (key, id, executionId, Z.of_nat (length imgs), "MANUAL", "API")
          ∧ (first = Ok tt → status h = RUNNING))
  ∧ scheduledScans (db (POST id w).2) = scheduledScans (db w)
  ∧ last (console (POST id w).2)
    = Some ("Error executing scheduled scan: " +:+ message).
Proof.
  intros Hs Hen Hres Hne Hcalm Hfault key executionId answer.
  destruct (post_after_selection id w s imgs Hs Hen Hres Hne Hcalm)
    as (Hbg & Hh & Hfate).
  rewrite Hfault in Hfate. simpl in Hfate. destruct Hfate as (Hr & Hsched & Hcon).
  done.
Qed.

(** C2: an execution started by [POST] that runs to its end, its last
    update included, leaves in the batch record the status computed from
    its counters: [FAILED] exactly when every image failed, [PARTIAL]
    exactly when some but not all failed, [COMPLETED] exactly when none
    failed.  The counters follow from what happens to the images: when
    each image either passes its four store calls or has one of them
    rejected and the update of its [catch] block accepted, the execution
    runs to its end, and it has counted as scanned the images that reached
    [scannedCount++] and as failed those with a rejected call.  With five
    images, three that pass and two that fail before their progress
    update, the record reads [PARTIAL], 3 and 2.  When the loop finishes
    and the last update is rejected, the rejection handler, its own update
    accepted, leaves the record [FAILED] with the message of the fault,
    whatever the number of failed images. *)
Theorem final_status_is_function_of_counters id w historyId images first :
  background (POST id w).2 = background w ++ [(historyId, images, first)] →
  (∀ w' e,
     execution historyId images (enter w') = (Ok tt, e) →
     ∃ h, histories (db (world e)) !! historyId = Some h
          ∧ scannedImages h = scannedCount e
          ∧ failedImages h = failedCount e
          ∧ status h = finalStatus (failedCount e) (Z.of_nat (length images))
          ∧ (status h = FAILED ↔ failedCount e = Z.of_nat (length images))
          ∧ (status h = PARTIAL ↔ 0 < failedCount e < Z.of_nat (length images))
          ∧ (status h = COMPLETED ↔ failedCount e = 0))
  ∧ (∀ w' h0 outcomes,
       histories (db w') !! historyId = Some h0 →
       length outcomes = length images →
       fated (script outcomes) w' →
       ∃ e h,
         execution historyId images (enter w') = (Ok tt, e)
         ∧ scannedCount e = tally countedScanned outcomes
         ∧ failedCount e = tally countedFailed outcomes
         ∧ histories (db (world e)) !! historyId = Some h
         ∧ scannedImages h = tally countedScanned outcomes
         ∧ failedImages h = tally countedFailed outcomes
         ∧ status h = finalStatus (tally countedFailed outcomes)
                                  (Z.of_nat (length images))
         ∧ (length images = 5%nat →
            tally (λ o, bool_decide (o = Scanned)) outcomes = 3 →
            Forall (λ o, ∀ message, o ≠ Fails ProgressUpdate message) outcomes →
            status h = PARTIAL ∧ scannedImages h = 3 ∧ failedImages h = 2))
  ∧ (∀ w' h0 outcomes message,
       histories (db w') !! historyId = Some h0 →
       length outcomes = length images →
       fated (scriptLost outcomes message) w' →
       ∃ h,
         histories (db (backgroundTask historyId images w').2) !! historyId = Some h
         ∧ status h = FAILED
         ∧ errorMessage h = Some message
         ∧ failedImages h = tally countedFailed outcomes).
Proof.
  intros Hspawn.
  assert (images ≠ []) as Hne.
  { destruct (POST_background id w) as [Hsame|(hid' & imgs' & first' & Hne & Hbg)].
    - rewrite Hsame in Hspawn. symmetry in Hspawn. by apply snoc_longer in Hspawn.
    - rewrite Hbg in Hspawn. apply app_inv_head in Hspawn.
      injection Hspawn as _ <- _. exact Hne. }
  assert (0 < Z.of_nat (length images)) as Hpos by (destruct images; [done|simpl; lia]).
  split; [|split].
  - intros w' e Hrun.
    apply execution_returns in Hrun as (Hs & Hf & _ & h & Hh & Hst & Hsc & Hfc & _).
    destruct (finalStatus_cases _ _ Hf Hpos) as (H1 & H2 & H3).
    exists h. rewrite Hst. done.
  - intros w' h0 outcomes Hh0 Hlen Hfated.
    destruct (execution_scripted historyId images outcomes w' h0 Hlen Hh0 Hfated)
      as (e & now & Hrun & Hsc & Hfc & Hrec & _).
    eexists e, _. split; [done|]. split; [done|]. split; [done|].
    split; [exact Hrec|]. simpl. rewrite Hsc, Hfc.
    repeat (split; [done|]).
    intros H5 H3 Honce. destruct (tally_once outcomes Honce) as [Hsame Hsum].
    rewrite Hlen, H5 in Hsum. rewrite H5.
    assert (tally countedFailed outcomes = 2) as -> by lia.
    split; [done|]. split; [lia|done].
  - intros w' h0 outcomes message Hh0 Hlen Hfated.
    destruct (execution_lost historyId images outcomes message w' h0
                Hlen Hh0 Hne Hfated) as (e & h1 & Hrun & Hh1 & Hfi & Hcalm).
    eexists. split.
    + apply (backgroundTask_marks_faulted _ _ _ message (world e) h1);
        [unfold startScanExecution; by rewrite Hrun|done|done].
    + done.
Qed.
End BatchEdges.


(** ** The provider component *)
Section ProviderViews.
Import Store Provider.
Context {date : JsDate}.

Lemma elem_of_allJobs s job :
  job ∈ allJobs s ↔ ∃ rid, jobs s !! rid = Some job.
Proof.
  unfold allJobs. rewrite list_elem_of_fmap. split.
  - intros ([rid j] & -> & Hin). exists rid. by apply elem_of_map_to_list.
  - intros [rid Hin]. exists (rid, job). split; [done|]. by apply elem_of_map_to_list.
Qed.

Lemma shouldPoll_spec s :
  shouldPoll s = true
  ↔ (∃ rid job, jobs s !! rid = Some job ∧ status job = RUNNING) ∨ queuedScans s ≠ [].
Proof.
  unfold shouldPoll. rewrite orb_true_iff, !bool_decide_eq_true, Exists_exists.
  split; intros [H|H].
  - left. destruct H as (job & Hin & Hst). apply elem_of_allJobs in Hin as [rid Hin].
    by exists rid, job.
  - right. destruct (queuedScans s); [simpl in H; lia|done].
  - left. destruct H as (rid & job & Hin & Hst). exists job. split; [|done].
    apply elem_of_allJobs. by exists rid.
  - right. destruct (queuedScans s); [done|simpl; lia].
Qed.

Lemma shouldPoll_ext s s' :
  (∀ rid job, status job = RUNNING → jobs s !! rid = Some job ↔ jobs s' !! rid = Some job) →
  (queuedScans s = [] ↔ queuedScans s' = []) →
  shouldPoll s = shouldPoll s'.
Proof.
  intros Hj Hq. apply eq_true_iff_eq. rewrite !shouldPoll_spec.
  split; (intros [(rid & job & Hin & Hst)|Hne]; [left|right; tauto]);
    exists rid, job; (split; [|done]); by apply (Hj rid job Hst).
Qed.

(** X24: once the action of the polling effect is reduced, [isPolling] is
    true exactly when the period is 3000 ms, false exactly when it is
    30000 ms, and true exactly when some job of the map is [RUNNING] or
    some scan is queued; reducing the action does not change what the
    effect would do next. *)
Theorem polling_follows_activity now s :
  let s' := scanningReducer now s (pollingEffect s).2 in
  (isPolling s' = true ↔ (pollingEffect s).1 = 3000)
  ∧ (isPolling s' = false ↔ (pollingEffect s).1 = 30000)
  ∧ (isPolling s' = true
     ↔ (∃ rid job, jobs s !! rid = Some job ∧ status job = RUNNING) ∨ queuedScans s ≠ [])
  ∧ pollingEffect s' = pollingEffect s.
Proof.
  intros s'. subst s'. rewrite <- shouldPoll_spec. unfold pollingEffect.
  assert (∀ b, shouldPoll (scanningReducer now s (SET_POLLING b)) = shouldPoll s)
    as Hsame by done.
  destruct (shouldPoll s) eqn:E; simpl snd; rewrite Hsame; simpl;
    repeat split; intros; congruence.
Qed.

(** X25: [AUTO_CLEANUP], [CLEAR_COMPLETED_JOBS] and the removal of a job
    that is not [RUNNING] never change the polling period. *)
Theorem sweeps_keep_cadence now s action :
  action = AUTO_CLEANUP ∨ action = CLEAR_COMPLETED_JOBS
  ∨ (∃ rid job, action = REMOVE_SCAN_JOB rid ∧ jobs s !! rid = Some job
                ∧ status job ≠ RUNNING) →
  pollingEffect (scanningReducer now s action) = pollingEffect s.
Proof.
  intros Hact. unfold pollingEffect.
  rewrite (shouldPoll_ext (scanningReducer now s action) s); [done| |].
  - intros rid job Hst. destruct Hact as [-> |[-> |(r & j & -> & Hj & Hjs)]].
    + rewrite auto_cleanup_lookup. unfold retained. naive_solver.
    + rewrite clear_completed_lookup. naive_solver.
    + simpl. destruct (decide (r = rid)) as [->|Hne].
      * rewrite lookup_delete_eq, Hj. split; [done|]. intros [= ->]. done.
      * by rewrite lookup_delete_ne.
  - by destruct Hact as [-> |[-> |(r & j & -> & _)]].
Qed.

(** X26: [runningJobs] and [completedJobs] split the jobs of the map
    between them, a job that is not [RUNNING] ([QUEUED] included) counting
    as completed; after [CLEAR_COMPLETED_JOBS] the completed view is empty,
    and neither that action nor [AUTO_CLEANUP] changes the running view. *)
Theorem views_split s :
  (∀ job, job ∈ runningJobs s ↔ ∃ rid, jobs s !! rid = Some job ∧ status job = RUNNING)
  ∧ (∀ job, job ∈ completedJobs s ↔ ∃ rid, jobs s !! rid = Some job ∧ status job ≠ RUNNING)
  ∧ runningJobs s ++ completedJobs s ≡ₚ allJobs s
  ∧ (∀ now, completedJobs (scanningReducer now s CLEAR_COMPLETED_JOBS) = [])
  ∧ (∀ now job, job ∈ runningJobs (scanningReducer now s CLEAR_COMPLETED_JOBS)
                ↔ job ∈ runningJobs s)
  ∧ (∀ now job, job ∈ runningJobs (scanningReducer now s AUTO_CLEANUP)
                ↔ job ∈ runningJobs s).
Proof.
  assert (∀ s job, job ∈ runningJobs s
                   ↔ ∃ rid, jobs s !! rid = Some job ∧ status job = RUNNING) as Hrun.
  { intros s0 job. unfold runningJobs. rewrite list_elem_of_filter, elem_of_allJobs.
    naive_solver. }
  split; [apply Hrun|]. split.
  { intros job. unfold completedJobs. rewrite list_elem_of_filter, elem_of_allJobs.
    naive_solver. }
  split.
  { unfold runningJobs, completedJobs. apply filter_app_complement. }
  split.
  { intros now. unfold completedJobs.
    destruct (filter _ _) as [|job rest] eqn:E; [done|].
    assert (job ∈ job :: rest) as Hin by left. rewrite <- E in Hin.
    apply list_elem_of_filter in Hin as [Hst Hin].
    apply elem_of_allJobs in Hin as [rid Hin].
    apply clear_completed_lookup in Hin as [_ Hrunning]. done. }
  split.
  - intros now job. rewrite !Hrun. setoid_rewrite clear_completed_lookup. naive_solver.
  - intros now job. rewrite !Hrun. setoid_rewrite auto_cleanup_lookup.
    unfold retained. naive_solver.
Qed.
End ProviderViews.

Section ProviderConnections.
Import Store Provider.
Context {date : JsDate}.

Lemma connect_other now rid rid' o constructed m :
  rid' ≠ rid →
  SSE.connections (SSE.connect now rid o constructed m).2 !! rid'
  = SSE.connections m !! rid'.
Proof.
  intros Hne. unfold SSE.connect. case_bool_decide; [done|]. simpl.
  match goal with
  | |- context [SSE.establishConnection now rid ?opts constructed ?m1] =>
      destruct (workFor_establishConnection rid now opts constructed m1 m1
                  (workFor_refl _ _)) as (_ & _ & Hc)
  end.
  rewrite Hc by done. simpl. by rewrite lookup_insert_ne.
Qed.

(** The entry [connect] leaves for its own id: the old one when it was
    connected, otherwise a new one that is not. *)
Lemma connect_entry now rid o constructed m :
  ∃ c, SSE.connections (SSE.connect now rid o constructed m).2 !! rid = Some c
       ∧ (SSE.status c = SSE.connected →
          SSE.getConnectionStatus rid m = Some SSE.connected).
Proof.
  unfold SSE.connect, SSE.getConnectionStatus. case_bool_decide as Hst.
  - simpl. destruct (SSE.connections m !! rid) as [c|]; [|done]. exists c.
    split; [done|]. intros _. exact Hst.
  - simpl. set (c0 := {| SSE.requestId := rid; SSE.eventSource := None;
                        SSE.status := SSE.connecting; SSE.retryCount := 0;
                        SSE.heartbeatTimer := None; SSE.reconnectTimer := None;
                        SSE.lastActivity := now; SSE.identity := SSE.nextIdentity m |}).
    set (m1 := SSE.withIdentity _ _).
    assert (SSE.connections m1 !! rid = Some c0) as Hc0 by apply lookup_insert_eq.
    destruct constructed.
    + destruct (establishConnection_constructed now rid (SSE.merge SSE.defaults o) m1 c0 Hc0)
        as (-> & _). eexists. split; [done|]. done.
    + unfold SSE.establishConnection. rewrite Hc0.
      destruct (decide (SSE.retryCount c0 < SSE.maxRetries (SSE.merge SSE.defaults o)))
        as [Hlt|Hge].
      * destruct (handleConnectionError_retry now rid _ m1 c0 Hc0 Hlt) as (-> & _).
        eexists. split; [done|]. done.
      * destruct (handleConnectionError_exhausted now rid _ m1 c0 Hc0 Hge) as (-> & _).
        eexists. split; [done|]. done.
Qed.

Lemma subscribeMissing_spec now constructed A js : ∀ m,
  (∀ rid, rid ∉ A → SSE.getConnectionStatus rid m ≠ Some SSE.connected) →
  let m' := subscribeMissing now constructed A js m in
  (∀ rid, rid ∈ A ∨ rid ∉ requestId <$> js →
          SSE.connections m' !! rid = SSE.connections m !! rid)
  ∧ (∀ rid, rid ∉ A → rid ∈ requestId <$> js →
            ∃ c, SSE.connections m' !! rid = Some c ∧ SSE.status c ≠ SSE.connected)
  ∧ (∀ rid, rid ∉ A → SSE.getConnectionStatus rid m' ≠ Some SSE.connected).
Proof.
  induction js as [|job rest IH]; intros m Hinv; simpl.
  { split; [done|]. split; [|done]. intros rid _ Hin. by apply elem_of_nil in Hin. }
  case_bool_decide as Hact.
  - destruct (IH m Hinv) as (H1 & H2 & H3). split; [|split; [|done]].
    + intros rid [Hin|Hout]; apply H1; [by left|].
      right. intros Hin. apply Hout. by right.
    + intros rid Hout Hin. apply elem_of_cons in Hin as [->|Hin]; [done|]. by apply H2.
  - set (m1 := subscribeTo now constructed (requestId job) m).
    assert (∀ rid, rid ∉ A → SSE.getConnectionStatus rid m1 ≠ Some SSE.connected) as Hinv1.
    { intros rid Hout. subst m1. unfold subscribeTo.
      destruct (decide (rid = requestId job)) as [->|Hne].
      - destruct (connect_entry now (requestId job) None constructed m) as (c & Hc & Hst).
        unfold SSE.getConnectionStatus at 1. rewrite Hc. simpl. intros [= Hcon].
        by apply (Hinv (requestId job) Hout), Hst.
      - unfold SSE.getConnectionStatus. rewrite connect_other by done. by apply Hinv. }
    destruct (IH m1 Hinv1) as (H1 & H2 & H3). split; [|split; [|done]].
    + intros rid Hrid. rewrite H1.
      * subst m1. unfold subscribeTo. apply connect_other.
        destruct Hrid as [Hin|Hout]; [congruence|].
        intros ->. apply Hout. by left.
      * destruct Hrid as [Hin|Hout]; [by left|]. right. intros Hin. apply Hout. by right.
    + intros rid Hout Hin.
      destruct (decide (rid ∈ requestId <$> rest)) as [Hrest|Hrest]; [by apply H2|].
      apply elem_of_cons in Hin as [->|Hin]; [|done].
      rewrite H1 by (by right). subst m1. unfold subscribeTo.
      destruct (connect_entry now (requestId job) None constructed m) as (c & Hc & Hst).
      exists c. split; [done|]. intros Hcon. by apply (Hinv (requestId job) Hout), Hst.
Qed.

Lemma dropFinished_spec jobs A : ∀ m rid,
  SSE.connections (dropFinished jobs A m) !! rid
  = if bool_decide (rid ∈ A) && noLongerRunning jobs rid then None
    else SSE.connections m !! rid.
Proof.
  induction A as [|r rest IH]; intros m rid.
  { rewrite bool_decide_eq_false_2; [done|]. apply not_elem_of_nil. }
  change (dropFinished jobs (r :: rest) m)
    with (dropFinished jobs rest
            (if noLongerRunning jobs r then unsubscribeFrom r m else m)).
  rewrite IH. destruct (decide (rid = r)) as [->|Hne].
  - rewrite (bool_decide_eq_true_2 (r ∈ r :: rest)) by left. simpl.
    destruct (noLongerRunning jobs r) eqn:E; simpl.
    + rewrite andb_true_r. unfold unsubscribeFrom. rewrite disconnect_forgets.
      by case_bool_decide.
    + by rewrite andb_false_r.
  - assert (bool_decide (rid ∈ r :: rest) = bool_decide (rid ∈ rest)) as ->.
    { apply bool_decide_ext. rewrite elem_of_cons. naive_solver. }
    destruct (bool_decide (rid ∈ rest) && noLongerRunning jobs rid); [done|].
    destruct (noLongerRunning jobs r); [|done].
    unfold unsubscribeFrom. by apply disconnect_other.
Qed.

Lemma noLongerRunning_false jobs rid :
  noLongerRunning jobs rid = false
  ↔ ∃ job, List.find (λ j, bool_decide (requestId j = rid)) jobs = Some job
           ∧ status job = RUNNING.
Proof.
  unfold noLongerRunning. destruct (List.find _ jobs) as [job|].
  - rewrite negb_false_iff, bool_decide_eq_true. naive_solver.
  - naive_solver.
Qed.

(** X27: after a refresh that read the body, an id is [connected] exactly
    when it was before and the first job of the answer with this id is
    [RUNNING]; every id whose first job is [RUNNING] has an entry in the
    table; and an entry that was not [connected], for an id with no
    [RUNNING] job in the answer, is left as it was, so a connection still
    [connecting] or [reconnecting] for a job that is gone is not closed. *)
Theorem refreshJobs_reconciles now constructed dataJobs dataQueued p :
  let jobs := received now <$> default [] dataJobs in
  let m := manager p in
  let m' := manager (refreshJobs now constructed (Answered dataJobs dataQueued) p).1 in
  let runs rid := ∃ job, List.find (λ j, bool_decide (requestId j = rid)) jobs = Some job
                         ∧ status job = RUNNING in
  (∀ rid, SSE.getConnectionStatus rid m' = Some SSE.connected
          ↔ SSE.getConnectionStatus rid m = Some SSE.connected ∧ runs rid)
  ∧ (∀ rid, runs rid → is_Some (SSE.connections m' !! rid))
  ∧ (∀ rid, SSE.getConnectionStatus rid m ≠ Some SSE.connected →
            (∀ job, job ∈ jobs → requestId job = rid → status job ≠ RUNNING) →
            SSE.connections m' !! rid = SSE.connections m !! rid).
Proof.
  intros jobs m m' runs. subst m'. simpl. fold jobs. fold m.
  set (A := SSE.getActiveConnections m).
  set (js := filter (λ job, status job = RUNNING) jobs).
  destruct (subscribeMissing_spec now constructed A js m) as (H1 & H2 & H3).
  { intros rid Hout Hc. apply Hout. by apply elem_of_getActiveConnections. }
  assert (∀ rid, runs rid ↔ noLongerRunning jobs rid = false) as Hruns.
  { intros rid. symmetry. apply noLongerRunning_false. }
  split; [|split].
  - intros rid. unfold SSE.getConnectionStatus at 1. rewrite dropFinished_spec, Hruns.
    destruct (decide (rid ∈ A)) as [Hin|Hout].
    + rewrite bool_decide_eq_true_2 by done. simpl.
      apply elem_of_getActiveConnections in Hin as Hc. fold m in Hc.
      destruct (noLongerRunning jobs rid); simpl; [naive_solver|].
      rewrite H1 by (by left). unfold SSE.getConnectionStatus in Hc. naive_solver.
    + rewrite bool_decide_eq_false_2 by done. simpl. split.
      * intros Hc. by apply H3 in Hc.
      * intros [Hc _]. apply elem_of_getActiveConnections in Hc. done.
  - intros rid Hrun. rewrite dropFinished_spec.
    rewrite (proj1 (Hruns rid) Hrun), andb_false_r.
    destruct Hrun as (job & Hfind & Hst).
    apply find_some in Hfind as [Hin Hrid]. apply bool_decide_eq_true in Hrid.
    destruct (decide (rid ∈ A)) as [HA|HA].
    + rewrite H1 by (by left). apply elem_of_getActiveConnections in HA.
      unfold SSE.getConnectionStatus in HA. fold m in HA.
      destruct (SSE.connections m !! rid); [by eexists|done].
    + destruct (H2 rid HA) as (c & -> & _); [|by eexists].
      apply list_elem_of_fmap. exists job. split; [done|].
      apply list_elem_of_filter. split; [done|]. by apply list_elem_of_In.
  - intros rid Hc Hnone.
    assert (rid ∉ A) as HA.
    { intros Hin. by apply elem_of_getActiveConnections in Hin. }
    rewrite dropFinished_spec, bool_decide_eq_false_2 by done. simpl.
    apply H1. right. intros Hin. apply list_elem_of_fmap in Hin as (job & -> & Hin).
    apply list_elem_of_filter in Hin as [Hst Hin]. by apply (Hnone job).
Qed.


(** X29: [removeScanJob] right after [addScanJob], for an id that neither
    the job map nor the connection table knew, restores both, and leaves
    no timer and no open [EventSource] that was not there before. *)
Theorem removeScanJob_undoes_addScanJob now now' constructed job p :
  jobs (state p) !! new_requestId job = None →
  SSE.connections (manager p) !! new_requestId job = None →
  let p' := removeScanJob now' (new_requestId job) (addScanJob now constructed job p) in
  jobs (state p') = jobs (state p)
  ∧ SSE.connections (manager p') = SSE.connections (manager p)
  ∧ SSE.quieter (manager p) (manager p').
Proof.
  intros Hjob Hconn p'. subst p'. simpl. split; [by rewrite delete_insert_id|].
  unfold unsubscribeFrom. case_bool_decide as Hst.
  2:{ rewrite disconnect_unknown by done. split; [done|]. split; auto. }
  unfold subscribeTo, SSE.connect.
  rewrite bool_decide_eq_false_2 by (by rewrite Hconn). simpl.
  set (rid := new_requestId job) in *.
  set (c0 := {| SSE.requestId := rid; SSE.eventSource := None;
                SSE.status := SSE.connecting; SSE.retryCount := 0;
                SSE.heartbeatTimer := None; SSE.reconnectTimer := None;
                SSE.lastActivity := now;
                SSE.identity := SSE.nextIdentity (manager p) |}).
  set (m1 := SSE.withIdentity _ _).
  assert (SSE.connections m1 !! rid = Some c0) as Hc0 by apply lookup_insert_eq.
  assert (∀ m2 c2,
            SSE.connections m2 !! rid = Some c2 →
            (∀ rid', rid' ≠ rid → SSE.connections m2 !! rid' = SSE.connections m1 !! rid') →
            (∀ tid t, SSE.cleared (SSE.reconnectTimer c2)
                        (SSE.cleared (SSE.heartbeatTimer c2) (SSE.timers m2)) !! tid = Some t →
                      SSE.timers m1 !! tid = Some t) →
            (∀ es s, SSE.closing (SSE.eventSource c2) (SSE.sources m2) !! es = Some s →
                     SSE.closed s = false → SSE.sources m1 !! es = Some s) →
            SSE.connections (SSE.disconnect rid m2) = SSE.connections (manager p)
            ∧ SSE.quieter (manager p) (SSE.disconnect rid m2)) as Hclose.
  { intros m2 c2 Hc2 Hothers Ht Hs.
    destruct (disconnect_known rid m2 c2 Hc2) as (Hcs & Hts & Hss & _).
    split.
    - rewrite Hcs. apply map_eq. intros k. destruct (decide (k = rid)) as [->|Hne].
      + by rewrite lookup_delete_eq, Hconn.
      + rewrite lookup_delete_ne, Hothers by done. subst m1. simpl.
        by rewrite lookup_insert_ne.
    - split.
      + intros tid t. rewrite Hts. apply Ht.
      + intros es s. rewrite Hss. apply Hs. }
  destruct constructed.
  - destruct (establishConnection_constructed now rid (SSE.merge SSE.defaults None) m1 c0 Hc0)
      as (Hc & Ht & Hs & Ho).
    apply (Hclose _ _ Hc Ho).
    + rewrite Ht. simpl. done.
    + rewrite Hs. simpl. intros es s Hin Hopen.
      destruct (decide (es = SSE.nextSource m1)) as [->|Hne].
      * rewrite lookup_alter_eq, lookup_insert_eq in Hin. simpl in Hin.
        injection Hin as <-. done.
      * by rewrite lookup_alter_ne, lookup_insert_ne in Hin by done.
  - unfold SSE.establishConnection. rewrite Hc0.
    destruct (handleConnectionError_retry now rid (SSE.merge SSE.defaults None) m1 c0 Hc0)
      as (Hc & Ht & Hs & Ho); [done|].
    apply (Hclose _ _ Hc Ho).
    + rewrite Ht. simpl. intros tid t Hin.
      apply lookup_delete_Some in Hin as [Hne Hin].
      by rewrite lookup_insert_ne in Hin by done.
    + rewrite Hs. simpl. done.
Qed.
End ProviderConnections.

(** ** The completion monitor in the component *)
Section MonitorClaims.
Import Store Monitor.
Context {date : JsDate}.

End MonitorClaims.

(** * Concrete runs *)

(** ** On the job state store *)

#[local] Existing Instance IsoDate.date.

Example iso_parse_epoch : IsoDate.parse "1970-01-01T00:00:00.000Z" = Some 0.
Proof. vm_compute. reflexivity. Qed.

Example iso_parse_leap_day : IsoDate.parse "2024-02-29T12:30:15.250Z" = Some 1709209815250.
Proof. vm_compute. reflexivity. Qed.

Example iso_parse_rejects : IsoDate.parse "2023-02-29T12:30:15.250Z" = None.
Proof. vm_compute. reflexivity. Qed.

Example iso_render_leap_day : IsoDate.render 1709209815250 = "2024-02-29T12:30:15.250Z".
Proof. vm_compute. reflexivity. Qed.

(** C1, counterexample: the stored job is [SUCCESS] at 100 %, last updated
    at 00:00:10; an event stamped 00:00:05 that says [RUNNING] at 50 %
    arrives; afterwards the job reads [RUNNING] at 50 %. *)
Lemma stale_event_regresses :
  Store.jobs (Sample.store [("req-1", Sample.finished)]) !! "req-1" = Some Sample.finished
  ∧ Store.staleFor Sample.late Sample.finished
  ∧ ∃ job,
      Store.jobs (Store.scanningReducer 1704067211000
                    (Sample.store [("req-1", Sample.finished)])
                    (Store.UPDATE_SCAN_PROGRESS Sample.late)) !! "req-1" = Some job
      ∧ Store.status Sample.finished = Store.SUCCESS
      ∧ Store.status job = Store.RUNNING
      ∧ Store.progress Sample.finished = 100
      ∧ Store.progress job = 50.
Proof.
  split; [vm_compute; reflexivity|]. split.
  - exists 1704067205000, 1704067210000. vm_compute. repeat split; reflexivity.
  - eexists. split; [vm_compute; reflexivity|]. repeat split; reflexivity.
Qed.

(** C5, witness: a [FAILED] job last updated at 00:00:10 is gone after a
    cleanup at 00:00:41. *)
Lemma auto_cleanup_retention_witness :
  Store.jobs (Store.scanningReducer 1704067241000
                (Sample.store [("req-3", Sample.broken)]) Store.AUTO_CLEANUP) !! "req-3"
  = None.
Proof.
  destruct (auto_cleanup_retention 1704067241000
              (Sample.store [("req-3", Sample.broken)]) "req-3") as (_ & _ & Hgone).
  apply (Hgone Sample.broken 1704067210000); vm_compute; reflexivity.
Defined.

(** C10, witness: a [QUEUED] job updated at the very time of the cleanup. *)
Lemma auto_cleanup_drops_queued_witness :
  Store.jobs (Sample.store [("req-2", Sample.waiting)]) !! "req-2" = Some Sample.waiting
  ∧ Store.status Sample.waiting = Store.QUEUED
  ∧ Store.jobs (Store.scanningReducer 1704067210000
                  (Sample.store [("req-2", Sample.waiting)]) Store.AUTO_CLEANUP) !! "req-2"
    = None.
Proof.
  split; [vm_compute; reflexivity|]. split; [reflexivity|].
  apply (auto_cleanup_drops_queued 1704067210000
           (Sample.store [("req-2", Sample.waiting)]) "req-2" Sample.waiting);
    [vm_compute; reflexivity|reflexivity].
Defined.
(** ** On the batch pipeline *)

#[local] Existing Instance LiteralRegExp.regexp.

(** C2, witness: five images.  In the first run the second and the
    fourth fail at [scan.create]; in the second run all pass and the last
    update is rejected. *)
Lemma final_status_witness :
  Batch.background
    (Batch.POST "nightly"
       (Sample.world (Sample.schedule true Batch.ALL None) Sample.five Sample.twoOfFive)).2
  = [("history-1", Sample.five, Ok tt)]
  ∧ (∃ e h,
       Batch.execution "history-1" Sample.five
         (Batch.enter (Sample.triggered Sample.five Sample.twoOfFive)) = (Ok tt, e)
       ∧ Batch.histories (Batch.db (Batch.world e)) !! "history-1" = Some h
       ∧ Batch.status h = Batch.PARTIAL
       ∧ Batch.scannedImages h = 3
       ∧ Batch.failedImages h = 2)
  ∧ (∃ h,
       Batch.histories
         (Batch.db (Batch.backgroundTask "history-1" Sample.five
                      (Sample.triggered Sample.five Sample.lastLost)).2)
         !! "history-1" = Some h
       ∧ Batch.status h = Batch.FAILED
       ∧ Batch.failedImages h = 0).
Proof.
  split; [vm_compute; reflexivity|].
  destruct (final_status_is_function_of_counters "nightly"
              (Sample.world (Sample.schedule true Batch.ALL None) Sample.five
                 Sample.twoOfFive)
              "history-1" Sample.five (Ok tt))
    as (_ & Hscript & Hlost); [vm_compute; reflexivity|].
  split.
  - edestruct (Hscript (Sample.triggered Sample.five Sample.twoOfFive))
      with (outcomes := [Facts.Scanned;
                         Facts.Fails Facts.ScanCreate "Can't reach database server";
                         Facts.Scanned;
                         Facts.Fails Facts.ScanCreate "Can't reach database server";
                         Facts.Scanned])
      as (e & h & Hrun & _ & _ & Hh & _ & _ & _ & Hfive);
      [vm_compute; reflexivity|reflexivity
      |apply fated_seq; vm_compute; repeat constructor|].
    exists e, h. split; [exact Hrun|]. split; [exact Hh|].
    apply Hfive; [reflexivity|vm_compute; reflexivity|].
    repeat (apply Forall_cons_2; [intros ?; discriminate|]). apply Forall_nil_2.
  - edestruct (Hlost (Sample.triggered Sample.five Sample.lastLost))
      with (outcomes := [Facts.Scanned; Facts.Scanned; Facts.Scanned;
                         Facts.Scanned; Facts.Scanned])
           (message := "Can't reach database server")
      as (h & Hh & Hst & _ & Hfi);
      [vm_compute; reflexivity|reflexivity
      |apply fated_seq; vm_compute; repeat constructor|].
    exists h. split; [exact Hh|]. split; [exact Hst|]. exact Hfi.
Defined.

(** C2, counterexample: five images.  In the first run every image passes
    and the last update is rejected: the loop has finished with no failed
    image, and the record ends [FAILED], where the status computed from
    the counters is [COMPLETED].  In the second run the progress update of
    two images is rejected: two images have failed, and the record ends
    [PARTIAL] with five images counted as scanned, not three. *)
Lemma finished_loop_can_end_failed :
  (∃ h, Batch.histories
          (Batch.db (Batch.backgroundTask "history-1" Sample.five
                       (Sample.triggered Sample.five Sample.lastLost)).2)
          !! "history-1" = Some h
        ∧ Batch.totalImages h = 5
        ∧ Batch.scannedImages h = 5
        ∧ Batch.failedImages h = 0
        ∧ Batch.status h = Batch.FAILED
        ∧ Batch.finalStatus (Batch.failedImages h) (Batch.totalImages h)
          = Batch.COMPLETED)
  ∧ (∃ h, Batch.histories
            (Batch.db (Batch.backgroundTask "history-1" Sample.five
                         (Sample.triggered Sample.five Sample.twoProgressLost)).2)
            !! "history-1" = Some h
          ∧ Batch.totalImages h = 5
          ∧ Batch.scannedImages h = 5
          ∧ Batch.failedImages h = 2
          ∧ Batch.status h = Batch.PARTIAL).
Proof.
  split; eexists; (split; [vm_compute; reflexivity|]); repeat split.
Qed.

(** C3, failing input: one image; the store rejects the progress update
    that follows [scannedCount++].  The image is counted as scanned and as
    failed: the record ends with one image in all, one scanned, one failed. *)
Lemma progress_fault_counts_image_twice :
  ∃ h, Batch.histories
         (Batch.db (Batch.backgroundTask "history-1" [Sample.image "nginx"]
                      (Sample.triggered [Sample.image "nginx"] Sample.progressLost)).2)
         !! "history-1" = Some h
       ∧ Batch.totalImages h = 1
       ∧ Batch.scannedImages h = 1
       ∧ Batch.failedImages h = 1
       ∧ Batch.status h = Batch.FAILED
       ∧ ¬ Batch.scannedImages h + Batch.failedImages h ≤ Batch.totalImages h.
Proof.
  eexists. split; [vm_compute; reflexivity|]. simpl. repeat split. lia.
Qed.

(** C6, witness: a disabled schedule. *)
Lemma post_rejects_witness :
  (Batch.POST "nightly"
     (Sample.world (Sample.schedule false Batch.ALL None) Sample.five [])).1
  = Ok (Batch.json (Batch.ErrorBody "Scheduled scan is disabled") 400)
  ∧ (Batch.POST "nightly"
       (Sample.world (Sample.schedule true Batch.PATTERN (Some "mysql")) Sample.five [])).1
    = Ok (Batch.json (Batch.ErrorBody "No images found to scan") 400)
  ∧ Batch.histories
      (Batch.db (Batch.POST "nightly"
         (Sample.world (Sample.schedule true Batch.PATTERN (Some "mysql")) Sample.five [])).2)
    = ∅.
Proof.
  assert (∀ s, Batch.calm 2 (Sample.world s Sample.five [])) as Hcalm
    by (intros s; apply Forall_nil_2).
  split.
  - apply (post_rejects_before_any_record "nightly"
             (Sample.world (Sample.schedule false Batch.ALL None) Sample.five [])
             (Sample.schedule false Batch.ALL None));
      [vm_compute; reflexivity|apply Hcalm|reflexivity].
  - destruct (post_rejects_before_any_record "nightly"
                (Sample.world (Sample.schedule true Batch.PATTERN (Some "mysql"))
                   Sample.five [])
                (Sample.schedule true Batch.PATTERN (Some "mysql")))
      as (_ & _ & Hempty); [vm_compute; reflexivity|apply Hcalm|].
    destruct Hempty as (Hr & Hdb & _); [reflexivity|vm_compute; reflexivity|].
    split; [exact Hr|]. rewrite Hdb. reflexivity.
Defined.

(** C6, counterexample: an enabled schedule in [REPOSITORY] mode is answered
    501, which is not a client error. *)
Lemma repository_mode_is_answered_501 :
  Batch.scheduledScans
    (Batch.db (Sample.world (Sample.schedule true Batch.REPOSITORY None) Sample.five []))
    !! "nightly" = Some (Sample.schedule true Batch.REPOSITORY None)
  ∧ ∃ response,
      (Batch.POST "nightly"
         (Sample.world (Sample.schedule true Batch.REPOSITORY None) Sample.five [])).1
      = Ok response
      ∧ Batch.statusCode response = 501
      ∧ ¬ (400 ≤ Batch.statusCode response ≤ 499).
Proof.
  split; [vm_compute; reflexivity|].
  eexists. split; [vm_compute; reflexivity|]. simpl. split; [reflexivity|lia].
Qed.


(** ** On the connection manager *)

Lemma initial_idle rid : SSE.idle rid SSE.initial.
Proof. split; intros k x Hin; simpl in Hin; by rewrite lookup_empty in Hin. Qed.

(** C4, witness: the default options on a fresh manager; the fourth failure
    in a row ends in [error]. *)
Lemma retries_then_error_witness :
  SSE.idle "req-1" SSE.initial
  ∧ SSE.getConnectionStatus "req-1" SSE.initial ≠ Some SSE.connected
  ∧ SSE.getConnectionStatus "req-1" (SSE.failures (λ _, 0) "req-1" 4 Sample.dialled)
    = Some SSE.error.
Proof.
  split; [apply initial_idle|]. split; [vm_compute; discriminate|].
  apply (retries_then_error 0 (λ _, 0) "req-1" None SSE.initial);
    [apply initial_idle|vm_compute; discriminate].
Defined.

(** C4, counterexample: with the default [maxRetries = 3], after exactly
    three failures in a row the status is [reconnecting], not [error], and
    the third retry is pending with a delay of 4000 ms. *)
Lemma three_failures_leave_a_retry_pending :
  SSE.maxRetries (SSE.merge SSE.defaults None) = 3
  ∧ SSE.getConnectionStatus "req-1" (SSE.failures (λ _, 0) "req-1" 3 Sample.dialled)
    = Some SSE.reconnecting
  ∧ SSE.timers (SSE.failures (λ _, 0) "req-1" 3 Sample.dialled) !! 3%nat
    = Some {| SSE.setAt := 0; SSE.delay := 4000;
              SSE.action := SSE.Reconnect "req-1" SSE.defaults |}.
Proof. repeat split; vm_compute; reflexivity. Qed.

(** C9, witness: the transport of ["req-1"] has opened. *)
Lemma connect_is_idempotent_witness :
  SSE.getConnectionStatus "req-1" Sample.live = Some SSE.connected
  ∧ SSE.connect 10 "req-1" None true Sample.live = (true, Sample.live)
  ∧ SSE.connect 20 "req-1" None true (SSE.connect 10 "req-1" None true Sample.live).2
    = (true, Sample.live).
Proof.
  split; [vm_compute; reflexivity|].
  apply connect_is_idempotent_when_connected. vm_compute. reflexivity.
Defined.

(** ** On the completion monitor *)



(** ** Further runs *)

(** X2, witness: a store with one job, on which a progress event for that
    job and one for another arrive. *)
Lemma reducer_keeps_keys_witness :
  Invariants.keyed
    (Store.jobs (Store.scanningReducer 0 (Sample.store [("req-1", Sample.finished)])
                   (Store.UPDATE_SCAN_PROGRESS Sample.late)))
  ∧ Invariants.keyed
      (Store.jobs (Store.scanningReducer 0 (Sample.store [("req-1", Sample.finished)])
                     (Store.SET_JOBS [Sample.waiting; Sample.broken]))).
Proof.
  assert (Invariants.keyed (Store.jobs (Sample.store [("req-1", Sample.finished)]))) as Hk.
  { intros rid job. simpl. intros [[<- <-]|[_ H]]%lookup_insert_Some; [reflexivity|].
    by rewrite lookup_empty in H. }
  split; apply reducer_keeps_keys; exact Hk.
Defined.

(** X3, witness: a [SUCCESS] job last updated at 00:00:10, swept at
    00:00:12 and at 00:00:16. *)
Lemma auto_cleanup_absorbs_earlier_witness :
  Store.jobs
    (Store.scanningReducer 1704067216000
       (Store.scanningReducer 1704067212000
          (Sample.store [("req-1", Sample.finished)]) Store.AUTO_CLEANUP)
       Store.AUTO_CLEANUP)
  = Store.jobs
      (Store.scanningReducer 1704067216000
         (Sample.store [("req-1", Sample.finished)]) Store.AUTO_CLEANUP).
Proof. apply auto_cleanup_absorbs_earlier. lia. Defined.

(** X6, witness: the connected ["req-1"] is disconnected. *)
Lemma disconnect_releases_witness :
  SSE.getConnectionStatus "req-1" (SSE.disconnect "req-1" Sample.live) = None
  ∧ SSE.timers (SSE.disconnect "req-1" Sample.live) !! 1%nat = None
  ∧ SSE.closed <$> SSE.sources (SSE.disconnect "req-1" Sample.live) !! 0%nat = Some true.
Proof.
  edestruct (disconnect_releases "req-1" Sample.live) as (Hst & _ & Hsrc & _ & Htm & _).
  { vm_compute. reflexivity. }
  split; [exact Hst|]. split.
  - apply Htm. left. reflexivity.
  - erewrite Hsrc; [reflexivity|reflexivity|vm_compute; reflexivity].
Defined.

(** X10, witness: the transport of the dialled ["req-1"] opens at time 5. *)
Lemma opened_connection_witness :
  SSE.getConnectionStatus "req-1" (SSE.react 5 (SSE.Opened 0) Sample.dialled)
  = Some SSE.connected
  ∧ SSE.timers (SSE.react 5 (SSE.Opened 0) Sample.dialled) !! 1%nat
    = Some {| SSE.setAt := 5; SSE.delay := 30000;
              SSE.action := SSE.HeartbeatTimeout "req-1" |}
  ∧ SSE.emitted (SSE.react 5 (SSE.Opened 0) Sample.dialled)
    = SSE.emitted Sample.dialled ++ [SSE.StatusChange "req-1" SSE.connected].
Proof.
  edestruct opened_connection
    with (now := 5) (m := Sample.dialled) (rid := "req-1") (es := 0%nat) as (Hc & Ht & _ & He);
    [vm_compute; reflexivity..|].
  unfold SSE.getConnectionStatus. rewrite Hc, Ht. split; [reflexivity|].
  split; [vm_compute; reflexivity|exact He].
Defined.

(** X11, witness: the first source of the redialled ["req-1"] opens; the
    entry stays [connecting] and a [connected] status change is emitted. *)
Lemma opened_by_stale_source_witness :
  SSE.getConnectionStatus "req-1" (SSE.react 9 (SSE.Opened 0) Sample.redialled)
  = Some SSE.connecting
  ∧ SSE.emitted (SSE.react 9 (SSE.Opened 0) Sample.redialled)
    = SSE.emitted Sample.redialled ++ [SSE.StatusChange "req-1" SSE.connected].
Proof.
  edestruct opened_by_stale_source
    with (now := 9) (m := Sample.redialled) (rid := "req-1") (es := 0%nat) as (Hc & _ & He);
    [vm_compute; reflexivity|vm_compute; reflexivity|reflexivity|reflexivity
    |vm_compute; discriminate|].
  unfold SSE.getConnectionStatus. rewrite Hc. split; [reflexivity|exact He].
Defined.

(** X12, witness: the heartbeat timer of the connected ["req-1"] expires. *)
Lemma heartbeat_expiry_witness :
  SSE.getConnectionStatus "req-1" (SSE.react 40000 (SSE.Elapsed 1 true) Sample.live)
  = Some SSE.reconnecting
  ∧ SSE.timers (SSE.react 40000 (SSE.Elapsed 1 true) Sample.live) !! 2%nat
    = Some {| SSE.setAt := 40000; SSE.delay := 1000;
              SSE.action := SSE.Reconnect "req-1" SSE.defaults |}.
Proof.
  edestruct heartbeat_expiry_uses_defaults
    with (now := 40000) (m := Sample.live) (tid := 1%nat) (rid := "req-1")
         (constructed := true)
    as (Hretry & _); [vm_compute; reflexivity|reflexivity|vm_compute; reflexivity|].
  apply Hretry. simpl. lia.
Defined.

(** X13, witness: ["req-1"] is dialled again while it is still
    [connecting]. *)
Lemma connect_keeps_old_transport_witness :
  SSE.closed <$> SSE.sources Sample.redialled !! 0%nat = Some false
  ∧ SSE.timers Sample.redialled = SSE.timers Sample.dialled.
Proof.
  edestruct (connect_keeps_old_transport 7 "req-1" None Sample.dialled)
    as (Hs & Ht & _); [vm_compute; reflexivity|vm_compute; discriminate
                      |vm_compute; reflexivity|].
  split; [|exact Ht].
  unfold Sample.redialled. erewrite Hs; [|vm_compute; reflexivity]. reflexivity.
Defined.

(** X14, witness: a heartbeat message reaches the connected ["req-1"] at
    time 20. *)
Lemma heartbeat_message_rearms_witness :
  SSE.timers (SSE.react 20 (SSE.Received 0 SSE.HeartbeatMessage) Sample.live)
  = {[ 2%nat := {| SSE.setAt := 20; SSE.delay := 30000;
                   SSE.action := SSE.HeartbeatTimeout "req-1" |} ]}
  ∧ SSE.emitted (SSE.react 20 (SSE.Received 0 SSE.HeartbeatMessage) Sample.live)
    = SSE.emitted Sample.live.
Proof.
  edestruct heartbeat_message_rearms
    with (now := 20) (m := Sample.live) (rid := "req-1") (es := 0%nat)
    as (_ & Ht & _ & He & _); [vm_compute; reflexivity..|].
  split; [|exact He]. rewrite Ht. vm_compute. reflexivity.
Defined.

(** X15, witness: the first source of the redialled ["req-1"] fails; the
    second, which the table references, is the one that gets closed. *)
Lemma failure_of_replaced_source_witness :
  SSE.closed <$> SSE.sources (SSE.react 9 (SSE.Failed 0) Sample.redialled) !! 0%nat
  = Some false
  ∧ SSE.closed <$> SSE.sources (SSE.react 9 (SSE.Failed 0) Sample.redialled) !! 1%nat
    = Some true
  ∧ SSE.getConnectionStatus "req-1" (SSE.react 9 (SSE.Failed 0) Sample.redialled)
    = Some SSE.reconnecting.
Proof.
  edestruct failure_of_replaced_source
    with (now := 9) (m := Sample.redialled) (rid := "req-1") (old := 0%nat) (cur := 1%nat)
    as (Hold & Hcur & Hc & _);
    [vm_compute; reflexivity|vm_compute; reflexivity|reflexivity|reflexivity
    |reflexivity|discriminate|vm_compute; reflexivity|vm_compute; reflexivity|].
  unfold SSE.getConnectionStatus. rewrite Hold, Hcur, Hc. repeat split.
Defined.

(** X18, witness: the execution of a batch of one image, triggered while
    the store answers every call. *)
Lemma startScanExecution_calm_witness :
  (Batch.startScanExecution "history-1" [Sample.image "nginx"]
     (Sample.triggered [Sample.image "nginx"] [])).1 = Ok tt
  ∧ Batch.status
      <$> Batch.histories
            (Batch.db (Batch.startScanExecution "history-1" [Sample.image "nginx"]
                         (Sample.triggered [Sample.image "nginx"] [])).2) !! "history-1"
    = Some Batch.COMPLETED.
Proof.
  edestruct startScanExecution_calm
    with (hid := "history-1") (images := [Sample.image "nginx"])
         (w := Sample.triggered [Sample.image "nginx"] [])
    as (Hr & (t & _ & Hh) & _); [vm_compute; reflexivity|apply Forall_nil_2|].
  split; [exact Hr|]. rewrite Hh. reflexivity.
Defined.

(** X20, witness: no schedule is called ["weekly"]. *)
Lemma post_unknown_schedule_witness :
  (Batch.POST "weekly"
     (Sample.world (Sample.schedule true Batch.ALL None) Sample.five [])).1
  = Ok (Batch.json (Batch.ErrorBody "Scheduled scan not found") 404).
Proof.
  apply post_unknown_schedule; vm_compute; reflexivity.
Defined.

(** X21, witness: the pattern is an unbalanced parenthesis. *)
Lemma post_invalid_pattern_witness :
  (Batch.POST "nightly"
     (Sample.world (Sample.schedule true Batch.PATTERN (Some "(")) Sample.five [])).1
  = Ok (Batch.json (Batch.ErrorBody "Failed to execute scheduled scan") 500)
  ∧ Batch.histories
      (Batch.db (Batch.POST "nightly"
         (Sample.world (Sample.schedule true Batch.PATTERN (Some "(")) Sample.five [])).2)
    = ∅.
Proof.
  edestruct post_invalid_pattern
    with (id := "nightly") (pattern := "(")
         (w := Sample.world (Sample.schedule true Batch.PATTERN (Some "(")) Sample.five [])
    as (Hr & Hdb & _);
    [vm_compute; reflexivity|reflexivity|reflexivity|reflexivity|discriminate
    |vm_compute; reflexivity|reflexivity|].
  split; [exact Hr|]. rewrite Hdb. reflexivity.
Defined.

(** X22, witness: every image of an inventory of five. *)
Lemma post_starts_execution_witness :
  (Batch.POST "nightly"
     (Sample.world (Sample.schedule true Batch.ALL None) Sample.five [])).1
  = Ok (Batch.json
          (Batch.Started "uuid-0" "history-1" 5
             "Scheduled scan execution started for 5 images") 202)
  ∧ Batch.background
      (Batch.POST "nightly"
         (Sample.world (Sample.schedule true Batch.ALL None) Sample.five [])).2
    = [("history-1", Sample.five, Ok tt)].
Proof.
  edestruct post_starts_execution
    with (id := "nightly")
         (w := Sample.world (Sample.schedule true Batch.ALL None) Sample.five [])
    as (Hr & Hbg & _);
    [vm_compute; reflexivity|reflexivity|reflexivity|discriminate|apply Forall_nil_2|].
  rewrite Hr, Hbg. split; [vm_compute; reflexivity|reflexivity].
Defined.

(** X23, witness: the store goes down right before the update of
    [lastRunAt], after it has accepted the update to [RUNNING]. *)
Lemma post_fails_after_starting_witness :
  (Batch.POST "nightly"
     (Sample.world (Sample.schedule true Batch.ALL None) Sample.five
        [None; None; None; None; Sample.down])).1
  = Ok (Batch.json (Batch.ErrorBody "Failed to execute scheduled scan") 500)
  ∧ Batch.background
      (Batch.POST "nightly"
         (Sample.world (Sample.schedule true Batch.ALL None) Sample.five
            [None; None; None; None; Sample.down])).2
    = [("history-1", Sample.five, Ok tt)].
Proof.
  edestruct post_fails_after_starting
    with (id := "nightly")
         (w := Sample.world (Sample.schedule true Batch.ALL None) Sample.five
                 [None; None; None; None; Sample.down])
    as (Hr & Hbg & _);
    [vm_compute; reflexivity|reflexivity|reflexivity|discriminate
    |repeat constructor|reflexivity|].
  rewrite Hr, Hbg. split; reflexivity.
Defined.

(** ** On the provider component *)

(** X25, witness: a store with a finished job and a running job is swept
    at 00:00:41. *)
Lemma sweeps_keep_cadence_witness :
  Provider.pollingEffect
    (Store.scanningReducer 1704067241000
       (Sample.store [("req-1", Sample.finished); ("req-4", Sample.running "req-4")])
       Store.AUTO_CLEANUP)
  = (3000, Store.SET_POLLING true).
Proof.
  rewrite sweeps_keep_cadence by (left; reflexivity). vm_compute. reflexivity.
Defined.

(** X29, witness: a running job is submitted to the empty page at time 3
    and removed at time 4. *)
Lemma removeScanJob_undoes_addScanJob_witness :
  Store.jobs
    (Provider.state
       (Provider.removeScanJob 4 "req-9" (Provider.addScanJob 3 true Sample.submitted
                                            Sample.page)))
  = ∅
  ∧ SSE.connections
      (Provider.manager
         (Provider.removeScanJob 4 "req-9" (Provider.addScanJob 3 true Sample.submitted
                                              Sample.page)))
    = ∅.
Proof.
  edestruct (removeScanJob_undoes_addScanJob 3 4 true Sample.submitted Sample.page)
    as (Hj & Hc & _); [reflexivity|reflexivity|].
  split; [exact Hj|exact Hc].
Defined.
